(** * Text-suggestion engine: prefix index, word completor, n-gram model,
      suggestion combiner and interactive suggestion policy.

    Shallow embedding of [core/trie.py], [core/word_completor.py],
    [core/ngram.py], [core/text_suggestion.py] and [app/state.py].

    Modelling conventions.
    - A Python [str] is a [string]; its characters are the code points
      below 256 ([ascii]).
    - A Python [int] is a [Z].
    - A Python [float] obtained as the quotient of two counters is the
      exact rational ([Q]) it approximates.  Every comparison the code makes
      is between quotients [c1 / t] and [c2 / t] of counters over one and
      the same total; for counters below [2^52] two such quotients differ
      by more than one unit in the last place, so the order and the ties of
      the floats are those of the rationals.
    - A Python [dict] (and [Counter], [defaultdict]) is an association list
      in insertion order: iteration order is observable in the program
      (it breaks ties), so it is part of the model.
    - Exceptions are values of [result]. *)

From Stdlib Require Import List String Ascii ZArith QArith Bool Arith Lia Permutation.
Import ListNotations.

Local Open Scope nat_scope.

(* ================================================================== *)
(** ** Python primitives *)

Module Py.

(** The exceptions the modelled code can raise. *)
Inductive exn : Type :=
| ValueError
| ZeroDivisionError.

Inductive result (A : Type) : Type :=
| Ok (a : A)
| Raise (e : exn).

Arguments Ok {A} a.
Arguments Raise {A} e.

Definition bind {A B : Type} (m : result A) (k : A -> result B) : result B :=
  match m with
  | Ok a => k a
  | Raise e => Raise e
  end.

(** Key equality: the [__eq__] a dict uses on its keys. *)
Class EqKey (K : Type) : Type := eqb_key : K -> K -> bool.

#[global] Instance ascii_EqKey : EqKey ascii := Ascii.eqb.
#[global] Instance string_EqKey : EqKey string := String.eqb.

Fixpoint list_eqb {K : Type} {E : EqKey K} (xs ys : list K) : bool :=
  match xs, ys with
  | [], [] => true
  | x :: xs', y :: ys' => eqb_key x y && list_eqb xs' ys'
  | _, _ => false
  end.

(** Tuples of tokens are compared component-wise. *)
#[global] Instance tuple_EqKey {K : Type} {E : EqKey K} : EqKey (list K) :=
  list_eqb.

(** [x in xs] on a list. *)
Fixpoint list_in {K : Type} {E : EqKey K} (x : K) (xs : list K) : bool :=
  match xs with
  | [] => false
  | y :: ys => eqb_key x y || list_in x ys
  end.

(** *** Insertion-ordered dictionaries *)

Definition dict (K V : Type) : Type := list (K * V).

Fixpoint dict_get {K V : Type} {E : EqKey K} (d : dict K V) (k : K) : option V :=
  match d with
  | [] => None
  | (k', v) :: d' => if eqb_key k k' then Some v else dict_get d' k
  end.

(** [k in d] *)
Definition dict_contains {K V : Type} {E : EqKey K} (d : dict K V) (k : K) : bool :=
  match dict_get d k with
  | Some _ => true
  | None => false
  end.

(** [d[k] = v]: an existing key keeps its position, a new key goes last. *)
Fixpoint dict_setitem {K V : Type} {E : EqKey K} (d : dict K V) (k : K) (v : V) : dict K V :=
  match d with
  | [] => [(k, v)]
  | (k', v') :: d' =>
      if eqb_key k k' then (k', v) :: d' else (k', v') :: dict_setitem d' k v
  end.

Definition dict_keys {K V : Type} (d : dict K V) : list K := map fst d.
Definition dict_values {K V : Type} (d : dict K V) : list V := map snd d.

(** *** [collections.Counter] *)

Definition Counter (K : Type) : Type := dict K Z.

(** [c[k]]: a missing key reads as 0 and is NOT inserted
    ([Counter.__missing__] returns 0). The counter is returned to make the
    absence of an effect explicit. *)
Definition counter_getitem {K : Type} {E : EqKey K} (c : Counter K) (k : K) : Z * Counter K :=
  match dict_get c k with
  | Some v => (v, c)
  | None => (0%Z, c)
  end.

Definition counter_count {K : Type} {E : EqKey K} (c : Counter K) (k : K) : Z :=
  fst (counter_getitem c k).

(** [c[k] += 1] *)
Definition counter_incr {K : Type} {E : EqKey K} (c : Counter K) (k : K) : Counter K :=
  let '(v, c1) := counter_getitem c k in
  dict_setitem c1 k (v + 1)%Z.

(** [c.update(iterable)] *)
Definition counter_update {K : Type} {E : EqKey K} (c : Counter K) (xs : list K) : Counter K :=
  fold_left counter_incr xs c.

(** [sum(xs)] on ints *)
Definition sum_Z (xs : list Z) : Z := fold_left Z.add xs 0%Z.

(** *** [collections.defaultdict(Counter)] *)

(** [d[k]] on a [defaultdict(Counter)]: a missing key IS inserted, bound to
    a fresh empty counter, and that counter is returned. *)
Definition defaultdict_getitem {K W : Type} {E : EqKey K}
  (d : dict K (Counter W)) (k : K) : Counter W * dict K (Counter W) :=
  match dict_get d k with
  | Some c => (c, d)
  | None => ([], d ++ [(k, [])])
  end.

(** *** Arithmetic *)

(** [a / b] on ints (true division): the exact quotient.  Python rounds it
    to the nearest float; on counts below [2^52] the rounding keeps the
    order of two quotients with the same divisor and their equality, but a
    sum of rounded quotients can differ from the sum of the exact ones. *)
Definition truediv (a b : Z) : result Q :=
  if (b =? 0)%Z then Raise ZeroDivisionError
  else Ok (inject_Z a / inject_Z b)%Q.

Definition Qlt_bool (x y : Q) : bool := negb (Qle_bool y x).

(** *** Sequences *)

(** [xs[:k]] *)
Definition slice_to {A : Type} (xs : list A) (k : Z) : list A :=
  if (k <? 0)%Z
  then firstn (Z.to_nat (Z.of_nat (List.length xs) + k)) xs
  else firstn (Z.to_nat k) xs.

(** [xs[k:]] *)
Definition slice_from {A : Type} (xs : list A) (k : Z) : list A :=
  if (k <? 0)%Z
  then skipn (Z.to_nat (Z.of_nat (List.length xs) + k)) xs
  else skipn (Z.to_nat k) xs.

(** [xs[i:j]] for indices [0 <= i <= j]. *)
Definition slice {A : Type} (xs : list A) (i j : nat) : list A :=
  firstn (j - i) (skipn i xs).

(** [range(k)] *)
Definition range (k : Z) : list nat := seq 0 (Z.to_nat k).

(** [sorted(xs, key=key)]: the stable sort; [lt] is [<] on keys.  The
    element being inserted came before the ones already placed, so it
    stays in front of every element whose key is not smaller. *)
Fixpoint sorted_insert {A B : Type} (lt : B -> B -> bool) (key : A -> B)
  (x : A) (xs : list A) : list A :=
  match xs with
  | [] => [x]
  | y :: ys =>
      if lt (key y) (key x) then y :: sorted_insert lt key x ys
      else x :: y :: ys
  end.

Definition sorted {A B : Type} (lt : B -> B -> bool) (key : A -> B) (xs : list A) : list A :=
  fold_right (sorted_insert lt key) [] xs.

(** [max(range(len(xs)), key=lambda i: xs[i])] on a non-empty list: the
    first index holding a largest element. [argmax_from] scans the rest
    of the list with the best index and value found so far. *)
Fixpoint argmax_from (best : nat) (bestv : Q) (i : nat) (xs : list Q) : nat :=
  match xs with
  | [] => best
  | x :: xs' =>
      if Qlt_bool bestv x then argmax_from i x (S i) xs'
      else argmax_from best bestv (S i) xs'
  end.

Definition argmax (xs : list Q) : nat :=
  match xs with
  | [] => 0
  | x :: xs' => argmax_from 0 x 1 xs'
  end.

(** *** Strings *)

(** [c.isspace()] for a code point below 256. *)
Definition isspace (c : ascii) : bool :=
  let n := N_of_ascii c in
  ((9 <=? n) && (n <=? 13) || (28 <=? n) && (n <=? 32) || (n =? 133) || (n =? 160))%N.

(** [s.isspace()] for a string of at most one character (as the code uses
    it): false on the empty string. *)
Definition str_isspace (s : string) : bool :=
  match s with
  | String c EmptyString => isspace c
  | _ => false
  end.

Fixpoint lstrip (s : string) : string :=
  match s with
  | EmptyString => EmptyString
  | String c r => if isspace c then lstrip r else s
  end.

Fixpoint rstrip (s : string) : string :=
  match s with
  | EmptyString => EmptyString
  | String c r =>
      match rstrip r with
      | EmptyString => if isspace c then EmptyString else String c EmptyString
      | r' => String c r'
      end
  end.

Definition strip (s : string) : string := rstrip (lstrip s).

(** [s.split()]: maximal runs of non-whitespace characters. [cur] is the
    run being read. *)
Fixpoint split_from (cur : string) (s : string) : list string :=
  match s with
  | EmptyString =>
      match cur with
      | EmptyString => []
      | _ => [cur]
      end
  | String c r =>
      if isspace c then
        match cur with
        | EmptyString => split_from EmptyString r
        | _ => cur :: split_from EmptyString r
        end
      else split_from (cur ++ String c EmptyString)%string r
  end.

Definition split (s : string) : list string := split_from EmptyString s.

(** [s.startswith(p)] *)
Fixpoint startswith (s p : string) {struct p} : bool :=
  match p with
  | EmptyString => true
  | String c p' =>
      match s with
      | EmptyString => false
      | String d s' => Ascii.eqb c d && startswith s' p'
      end
  end.

(** [s[k:]] for [k >= 0] *)
Fixpoint str_from (s : string) (k : nat) : string :=
  match k, s with
  | O, _ => s
  | S k', String _ r => str_from r k'
  | S _, EmptyString => EmptyString
  end.

(** [s[-1] if s else ""] *)
Fixpoint last_char (s : string) : string :=
  match s with
  | EmptyString => EmptyString
  | String c EmptyString => String c EmptyString
  | String _ r => last_char r
  end.

(** [sep.join(parts)] *)
Definition join (sep : string) (parts : list string) : string :=
  String.concat sep parts.

(** [set(xs)] iterates over the distinct elements of [xs] in an order
    Python does not specify: [order] is one such iteration order. *)
Definition set_iteration {A : Type} (xs order : list A) : Prop :=
  NoDup order /\ forall x, In x order <-> In x xs.

End Py.

Import Py.

Declare Scope py_scope.
Notation "x <- m ;; k" := (bind m (fun x => k))
  (at level 61, m at next level, right associativity) : py_scope.
Notation "' p <- m ;; k" := (bind m (fun p => k))
  (at level 61, p pattern, m at next level, right associativity) : py_scope.
Local Open Scope py_scope.

(* ================================================================== *)
(** ** core/trie.py *)

(** [PrefixTreeNode]: the dataclass with fields [children] and
    [is_end_of_word]. *)
#[warnings="-register-all"]
Inductive PrefixTreeNode : Type :=
| Node (children : dict ascii PrefixTreeNode) (is_end_of_word : bool).

Module PrefixTree.

Definition children (node : PrefixTreeNode) : dict ascii PrefixTreeNode :=
  match node with Node cs _ => cs end.

Definition is_end_of_word (node : PrefixTreeNode) : bool :=
  match node with Node _ e => e end.

(** [PrefixTreeNode()] *)
Definition new_node : PrefixTreeNode := Node [] false.

(** [_insert], started at [node]: the loop descends one child per
    character, creating the child when the character is new, and flags the
    node it ends on.  The nodes are owned by their parents, so the update
    in place is the rebuilt path. *)
Fixpoint insert_from (node : PrefixTreeNode) (word : string) : PrefixTreeNode :=
  match word with
  | EmptyString => Node (children node) true
  | String char rest =>
      let cs :=
        if negb (dict_contains (children node) char)
        then dict_setitem (children node) char new_node
        else children node in
      match dict_get cs char with
      | Some child =>
          Node (dict_setitem cs char (insert_from child rest)) (is_end_of_word node)
      | None => node
      end
  end.

Record t : Type := { root : PrefixTreeNode }.

Definition _insert (self : t) (word : string) : t :=
  {| root := insert_from (root self) word |}.

(** [__init__]: [order] is the iteration order of [set(vocabulary)]. *)
Definition init (order : list string) : t :=
  fold_left _insert order {| root := new_node |}.

(** [_collect_words]: [results] is the list the traversal appends to; the
    list after the call is returned. *)
Fixpoint _collect_words (node : PrefixTreeNode) (prefix : string)
  (results : list string) : list string :=
  match node with
  | Node cs e =>
      let results := if e then results ++ [prefix] else results in
      fold_left
        (fun results (item : ascii * PrefixTreeNode) =>
           _collect_words (snd item)
             (prefix ++ String (fst item) EmptyString)%string results)
        cs results
  end.

(** The descent of [search_prefix]: [None] is the early [return []]. *)
Fixpoint descend (node : PrefixTreeNode) (prefix : string) : option PrefixTreeNode :=
  match prefix with
  | EmptyString => Some node
  | String char rest =>
      if negb (dict_contains (children node) char) then None
      else
        match dict_get (children node) char with
        | Some child => descend child rest
        | None => None
        end
  end.

(** [search_prefix]: the result and the tree after the call. *)
Definition search_prefix_st (self : t) (prefix : string) : list string * t :=
  match descend (root self) prefix with
  | None => ([], self)
  | Some node => (_collect_words node prefix [], self)
  end.

Definition search_prefix (self : t) (prefix : string) : list string :=
  fst (search_prefix_st self prefix).

End PrefixTree.

(* ================================================================== *)
(** ** core/word_completor.py *)

Module WordCompletor.

Record t : Type := {
  counter : Counter string;
  total_count : Z;
  prefix_tree : PrefixTree.t
}.

(** [__init__].  [order] is the iteration order of [set(vocabulary)] inside
    the [PrefixTree] constructor. *)
Definition init (corpus : list (list string)) (min_freq : Z) (order : list string) : t :=
  let counter := fold_left counter_update corpus [] in
  let counter :=
    if (1 <? min_freq)%Z
    then filter (fun wc : string * Z => (min_freq <=? snd wc)%Z) counter
    else counter in
  let total_count :=
    match counter with
    | [] => 0%Z
    | _ => sum_Z (dict_values counter)
    end in
  {| counter := counter;
     total_count := total_count;
     prefix_tree := PrefixTree.init order |}.

(** [[counts[w] / total for w in words]], threading the counter that is
    read. *)
Fixpoint probs_st (counts : Counter string) (total : Z) (words : list string)
  : result (list Q) * Counter string :=
  match words with
  | [] => (Ok [], counts)
  | w :: ws =>
      let '(c, counts) := counter_getitem counts w in
      match truediv c total with
      | Raise e => (Raise e, counts)
      | Ok p =>
          let '(r, counts) := probs_st counts total ws in
          (ps <- r ;; Ok (p :: ps), counts)
      end
  end.

(** [get_words_and_probs]: the result and the object after the call. *)
Definition get_words_and_probs_st (self : t) (prefix : string)
  : result (list string * list Q) * t :=
  let '(words, self) :=
    match prefix with
    | EmptyString => (dict_keys (counter self), self)
    | _ =>
        let '(ws, tree) := PrefixTree.search_prefix_st (prefix_tree self) prefix in
        (ws, {| counter := counter self;
                total_count := total_count self;
                prefix_tree := tree |})
    end in
  if match words with [] => true | _ => false end || (total_count self =? 0)%Z
  then (Ok ([], []), self)
  else
    let '(r, c) := probs_st (counter self) (total_count self) words in
    (probs <- r ;; Ok (words, probs),
     {| counter := c;
        total_count := total_count self;
        prefix_tree := prefix_tree self |}).

Definition get_words_and_probs (self : t) (prefix : string)
  : result (list string * list Q) :=
  fst (get_words_and_probs_st self prefix).

End WordCompletor.

(* ================================================================== *)
(** ** core/ngram.py *)

Module NGramLanguageModel.

Abbreviation context := (list string) (only parsing).

Record t : Type := {
  n : Z;
  next_counts : dict context (Counter string);
  context_totals : Counter context
}.

Definition tables : Type := dict context (Counter string) * Counter context.

(** The body of the inner loop:
    [self.next_counts[context][next_word] += 1] and
    [self.context_totals[context] += 1].  The counter that the defaultdict
    returns is the object stored in it, so incrementing it rewrites the
    entry. *)
Definition record (tb : tables) (ctx : context) (next_word : string) : tables :=
  let '(next_counts, context_totals) := tb in
  let '(counts, next_counts) := defaultdict_getitem next_counts ctx in
  let next_counts := dict_setitem next_counts ctx (counter_incr counts next_word) in
  (next_counts, counter_incr context_totals ctx).

(** The body of the outer loop, for one sentence.  The index [i + n] is
    below [len(sent)] for every [i] of the range, so [sent[i + n]] does not
    raise. *)
Definition scan (n : Z) (tb : tables) (sent : list string) : tables :=
  if match sent with [] => true | _ => false end
     || (Z.of_nat (List.length sent) <? n)%Z
  then tb
  else
    fold_left
      (fun tb i =>
         record tb (slice sent i (i + Z.to_nat n))
           (nth (i + Z.to_nat n) sent EmptyString))
      (range (Z.of_nat (List.length sent) - n)) tb.

(** [__init__] *)
Definition init (corpus : list (list string)) (n : Z) : result t :=
  if (n <? 1)%Z then Raise ValueError
  else
    let '(next_counts, context_totals) := fold_left (scan n) corpus ([], []) in
    Ok {| n := n; next_counts := next_counts; context_totals := context_totals |}.

(** [get_next_words_and_probs]: the result and the object after the call.
    [counts] is the counter object stored under [context]; what the body
    does to it is what happens to the entry. *)
Definition get_next_words_and_probs_st (self : t) (prefix : list string)
  : result (list string * list Q) * t :=
  if (Z.of_nat (List.length prefix) <? n self)%Z then (Raise ValueError, self)
  else
    let ctx := slice_from prefix (- n self) in
    if negb (dict_contains (next_counts self) ctx) then (Ok ([], []), self)
    else
      let '(counts, next_counts) := defaultdict_getitem (next_counts self) ctx in
      let '(total, context_totals) := counter_getitem (context_totals self) ctx in
      let words := dict_keys counts in
      let '(r, counts) := WordCompletor.probs_st counts total words in
      (probs <- r ;; Ok (words, probs),
       {| n := n self;
          next_counts := dict_setitem next_counts ctx counts;
          context_totals := context_totals |}).

Definition get_next_words_and_probs (self : t) (prefix : list string)
  : result (list string * list Q) :=
  fst (get_next_words_and_probs_st self prefix).

End NGramLanguageModel.

(* ================================================================== *)
(** ** core/text_suggestion.py *)

Module TextSuggestion.

Record t : Type := {
  word_completor : WordCompletor.t;
  n_gram_model : NGramLanguageModel.t
}.

(** [Union[str, List[str]]] *)
Inductive text_arg : Type :=
| Str (s : string)
| Tokens (ts : list string).

(** Stage 2, the loop [for _ in range(n_words)]; [fuel] is the number of
    iterations left.  [ValueError] is caught and ends the loop. *)
Fixpoint extend (self : t) (fuel : nat) (suggestion context_seq : list string)
  : result (list string) :=
  match fuel with
  | O => Ok suggestion
  | S fuel' =>
      match NGramLanguageModel.get_next_words_and_probs (n_gram_model self) context_seq with
      | Raise ValueError => Ok suggestion
      | Raise e => Raise e
      | Ok ([], _) => Ok suggestion
      | Ok (next_words, next_probs) =>
          let j := argmax next_probs in
          let w := nth j next_words EmptyString in
          extend self fuel' (suggestion ++ [w]) (context_seq ++ [w])
      end
  end.

Definition suggest_text (self : t) (text : text_arg) (n_words n_texts : Z)
  : result (list (list string)) :=
  let tokens :=
    match text with
    | Str s => split (strip s)
    | Tokens ts => ts
    end in
  match tokens with
  | [] => Ok []
  | _ =>
      let prefix := last tokens EmptyString in
      '(cand_words, cand_probs) <-
         WordCompletor.get_words_and_probs (word_completor self) prefix ;;
      match cand_words with
      | [] => Ok []
      | _ =>
          let best_idx := argmax cand_probs in
          let completed := nth best_idx cand_words EmptyString in
          let suggestion := [completed] in
          let context_seq := removelast tokens ++ [completed] in
          suggestion <- extend self (Z.to_nat n_words) suggestion context_seq ;;
          Ok (slice_to [suggestion] n_texts)
      end
  end.

End TextSuggestion.

(* ================================================================== *)
(** ** app/state.py *)

Module State.

(** The module-level models [_word_completor] and [_ngram_model]. *)
Record models : Type := {
  _word_completor : WordCompletor.t;
  _ngram_model : NGramLanguageModel.t
}.

Record t : Type := {
  text : string;
  suggestions : list string;
  ghost_suffix : string
}.

(** The loop
    [for w in ws: if w not in acc: acc.append(w); if len(acc) == 3: break],
    which the code runs over the ranked vocabulary (in
    [backfill_suggestions]) and over the next words of the n-gram model. *)
Fixpoint append_new (acc : list string) (ws : list string) : list string :=
  match ws with
  | [] => acc
  | w :: ws' =>
      if negb (list_in w acc) then
        let acc := acc ++ [w] in
        if List.length acc =? 3 then acc else append_new acc ws'
      else append_new acc ws'
  end.

(** [sorted(zip(words, probs), key=lambda x: -x[1])] *)
Definition ranked_by_prob (words : list string) (probs : list Q) : list (string * Q) :=
  sorted Qlt_bool (fun x : string * Q => (- snd x)%Q) (combine words probs).

Definition backfill_suggestions (m : models) (existing : list string)
  : result (list string) :=
  if 3 <=? List.length existing then Ok (slice_to existing 3)
  else
    '(all_words, all_probs) <-
       WordCompletor.get_words_and_probs (_word_completor m) EmptyString ;;
    let ranked_all := ranked_by_prob all_words all_probs in
    let filled := existing in
    Ok (append_new filled (map fst ranked_all)).

(** [try: next_words, _ = _ngram_model.get_next_words_and_probs(tokens)]
    [except ValueError: next_words = []] *)
Definition next_words_or_empty (m : models) (tokens : list string)
  : result (list string) :=
  match NGramLanguageModel.get_next_words_and_probs (_ngram_model m) tokens with
  | Ok (next_words, _) => Ok next_words
  | Raise ValueError => Ok []
  | Raise e => Raise e
  end.

(** [update_text], for a [value] that is a string. *)
Definition update_text (m : models) (self : t) (value : string) : result t :=
  let stripped := lstrip value in
  match stripped with
  | EmptyString =>
      Ok {| text := value; suggestions := []; ghost_suffix := EmptyString |}
  | _ =>
      let last_char := last_char value in
      let tokens := split stripped in
      if str_isspace last_char then
        next_words <- next_words_or_empty m tokens ;;
        let suggestions := slice_to next_words 3 in
        suggestions <- backfill_suggestions m suggestions ;;
        Ok {| text := value;
              suggestions := suggestions;
              ghost_suffix := match suggestions with
                              | s :: _ => s
                              | [] => EmptyString
                              end |}
      else
        let prefix := last tokens EmptyString in
        '(words, probs) <-
           WordCompletor.get_words_and_probs (_word_completor m) prefix ;;
        let ranked := ranked_by_prob words probs in
        let completions := map fst (slice_to ranked 3) in
        let suggestions := completions in
        suggestions <-
          (if List.length suggestions <? 3 then
             next_words <- next_words_or_empty m tokens ;;
             Ok (append_new suggestions next_words)
           else Ok suggestions) ;;
        suggestions <- backfill_suggestions m suggestions ;;
        Ok {| text := value;
              suggestions := suggestions;
              ghost_suffix :=
                match suggestions with
                | best :: _ =>
                    if startswith best prefix
                    then str_from best (String.length prefix)
                    else best
                | [] => EmptyString
                end |}
  end.

(** [apply_suggestion].  [self.text or ""] is [self.text], a string.  In
    the last branch [trimmed] holds a character that is no whitespace, so
    [parts] is not empty and [parts[-1] = word] replaces its last element. *)
Definition apply_suggestion (m : models) (self : t) (word : string) : result t :=
  let current := text self in
  let new_text :=
    match current with
    | EmptyString => (word ++ " ")%string
    | _ =>
        let trimmed := rstrip current in
        match trimmed with
        | EmptyString => (word ++ " ")%string
        | _ =>
            if str_isspace (last_char current)
            then (current ++ word ++ " ")%string
            else
              let parts := split trimmed in
              let parts := removelast parts ++ [word] in
              (join " " parts ++ " ")%string
        end
    end in
  update_text m
    {| text := new_text;
       suggestions := suggestions self;
       ghost_suffix := ghost_suffix self |}
    new_text.

(** [on_key_down] *)
Definition on_key_down (m : models) (self : t) (key : string) : result t :=
  if String.eqb key "Enter"
     && match suggestions self with [] => false | _ => true end
  then apply_suggestion m self (nth 0 (suggestions self) EmptyString)
  else Ok self.

End State.

(* ================================================================== *)
(** ** core/preprocessing.py *)

Module Preprocessing.

(** [tokenize] *)
Definition tokenize (text : string) : list string :=
  match text with
  | EmptyString => []
  | _ => split text
  end.

End Preprocessing.

(* ================================================================== *)
(** ** Vocabulary of the statements *)

(** Laws of key equality. *)
Class EqKeyOk (K : Type) {E : EqKey K} : Prop :=
  eqb_key_eq : forall x y : K, eqb_key x y = true <-> x = y.

Arguments EqKeyOk K {E}.
Arguments eqb_key_eq {K E _} x y.

(** The distinct elements of [xs], in order of first occurrence. *)
Definition first_seen {K : Type} {E : EqKey K} (xs : list K) : list K :=
  fold_left (fun acc x => if list_in x acc then acc else acc ++ [x]) xs [].

(** Number of occurrences of [k] in [xs]. *)
Definition occurrences {K : Type} {E : EqKey K} (k : K) (xs : list K) : nat :=
  List.length (filter (eqb_key k) xs).

(** The counter that counting the elements of [xs] one by one builds. *)
Definition tally {K : Type} {E : EqKey K} (xs : list K) : Counter K :=
  counter_update [] xs.

(** [sum(qs)] on rationals. *)
Definition sum_Q (qs : list Q) : Q := fold_right Qplus 0%Q qs.

(** No character of [s] is whitespace. *)
Fixpoint no_space (s : string) : bool :=
  match s with
  | EmptyString => true
  | String c r => negb (isspace c) && no_space r
  end.

(** [s] is a token: not empty and without whitespace. *)
Definition is_token (s : string) : bool :=
  match s with
  | EmptyString => false
  | _ => no_space s
  end.

(** The last character of [s] exists and is no whitespace: the buffer is in
    the middle of a word. *)
Definition mid_word (s : string) : bool :=
  match last_char s with
  | String c _ => negb (isspace c)
  | EmptyString => false
  end.

(** [qs] is in descending order. *)
Fixpoint descending (qs : list Q) : Prop :=
  match qs with
  | [] => True
  | q :: qs' => (forall q', In q' qs' -> (q' <= q)%Q) /\ descending qs'
  end.

(** Every node of the tree has distinct keys in [children]. *)
Inductive distinct_children : PrefixTreeNode -> Prop :=
| distinct_children_node cs e :
    NoDup (dict_keys cs) ->
    (forall c child, In (c, child) cs -> distinct_children child) ->
    distinct_children (Node cs e).

(** [word] is stored below [node]: its path ends on a flagged node. *)
Definition stored (node : PrefixTreeNode) (word : string) : bool :=
  match PrefixTree.descend node word with
  | Some n => PrefixTree.is_end_of_word n
  | None => false
  end.

Module Corpus.

(** [sent[i : i + k]] is [ctx] and a token follows it. *)
Definition window_at (k : nat) (ctx : list string) (sent : list string) (i : nat) : bool :=
  (i + k <? List.length sent) && eqb_key (slice sent i (i + k)) ctx.

(** [sent[i : i + k]] is [ctx] and the token that follows it is [w]. *)
Definition followed_at (k : nat) (ctx : list string) (w : string)
  (sent : list string) (i : nat) : bool :=
  match nth_error sent (i + k) with
  | Some w' => eqb_key (slice sent i (i + k)) ctx && eqb_key w' w
  | None => false
  end.

(** Number of positions of the corpus where the window [ctx] of [k] tokens
    has a token after it. *)
Definition count_window (k : nat) (corpus : list (list string)) (ctx : list string) : nat :=
  list_sum
    (map (fun sent => List.length (filter (window_at k ctx sent) (seq 0 (List.length sent))))
       corpus).

(** Number of positions of the corpus where the window [ctx] of [k] tokens
    is followed by [w]. *)
Definition count_followed (k : nat) (corpus : list (list string))
  (ctx : list string) (w : string) : nat :=
  list_sum
    (map (fun sent => List.length (filter (followed_at k ctx w sent) (seq 0 (List.length sent))))
       corpus).

(** The (window, next token) pairs of a sentence, left to right, and of a
    corpus, sentence after sentence. *)
Definition pairs_of (k : nat) (sent : list string) : list (list string * string) :=
  map (fun i => (slice sent i (i + k), nth (i + k) sent EmptyString))
    (seq 0 (List.length sent - k)).

Definition pairs (k : nat) (corpus : list (list string)) : list (list string * string) :=
  flat_map (pairs_of k) corpus.

(** The tokens that follow the window [ctx], in corpus order. *)
Definition followers (ctx : list string) (ps : list (list string * string)) : list string :=
  map snd (filter (fun p => eqb_key (fst p) ctx) ps).

End Corpus.

Module Model.

(** The tables after recording the given (window, next token) pairs. *)
Definition counted (ps : list (list string * string)) : NGramLanguageModel.tables :=
  fold_left (fun tb p => NGramLanguageModel.record tb (fst p) (snd p)) ps ([], []).

(** [next_counts[ctx][w]], 0 when the context or the word is absent. *)
Definition next_count (g : NGramLanguageModel.t) (ctx : list string) (w : string) : Z :=
  match dict_get (NGramLanguageModel.next_counts g) ctx with
  | Some counts => counter_count counts w
  | None => 0%Z
  end.

Definition context_total (g : NGramLanguageModel.t) (ctx : list string) : Z :=
  counter_count (NGramLanguageModel.context_totals g) ctx.

(** The observed probability of [w] after [ctx]. *)
Definition observed_prob (g : NGramLanguageModel.t) (ctx : list string) (w : string) : Q :=
  (inject_Z (next_count g ctx w) / inject_Z (context_total g ctx))%Q.

(** [ws] is ranked by descending observed probability after [ctx]. *)
Definition ranked_descending (g : NGramLanguageModel.t) (ctx : list string)
  (ws : list string) : Prop :=
  forall i a b,
    nth_error ws i = Some a -> nth_error ws (S i) = Some b ->
    (observed_prob g ctx b <= observed_prob g ctx a)%Q.

(** The three query operations, and the models after a query. *)
Inductive query : Type :=
| SearchPrefix (prefix : string)
| GetWordsAndProbs (prefix : string)
| GetNextWordsAndProbs (tokens : list string).

Definition after_query (m : State.models) (q : query) : State.models :=
  match q with
  | SearchPrefix p =>
      let wc := State._word_completor m in
      let tree := snd (PrefixTree.search_prefix_st (WordCompletor.prefix_tree wc) p) in
      {| State._word_completor :=
           {| WordCompletor.counter := WordCompletor.counter wc;
              WordCompletor.total_count := WordCompletor.total_count wc;
              WordCompletor.prefix_tree := tree |};
         State._ngram_model := State._ngram_model m |}
  | GetWordsAndProbs p =>
      {| State._word_completor :=
           snd (WordCompletor.get_words_and_probs_st (State._word_completor m) p);
         State._ngram_model := State._ngram_model m |}
  | GetNextWordsAndProbs ts =>
      {| State._word_completor := State._word_completor m;
         State._ngram_model :=
           snd (NGramLanguageModel.get_next_words_and_probs_st (State._ngram_model m) ts) |}
  end.

Definition after_queries (m : State.models) (qs : list query) : State.models :=
  fold_left after_query qs m.

End Model.

(* ================================================================== *)
(** * Proofs *)

(** ** Key equality *)

#[global] Instance ascii_EqKeyOk : EqKeyOk ascii.
Proof. intros x y. apply Ascii.eqb_eq. Qed.

#[global] Instance string_EqKeyOk : EqKeyOk string.
Proof. intros x y. apply String.eqb_eq. Qed.

#[global] Instance tuple_EqKeyOk {K : Type} {E : EqKey K} {O : EqKeyOk K} : EqKeyOk (list K).
Proof.
  intros xs. unfold eqb_key, tuple_EqKey.
  induction xs as [|x xs IH]; intros [|y ys]; simpl; split; intro H;
    try discriminate; try reflexivity.
  - apply andb_true_iff in H as [Hx Hxs].
    apply eqb_key_eq in Hx. apply IH in Hxs. congruence.
  - injection H as -> ->. apply andb_true_iff. split.
    + now apply eqb_key_eq.
    + now apply IH.
Qed.

Section Keys.
Context {K : Type} {E : EqKey K} {O : EqKeyOk K}.

Lemma eqb_key_refl (k : K) : eqb_key k k = true.
Proof. now apply eqb_key_eq. Qed.

Lemma eqb_key_neq (x y : K) : eqb_key x y = false <-> x <> y.
Proof.
  split.
  - intros H ->. rewrite eqb_key_refl in H. discriminate.
  - intros H. destruct (eqb_key x y) eqn:Hxy; [|reflexivity].
    apply eqb_key_eq in Hxy. contradiction.
Qed.

Lemma eqb_key_sym (x y : K) : eqb_key x y = eqb_key y x.
Proof.
  destruct (eqb_key y x) eqn:H.
  - apply eqb_key_eq in H as ->. apply eqb_key_refl.
  - apply eqb_key_neq. apply eqb_key_neq in H. congruence.
Qed.

Lemma list_in_In (x : K) (xs : list K) : list_in x xs = true <-> In x xs.
Proof.
  induction xs as [|y ys IH]; simpl.
  - split; [discriminate | tauto].
  - rewrite orb_true_iff, IH, eqb_key_eq. split; intros [H|H]; auto.
Qed.

Lemma list_in_not_In (x : K) (xs : list K) : list_in x xs = false <-> ~ In x xs.
Proof.
  rewrite <- list_in_In. destruct (list_in x xs); split; congruence.
Qed.

Lemma list_in_app (x : K) (xs ys : list K) :
  list_in x (xs ++ ys) = list_in x xs || list_in x ys.
Proof.
  induction xs as [|y xs IH]; simpl; [reflexivity|].
  now rewrite IH, orb_assoc.
Qed.

(** *** Dictionaries *)

Section Dict.
Context {V : Type}.
Implicit Types (d : dict K V) (k : K) (v : V).

Lemma dict_get_In d k v : dict_get d k = Some v -> In (k, v) d.
Proof.
  induction d as [|[k' v'] d IH]; simpl; [discriminate|].
  destruct (eqb_key k k') eqn:Hk.
  - apply eqb_key_eq in Hk as ->. intros [= ->]. now left.
  - intros H. right. now apply IH.
Qed.

Lemma dict_get_None d k : dict_get d k = None <-> ~ In k (dict_keys d).
Proof.
  induction d as [|[k' v'] d IH]; simpl; [tauto|].
  destruct (eqb_key k k') eqn:Hk.
  - apply eqb_key_eq in Hk as ->. split; [discriminate | tauto].
  - apply eqb_key_neq in Hk. rewrite IH. split.
    + intros H [H'|H']; [congruence | contradiction].
    + tauto.
Qed.

Lemma dict_contains_In d k : dict_contains d k = true <-> In k (dict_keys d).
Proof.
  unfold dict_contains. destruct (dict_get d k) eqn:H.
  - split; [|reflexivity]. intros _. apply dict_get_In in H.
    apply in_map_iff. now exists (k, v).
  - apply dict_get_None in H. split; [discriminate | contradiction].
Qed.

Lemma dict_contains_list_in d k : dict_contains d k = list_in k (dict_keys d).
Proof.
  destruct (list_in k (dict_keys d)) eqn:H.
  - now apply dict_contains_In, list_in_In.
  - apply list_in_not_In in H. rewrite <- dict_contains_In in H.
    now destruct (dict_contains d k).
Qed.

Lemma In_dict_get d k v :
  NoDup (dict_keys d) -> In (k, v) d -> dict_get d k = Some v.
Proof.
  induction d as [|[k' v'] d IH]; simpl; [tauto|].
  intros Hnd [H|H].
  - injection H as -> ->. now rewrite eqb_key_refl.
  - inversion Hnd as [|? ? Hk' Hnd']; subst.
    destruct (eqb_key k k') eqn:Hk.
    + apply eqb_key_eq in Hk as ->. exfalso. apply Hk'.
      apply in_map_iff. now exists (k', v).
    + now apply IH.
Qed.

Lemma dict_get_setitem_eq d k v : dict_get (dict_setitem d k v) k = Some v.
Proof.
  induction d as [|[k' v'] d IH]; simpl.
  - now rewrite eqb_key_refl.
  - destruct (eqb_key k k') eqn:Hk; simpl; rewrite Hk; [reflexivity | exact IH].
Qed.

Lemma dict_get_setitem_neq d k k' v :
  k <> k' -> dict_get (dict_setitem d k v) k' = dict_get d k'.
Proof.
  intros Hne. induction d as [|[k0 v0] d IH]; simpl.
  - assert (eqb_key k' k = false) as -> by (apply eqb_key_neq; congruence).
    reflexivity.
  - destruct (eqb_key k k0) eqn:Hk; simpl.
    + apply eqb_key_eq in Hk as ->.
      assert (eqb_key k' k0 = false) as -> by (apply eqb_key_neq; congruence).
      reflexivity.
    + now rewrite IH.
Qed.

Lemma dict_setitem_same d k v : dict_get d k = Some v -> dict_setitem d k v = d.
Proof.
  induction d as [|[k' v'] d IH]; simpl; [discriminate|].
  destruct (eqb_key k k'); [now intros [= ->] | intros H; now rewrite IH].
Qed.

Lemma dict_keys_setitem d k v :
  dict_keys (dict_setitem d k v) =
  if dict_contains d k then dict_keys d else dict_keys d ++ [k].
Proof.
  unfold dict_contains.
  induction d as [|[k' v'] d IH]; simpl; [reflexivity|].
  destruct (eqb_key k k') eqn:Hk; simpl; [reflexivity|].
  rewrite IH. now destruct (dict_get d k).
Qed.

Lemma dict_setitem_twice d k v v' :
  dict_setitem (dict_setitem d k v) k v' = dict_setitem d k v'.
Proof.
  induction d as [|[k0 v0] d IH]; simpl.
  - now rewrite eqb_key_refl.
  - destruct (eqb_key k k0) eqn:Hk; simpl; rewrite Hk; [reflexivity | now rewrite IH].
Qed.

Lemma dict_setitem_new d k v : dict_get d k = None -> dict_setitem d k v = d ++ [(k, v)].
Proof.
  induction d as [|[k' v'] d IH]; simpl; [reflexivity|].
  destruct (eqb_key k k'); [discriminate | intros H; now rewrite IH].
Qed.

Lemma dict_get_app_new d k k' v :
  dict_get d k = None -> dict_get (d ++ [(k, v)]) k' =
  if eqb_key k' k then Some v else dict_get d k'.
Proof.
  intros Hk. induction d as [|[k0 v0] d IH]; simpl in *; [reflexivity|].
  destruct (eqb_key k k0) eqn:Hk0; [discriminate|].
  destruct (eqb_key k' k0) eqn:Hk'0.
  - apply eqb_key_eq in Hk'0 as ->.
    rewrite eqb_key_sym in Hk0. now rewrite Hk0.
  - now apply IH.
Qed.

Lemma NoDup_keys_setitem d k v :
  NoDup (dict_keys d) -> NoDup (dict_keys (dict_setitem d k v)).
Proof.
  intros Hnd. rewrite dict_keys_setitem.
  destruct (dict_contains d k) eqn:Hc; [exact Hnd|].
  apply NoDup_app; [exact Hnd | repeat constructor; simpl; tauto |].
  intros x Hx [<-|[]]. apply dict_contains_In in Hx. congruence.
Qed.

Lemma In_setitem d k v k' v' :
  In (k', v') (dict_setitem d k v) -> (k' = k /\ v' = v) \/ In (k', v') d.
Proof.
  induction d as [|[k0 v0] d IH]; simpl.
  - intros [[= <- <-]|[]]. now left.
  - destruct (eqb_key k k0) eqn:Hk; simpl.
    + apply eqb_key_eq in Hk as ->.
      intros [[= <- <-]|H]; [now left | right; now right].
    + intros [H|H]; [right; now left|].
      destruct (IH H) as [?|?]; [now left | right; now right].
Qed.

End Dict.
End Keys.

(* ================================================================== *)
(** ** Strings *)

Section Strings.
Local Open Scope string_scope.

Lemma append_empty_r (s : string) : s ++ "" = s.
Proof. induction s as [|c s IH]; simpl; congruence. Qed.

Lemma append_assoc (s t u : string) : (s ++ t) ++ u = s ++ (t ++ u).
Proof. induction s as [|c s IH]; simpl; congruence. Qed.

Lemma append_char (p : string) (c : ascii) (s : string) :
  (p ++ String c "") ++ s = p ++ String c s.
Proof. now rewrite append_assoc. Qed.

Lemma append_inv_head (p s t : string) : p ++ s = p ++ t -> s = t.
Proof. induction p as [|c p IH]; simpl; [tauto | intros [= H]; auto]. Qed.

Lemma length_append (s t : string) :
  String.length (s ++ t) = String.length s + String.length t.
Proof. induction s as [|c s IH]; simpl; congruence. Qed.

Lemma append_cons_neq (p : string) (c : ascii) (s : string) : p ++ String c s <> p.
Proof.
  intros H. apply (f_equal String.length) in H.
  rewrite length_append in H. simpl in H. lia.
Qed.

Lemma startswith_iff (s p : string) :
  startswith s p = true <-> exists r, s = p ++ r.
Proof.
  revert s. induction p as [|c p IH]; intros s; simpl.
  - split; [intros _; now exists s | intros _; reflexivity].
  - destruct s as [|d s].
    + split; [discriminate | intros [r [=]]].
    + rewrite andb_true_iff, Ascii.eqb_eq, IH. split.
      * intros [-> [r ->]]. now exists r.
      * intros [r [= -> ->]]. split; [reflexivity | now exists r].
Qed.

Lemma startswith_refl (s : string) : startswith s s = true.
Proof. apply startswith_iff. exists "". now rewrite append_empty_r. Qed.

Lemma startswith_empty (s : string) : startswith s "" = true.
Proof. reflexivity. Qed.

Lemma str_from_append (p r : string) : str_from (p ++ r) (String.length p) = r.
Proof. induction p as [|c p IH]; simpl; [now destruct r | exact IH]. Qed.

End Strings.

(* ================================================================== *)
(** ** The prefix tree *)

Section Trie.
Local Open Scope string_scope.
Import PrefixTree.

(** Induction on a node with the hypothesis for every child. *)
Lemma node_induction (P : PrefixTreeNode -> Prop) :
  (forall cs e, Forall (fun item => P (snd item)) cs -> P (Node cs e)) ->
  forall node, P node.
Proof.
  intros step.
  refine (fix go (node : PrefixTreeNode) : P node :=
            match node with
            | Node cs e =>
                step cs e
                  ((fix all (l : list (ascii * PrefixTreeNode)) :
                      Forall (fun item => P (snd item)) l :=
                      match l with
                      | [] => Forall_nil _
                      | item :: l' => Forall_cons item (go (snd item)) (all l')
                      end) cs)
            end).
Qed.

Lemma descend_cons (node : PrefixTreeNode) (c : ascii) (rest : string) :
  descend node (String c rest) =
  match dict_get (children node) c with
  | Some child => descend child rest
  | None => None
  end.
Proof.
  simpl. unfold dict_contains. now destruct (dict_get (children node) c).
Qed.

Lemma stored_empty (node : PrefixTreeNode) : stored node "" = is_end_of_word node.
Proof. reflexivity. Qed.

Lemma stored_cons (node : PrefixTreeNode) (c : ascii) (rest : string) :
  stored node (String c rest) =
  match dict_get (children node) c with
  | Some child => stored child rest
  | None => false
  end.
Proof.
  unfold stored. rewrite descend_cons. now destruct (dict_get (children node) c).
Qed.

Lemma stored_new_node (s : string) : stored new_node s = false.
Proof. destruct s; reflexivity. Qed.

Lemma stored_append (node : PrefixTreeNode) (p s : string) :
  stored node (p ++ s) =
  match descend node p with
  | Some n => stored n s
  | None => false
  end.
Proof.
  revert node. induction p as [|c p IH]; intros node.
  - reflexivity.
  - change (String c p ++ s) with (String c (p ++ s)).
    rewrite stored_cons, descend_cons.
    destruct (dict_get (children node) c); [apply IH | reflexivity].
Qed.

(** The child the insertion loop steps into. *)
Lemma insert_from_cons (node : PrefixTreeNode) (c : ascii) (rest : string) :
  insert_from node (String c rest) =
  let child :=
    match dict_get (children node) c with
    | Some child => child
    | None => new_node
    end in
  Node (dict_setitem (children node) c (insert_from child rest)) (is_end_of_word node).
Proof.
  simpl. unfold dict_contains.
  destruct (dict_get (children node) c) as [child|] eqn:Hget; simpl.
  - now rewrite Hget.
  - rewrite dict_get_setitem_eq. now rewrite dict_setitem_twice.
Qed.

Lemma stored_insert_from (word : string) :
  forall node s, stored (insert_from node word) s = String.eqb s word || stored node s.
Proof.
  induction word as [|c word IH]; intros node s.
  - destruct node as [cs e]. destruct s as [|d s]; simpl; [reflexivity|].
    now rewrite !stored_cons.
  - rewrite insert_from_cons. cbv zeta. destruct s as [|d s].
    + reflexivity.
    + rewrite !stored_cons. simpl children. simpl String.eqb.
      destruct (Ascii.eqb d c) eqn:Hdc.
      * apply Ascii.eqb_eq in Hdc as ->. rewrite dict_get_setitem_eq, IH.
        destruct (dict_get (children node) c); [reflexivity|].
        now rewrite stored_new_node.
      * apply Ascii.eqb_neq in Hdc.
        rewrite dict_get_setitem_neq by congruence. reflexivity.
Qed.

Lemma distinct_new_node : distinct_children new_node.
Proof. constructor; [constructor | intros c child []]. Qed.

Lemma distinct_insert_from (word : string) :
  forall node, distinct_children node -> distinct_children (insert_from node word).
Proof.
  induction word as [|c word IH]; intros node Hd.
  - destruct Hd as [cs e Hnd Hch]. simpl. now constructor.
  - rewrite insert_from_cons. cbv zeta.
    destruct Hd as [cs e Hnd Hch]. simpl children. simpl is_end_of_word.
    constructor.
    + now apply NoDup_keys_setitem.
    + intros c' child' Hin. apply In_setitem in Hin as [[-> ->]|Hin].
      * apply IH. destruct (dict_get cs c) as [child|] eqn:Hget.
        -- apply dict_get_In in Hget. eauto.
        -- apply distinct_new_node.
      * eauto.
Qed.

Lemma distinct_descend (p : string) :
  forall node n, distinct_children node -> descend node p = Some n -> distinct_children n.
Proof.
  induction p as [|c p IH]; intros node n Hd.
  - simpl. now intros [= <-].
  - rewrite descend_cons. destruct (dict_get (children node) c) as [child|] eqn:Hget;
      [|discriminate].
    apply IH. destruct Hd as [cs e Hnd Hch]. apply dict_get_In in Hget. eauto.
Qed.

(** *** The traversal *)

(** The words below a node, in traversal order. *)
Lemma collect_words_acc :
  forall node prefix results,
    _collect_words node prefix results = (results ++ _collect_words node prefix [])%list.
Proof.
  induction node as [cs e IH] using node_induction. intros prefix results. simpl.
  assert (Hfold : forall acc,
    fold_left
      (fun res (item : ascii * PrefixTreeNode) =>
         _collect_words (snd item) (prefix ++ String (fst item) "") res) cs acc =
    (acc ++
     flat_map (fun item => _collect_words (snd item) (prefix ++ String (fst item) "") []) cs)%list).
  { induction IH as [|item cs Hitem _ IHcs]; intros acc; simpl.
    - now rewrite app_nil_r.
    - rewrite IHcs, Hitem. now rewrite <- app_assoc. }
  rewrite !Hfold. destruct e; simpl; [|reflexivity].
  now rewrite <- app_assoc.
Qed.

Lemma collect_words_node cs e prefix :
  _collect_words (Node cs e) prefix [] =
  ((if e then [prefix] else []) ++
   flat_map (fun item => _collect_words (snd item) (prefix ++ String (fst item) "") []) cs)%list.
Proof.
  assert (Hfold : forall acc,
    fold_left
      (fun res (item : ascii * PrefixTreeNode) =>
         _collect_words (snd item) (prefix ++ String (fst item) "") res) cs acc =
    (acc ++
     flat_map (fun item => _collect_words (snd item) (prefix ++ String (fst item) "") []) cs)%list).
  { induction cs as [|item cs IHcs]; intros acc; simpl.
    - now rewrite app_nil_r.
    - rewrite IHcs, collect_words_acc. now rewrite <- app_assoc. }
  simpl. rewrite Hfold. destruct e; reflexivity.
Qed.

Lemma In_collect_words :
  forall node prefix w,
    distinct_children node ->
    (In w (_collect_words node prefix []) <->
     exists s, w = prefix ++ s /\ stored node s = true).
Proof.
  induction node as [cs e IH] using node_induction. intros prefix w Hd.
  inversion Hd as [cs' e' Hnd Hch]; subst.
  rewrite collect_words_node, in_app_iff, in_flat_map.
  rewrite Forall_forall in IH. split.
  - intros [Hw|[[c child] [Hin Hw]]].
    + destruct e; [|contradiction]. destruct Hw as [<-|[]].
      exists "". now rewrite append_empty_r.
    + simpl in Hw. apply (IH _ Hin) in Hw; [|eauto].
      destruct Hw as [s [-> Hs]]. exists (String c s). split.
      * apply append_char.
      * rewrite stored_cons. simpl. now rewrite (In_dict_get _ _ _ Hnd Hin).
  - intros [[|c s] [-> Hs]].
    + left. rewrite stored_empty in Hs. simpl in Hs. subst e.
      left. now rewrite append_empty_r.
    + right. rewrite stored_cons in Hs. simpl in Hs.
      destruct (dict_get cs c) as [child|] eqn:Hget; [|discriminate].
      apply dict_get_In in Hget. exists (c, child). split; [exact Hget|].
      simpl. apply (IH _ Hget); [eauto|]. exists s. split; [|exact Hs].
      symmetry. apply append_char.
Qed.

Lemma NoDup_collect_words :
  forall node prefix,
    distinct_children node -> NoDup (_collect_words node prefix []).
Proof.
  induction node as [cs e IH] using node_induction. intros prefix Hd.
  inversion Hd as [cs' e' Hnd Hch]; subst.
  rewrite collect_words_node. rewrite Forall_forall in IH.
  assert (Hbelow : forall c child w,
            In (c, child) cs ->
            In w (_collect_words child (prefix ++ String c "") []) ->
            exists s, w = prefix ++ String c s).
  { intros c child w Hin Hw. apply In_collect_words in Hw; [|eauto].
    destruct Hw as [s [-> _]]. exists s. apply append_char. }
  apply NoDup_app.
  - destruct e; repeat constructor; simpl; tauto.
  - clear Hd. induction cs as [|[c child] cs IHcs]; simpl; [constructor|].
    inversion Hnd as [|? ? Hc Hnd']; subst.
    apply NoDup_app.
    + apply (IH (c, child)); [now left | apply (Hch c child); now left].
    + apply IHcs.
      * intros item Hitem. apply IH. now right.
      * exact Hnd'.
      * intros c0 child0 Hin0. apply (Hch c0 child0). now right.
      * intros c0 child0 w Hin0. apply Hbelow. now right.
    + intros w Hw Hw'. apply in_flat_map in Hw' as [[c' child'] [Hin' Hw']].
      destruct (Hbelow c child w (or_introl eq_refl) Hw) as [s Hs].
      destruct (Hbelow c' child' w (or_intror Hin') Hw') as [s' Hs'].
      rewrite Hs in Hs'. apply append_inv_head in Hs'. injection Hs' as -> _.
      apply Hc. apply in_map_iff. now exists (c', child').
  - intros w Hw Hw'. destruct e; [|contradiction]. destruct Hw as [<-|[]].
    apply in_flat_map in Hw' as [[c child] [Hin Hw']].
    destruct (Hbelow c child prefix Hin Hw') as [s Hs].
    symmetry in Hs. now apply append_cons_neq in Hs.
Qed.

(** *** The tree the constructor builds *)

Lemma stored_fold_insert (ws : list string) :
  forall tree s,
    stored (root (fold_left _insert ws tree)) s = list_in s ws || stored (root tree) s.
Proof.
  induction ws as [|w ws IH]; intros tree s; simpl; [reflexivity|].
  rewrite IH. simpl. rewrite stored_insert_from.
  unfold eqb_key, string_EqKey. now rewrite orb_assoc, (orb_comm (list_in s ws)).
Qed.

Lemma distinct_fold_insert (ws : list string) :
  forall tree,
    distinct_children (root tree) -> distinct_children (root (fold_left _insert ws tree)).
Proof.
  induction ws as [|w ws IH]; intros tree Hd; simpl; [exact Hd|].
  apply IH. simpl. now apply distinct_insert_from.
Qed.

Lemma stored_init (order : list string) (s : string) :
  stored (root (init order)) s = list_in s order.
Proof.
  unfold init. rewrite stored_fold_insert. simpl. rewrite stored_new_node.
  apply orb_false_r.
Qed.

Lemma distinct_init (order : list string) : distinct_children (root (init order)).
Proof. apply distinct_fold_insert. apply distinct_new_node. Qed.

(** What [search_prefix] returns on a built tree. *)
Lemma In_search_prefix (order : list string) (p w : string) :
  In w (search_prefix (init order) p) <-> In w order /\ startswith w p = true.
Proof.
  unfold search_prefix, search_prefix_st.
  rewrite startswith_iff, <- (list_in_In w order).
  destruct (descend (root (init order)) p) as [node|] eqn:Hdesc; simpl.
  - rewrite In_collect_words
      by (eapply distinct_descend; [apply distinct_init | exact Hdesc]).
    split.
    + intros [s [-> Hs]]. split; [|now exists s].
      rewrite <- stored_init, stored_append, Hdesc. exact Hs.
    + intros [Hw [s ->]]. exists s. split; [reflexivity|].
      rewrite <- stored_init, stored_append, Hdesc in Hw. exact Hw.
  - split; [contradiction|]. intros [Hw [s ->]].
    rewrite <- stored_init, stored_append, Hdesc in Hw. discriminate.
Qed.

Lemma NoDup_search_prefix (order : list string) (p : string) :
  NoDup (search_prefix (init order) p).
Proof.
  unfold search_prefix, search_prefix_st.
  destruct (descend (root (init order)) p) as [node|] eqn:Hdesc; simpl.
  - apply NoDup_collect_words.
    eapply distinct_descend; [apply distinct_init | exact Hdesc].
  - constructor.
Qed.

End Trie.

(* ================================================================== *)
(** ** Counters *)

Lemma fold_left_add (zs : list Z) (a : Z) : fold_left Z.add zs a = (a + sum_Z zs)%Z.
Proof.
  unfold sum_Z. revert a. induction zs as [|z zs IH]; intros a; simpl.
  - lia.
  - rewrite IH, (IH z). lia.
Qed.

Lemma sum_Z_cons (z : Z) (zs : list Z) : sum_Z (z :: zs) = (z + sum_Z zs)%Z.
Proof. unfold sum_Z at 1. simpl. now rewrite fold_left_add. Qed.

Lemma sum_Z_app (xs ys : list Z) : sum_Z (xs ++ ys) = (sum_Z xs + sum_Z ys)%Z.
Proof.
  induction xs as [|x xs IH]; simpl; [reflexivity|].
  rewrite !sum_Z_cons, IH. lia.
Qed.

Section Counters.
Context {K : Type} {E : EqKey K} {O : EqKeyOk K}.
Implicit Types (c : Counter K) (k : K).

Lemma counter_getitem_frame c k : snd (counter_getitem c k) = c.
Proof. unfold counter_getitem. now destruct (dict_get c k). Qed.

Lemma counter_count_unfold c k :
  counter_count c k = match dict_get c k with Some v => v | None => 0%Z end.
Proof. unfold counter_count, counter_getitem. now destruct (dict_get c k). Qed.

Lemma counter_incr_unfold c k :
  counter_incr c k = dict_setitem c k (counter_count c k + 1)%Z.
Proof.
  unfold counter_incr, counter_count, counter_getitem.
  now destruct (dict_get c k).
Qed.

Lemma counter_count_In c k v :
  NoDup (dict_keys c) -> In (k, v) c -> counter_count c k = v.
Proof.
  intros Hnd Hin. unfold counter_count, counter_getitem.
  now rewrite (In_dict_get _ _ _ Hnd Hin).
Qed.

Lemma counter_count_absent c k : ~ In k (dict_keys c) -> counter_count c k = 0%Z.
Proof.
  intros H. apply dict_get_None in H. unfold counter_count, counter_getitem.
  now rewrite H.
Qed.

Lemma counter_count_incr_eq c k :
  counter_count (counter_incr c k) k = (counter_count c k + 1)%Z.
Proof.
  rewrite counter_incr_unfold. unfold counter_count at 1, counter_getitem.
  now rewrite dict_get_setitem_eq.
Qed.

Lemma counter_count_incr_neq c k k' :
  k <> k' -> counter_count (counter_incr c k) k' = counter_count c k'.
Proof.
  intros Hne. rewrite counter_incr_unfold. unfold counter_count at 1 3, counter_getitem.
  rewrite dict_get_setitem_neq by exact Hne.
  now destruct (dict_get c k').
Qed.

Lemma dict_keys_incr c k :
  dict_keys (counter_incr c k) =
  if list_in k (dict_keys c) then dict_keys c else dict_keys c ++ [k].
Proof.
  rewrite counter_incr_unfold, dict_keys_setitem. now rewrite dict_contains_list_in.
Qed.

Lemma sum_values_setitem (d : Counter K) k (v : Z) :
  sum_Z (dict_values (dict_setitem d k v)) =
  (sum_Z (dict_values d) - counter_count d k + v)%Z.
Proof.
  unfold counter_count, counter_getitem.
  induction d as [|[k' v'] d IH]; simpl.
  - rewrite sum_Z_cons. unfold sum_Z. simpl. lia.
  - destruct (eqb_key k k') eqn:Hk; simpl; rewrite !sum_Z_cons.
    + lia.
    + rewrite IH. destruct (dict_get d k); simpl; lia.
Qed.

Lemma sum_values_incr c k :
  sum_Z (dict_values (counter_incr c k)) = (sum_Z (dict_values c) + 1)%Z.
Proof. rewrite counter_incr_unfold, sum_values_setitem. lia. Qed.

Lemma values_count c : NoDup (dict_keys c) -> map (counter_count c) (dict_keys c) = dict_values c.
Proof.
  intros Hnd. unfold dict_keys, dict_values. rewrite map_map.
  apply map_ext_in. intros [k v] Hin. simpl. now apply counter_count_In.
Qed.

(** *** Counting a list *)

Lemma first_seen_snoc (xs : list K) (x : K) :
  first_seen (xs ++ [x]) =
  if list_in x (first_seen xs) then first_seen xs else first_seen xs ++ [x].
Proof. unfold first_seen. now rewrite fold_left_app. Qed.

Lemma In_first_seen (xs : list K) (x : K) : In x (first_seen xs) <-> In x xs.
Proof.
  induction xs as [|y xs IH] using rev_ind.
  - reflexivity.
  - rewrite first_seen_snoc, in_app_iff.
    destruct (list_in y (first_seen xs)) eqn:Hy.
    + apply list_in_In in Hy. split.
      * intros H. left. now apply IH.
      * intros [H|[<-|[]]]; [now apply IH | exact Hy].
    + rewrite in_app_iff, IH. reflexivity.
Qed.

Lemma NoDup_first_seen (xs : list K) : NoDup (first_seen xs).
Proof.
  induction xs as [|y xs IH] using rev_ind.
  - constructor.
  - rewrite first_seen_snoc. destruct (list_in y (first_seen xs)) eqn:Hy; [exact IH|].
    apply list_in_not_In in Hy. apply NoDup_app; [exact IH | |].
    + repeat constructor. simpl. tauto.
    + intros a Ha [<-|[]]. contradiction.
Qed.

Lemma occurrences_snoc k (xs : list K) (x : K) :
  occurrences k (xs ++ [x]) = occurrences k xs + (if eqb_key k x then 1 else 0).
Proof.
  unfold occurrences. rewrite filter_app, length_app. simpl.
  now destruct (eqb_key k x).
Qed.

Lemma occurrences_pos k (xs : list K) : In k xs <-> 0 < occurrences k xs.
Proof.
  unfold occurrences. induction xs as [|x xs IH]; simpl.
  - split; [tauto | lia].
  - destruct (eqb_key k x) eqn:Hk; simpl.
    + apply eqb_key_eq in Hk as ->. split; [lia | now left].
    + apply eqb_key_neq in Hk. rewrite <- IH. split; [intros [?|?] | ]; auto.
      congruence.
Qed.

Lemma tally_snoc (xs : list K) (x : K) : tally (xs ++ [x]) = counter_incr (tally xs) x.
Proof. unfold tally, counter_update. now rewrite fold_left_app. Qed.

Lemma counter_update_tally (xs ys : list K) :
  counter_update (tally xs) ys = tally (xs ++ ys).
Proof. unfold tally, counter_update. now rewrite fold_left_app. Qed.

Lemma dict_keys_tally (xs : list K) : dict_keys (tally xs) = first_seen xs.
Proof.
  induction xs as [|x xs IH] using rev_ind.
  - reflexivity.
  - now rewrite tally_snoc, dict_keys_incr, first_seen_snoc, IH.
Qed.

Lemma NoDup_keys_tally (xs : list K) : NoDup (dict_keys (tally xs)).
Proof. rewrite dict_keys_tally. apply NoDup_first_seen. Qed.

Lemma counter_count_tally (xs : list K) k :
  counter_count (tally xs) k = Z.of_nat (occurrences k xs).
Proof.
  induction xs as [|x xs IH] using rev_ind.
  - reflexivity.
  - rewrite tally_snoc, occurrences_snoc. destruct (eqb_key k x) eqn:Hk.
    + apply eqb_key_eq in Hk as ->. rewrite counter_count_incr_eq, IH. lia.
    + apply eqb_key_neq in Hk. rewrite counter_count_incr_neq by congruence.
      rewrite IH. lia.
Qed.

Lemma sum_values_tally (xs : list K) :
  sum_Z (dict_values (tally xs)) = Z.of_nat (List.length xs).
Proof.
  induction xs as [|x xs IH] using rev_ind.
  - reflexivity.
  - rewrite tally_snoc, sum_values_incr, IH, length_app. simpl. lia.
Qed.

Lemma tally_positive (xs : list K) k v : In (k, v) (tally xs) -> (1 <= v)%Z.
Proof.
  intros Hin. rewrite <- (counter_count_In _ _ _ (NoDup_keys_tally xs) Hin).
  rewrite counter_count_tally.
  assert (In k xs) as Hk.
  { apply In_first_seen. rewrite <- dict_keys_tally.
    apply in_map_iff. now exists (k, v). }
  apply occurrences_pos in Hk. lia.
Qed.

End Counters.

Lemma sum_Z_positive (zs : list Z) :
  (forall z, In z zs -> (1 <= z)%Z) -> (Z.of_nat (List.length zs) <= sum_Z zs)%Z.
Proof.
  induction zs as [|z zs IH]; intros H; simpl.
  - unfold sum_Z. simpl. lia.
  - rewrite sum_Z_cons. specialize (H z (or_introl eq_refl)) as Hz.
    assert (Z.of_nat (List.length zs) <= sum_Z zs)%Z by (apply IH; intros; apply H; now right).
    lia.
Qed.

(* ================================================================== *)
(** ** The word completor *)

Section Completor.
Import WordCompletor.

Lemma search_prefix_st_frame (tree : PrefixTree.t) (p : string) :
  snd (PrefixTree.search_prefix_st tree p) = tree.
Proof.
  unfold PrefixTree.search_prefix_st.
  now destruct (PrefixTree.descend (PrefixTree.root tree) p).
Qed.

Lemma probs_st_frame (counts : Counter string) (total : Z) (words : list string) :
  snd (probs_st counts total words) = counts.
Proof.
  induction words as [|w ws IH]; simpl; [reflexivity|].
  unfold counter_getitem.
  destruct (dict_get counts w); destruct (truediv _ total); simpl; try reflexivity;
    destruct (probs_st counts total ws); simpl in *; congruence.
Qed.

Lemma probs_st_value (counts : Counter string) (total : Z) (words : list string) :
  total <> 0%Z ->
  fst (probs_st counts total words) =
  Ok (map (fun w => (inject_Z (counter_count counts w) / inject_Z total)%Q) words).
Proof.
  intros Ht. induction words as [|w ws IH]; simpl; [reflexivity|].
  rewrite counter_count_unfold. unfold counter_getitem, truediv.
  apply Z.eqb_neq in Ht. rewrite Ht.
  pose proof (probs_st_frame counts total ws) as Hf.
  destruct (dict_get counts w); destruct (probs_st counts total ws) as [r c];
    simpl in *; subst; reflexivity.
Qed.

Lemma get_words_and_probs_st_frame (self : t) (prefix : string) :
  snd (get_words_and_probs_st self prefix) = self.
Proof.
  unfold get_words_and_probs_st. destruct self as [cnt tot tree].
  cbn [counter total_count prefix_tree].
  assert (Htail : forall words,
    snd (if match words with [] => true | _ => false end || (tot =? 0)%Z
         then (Ok ([], []), {| counter := cnt; total_count := tot; prefix_tree := tree |})
         else
           let '(r, c) := probs_st cnt tot words in
           (probs <- r ;; Ok (words, probs),
            {| counter := c; total_count := tot; prefix_tree := tree |})) =
    {| counter := cnt; total_count := tot; prefix_tree := tree |}).
  { intros words.
    destruct (match words with [] => true | _ => false end || (tot =? 0)%Z);
      [reflexivity|].
    pose proof (probs_st_frame cnt tot words) as Hf.
    destruct (probs_st cnt tot words). simpl in *. now subst. }
  destruct prefix as [|ch rest].
  - apply Htail.
  - pose proof (search_prefix_st_frame tree (String ch rest)) as Hs.
    destruct (PrefixTree.search_prefix_st tree (String ch rest)) as [ws tree'].
    simpl in Hs. subst tree'. cbn [counter total_count prefix_tree]. apply Htail.
Qed.

(** The words a query looks at. *)
Lemma get_words_and_probs_value (self : t) (prefix : string) :
  let words :=
    match prefix with
    | EmptyString => dict_keys (counter self)
    | _ => PrefixTree.search_prefix (prefix_tree self) prefix
    end in
  get_words_and_probs self prefix =
  if match words with [] => true | _ => false end || (total_count self =? 0)%Z
  then Ok ([], [])
  else Ok (words,
           map (fun w => (inject_Z (counter_count (counter self) w)
                          / inject_Z (total_count self))%Q) words).
Proof.
  unfold get_words_and_probs, get_words_and_probs_st, PrefixTree.search_prefix.
  destruct self as [cnt tot tree]. cbn [counter total_count prefix_tree].
  assert (Htail : forall words,
    fst (if match words with [] => true | _ => false end || (tot =? 0)%Z
         then (Ok ([], []), {| counter := cnt; total_count := tot; prefix_tree := tree |})
         else
           let '(r, c) := probs_st cnt tot words in
           (probs <- r ;; Ok (words, probs),
            {| counter := c; total_count := tot; prefix_tree := tree |})) =
    if match words with [] => true | _ => false end || (tot =? 0)%Z
    then Ok ([], [])
    else Ok (words,
             map (fun w => (inject_Z (counter_count cnt w) / inject_Z tot)%Q) words)).
  { intros words.
    destruct (match words with [] => true | _ => false end || (tot =? 0)%Z) eqn:Hc;
      [reflexivity|].
    apply orb_false_iff in Hc as [_ Ht]. apply Z.eqb_neq in Ht.
    pose proof (probs_st_value cnt tot words Ht) as Hv.
    destruct (probs_st cnt tot words). simpl in *. now subst. }
  destruct prefix as [|ch rest].
  - apply Htail.
  - pose proof (search_prefix_st_frame tree (String ch rest)) as Hs.
    destruct (PrefixTree.search_prefix_st tree (String ch rest)) as [ws tree'].
    simpl in Hs. subst tree'. cbn [counter total_count prefix_tree fst]. apply Htail.
Qed.

(** *** What the constructor establishes *)

Lemma fold_counter_update (corpus : list (list string)) (c : Counter string) :
  fold_left counter_update corpus c = counter_update c (List.concat corpus).
Proof.
  revert c. induction corpus as [|doc corpus IH]; intros c; simpl; [reflexivity|].
  rewrite IH. unfold counter_update. now rewrite fold_left_app.
Qed.

Lemma NoDup_keys_filter {V : Type} (f : string * V -> bool) (d : dict string V) :
  NoDup (dict_keys d) -> NoDup (dict_keys (filter f d)).
Proof.
  unfold dict_keys. induction d as [|[k v] d IH]; simpl; intros Hnd; [constructor|].
  inversion Hnd as [|? ? Hk Hnd']; subst.
  destruct (f (k, v)); simpl; [|now apply IH].
  constructor; [|now apply IH].
  intros Hin. apply Hk. apply in_map_iff in Hin as [[k' v'] [Hk' Hin]].
  apply filter_In in Hin as [Hin _]. apply in_map_iff. now exists (k', v').
Qed.

Lemma init_counter (corpus : list (list string)) (min_freq : Z) (order : list string) :
  counter (init corpus min_freq order) =
  if (1 <? min_freq)%Z
  then filter (fun wc : string * Z => (min_freq <=? snd wc)%Z) (tally (List.concat corpus))
  else tally (List.concat corpus).
Proof. unfold init. simpl. now rewrite fold_counter_update. Qed.

Lemma init_NoDup_keys corpus min_freq order :
  NoDup (dict_keys (counter (init corpus min_freq order))).
Proof.
  rewrite init_counter. destruct (1 <? min_freq)%Z.
  - apply NoDup_keys_filter. apply NoDup_keys_tally.
  - apply NoDup_keys_tally.
Qed.

Lemma init_positive corpus min_freq order k v :
  In (k, v) (counter (init corpus min_freq order)) -> (1 <= v)%Z.
Proof.
  rewrite init_counter. destruct (1 <? min_freq)%Z.
  - intros Hin. apply filter_In in Hin as [Hin _]. eapply tally_positive; eassumption.
  - apply tally_positive.
Qed.

Lemma init_total_count corpus min_freq order :
  total_count (init corpus min_freq order) =
  sum_Z (dict_values (counter (init corpus min_freq order))).
Proof.
  unfold init. simpl.
  match goal with |- context [match ?c with [] => _ | _ :: _ => _ end] =>
    now destruct c end.
Qed.

Lemma init_total_zero corpus min_freq order :
  total_count (init corpus min_freq order) = 0%Z ->
  counter (init corpus min_freq order) = [].
Proof.
  rewrite init_total_count. intros Hsum.
  assert (Hlen : (Z.of_nat (List.length (dict_values (counter (init corpus min_freq order))))
                  <= 0)%Z).
  { rewrite <- Hsum. apply sum_Z_positive. intros z Hz.
    unfold dict_values in Hz. apply in_map_iff in Hz as [[k v] [<- Hin]].
    eapply init_positive; eassumption. }
  unfold dict_values in Hlen. rewrite length_map in Hlen.
  destruct (counter (init corpus min_freq order)); [reflexivity | simpl in Hlen; lia].
Qed.

Lemma init_prefix_tree corpus min_freq order :
  prefix_tree (init corpus min_freq order) = PrefixTree.init order.
Proof. reflexivity. Qed.

End Completor.

(* ================================================================== *)
(** ** The n-gram model *)

Section NGram.
Import NGramLanguageModel.

Lemma fold_left_map {A B C : Type} (f : A -> B -> A) (g : C -> B) (l : list C) (a : A) :
  fold_left f (map g l) a = fold_left (fun a x => f a (g x)) l a.
Proof. revert a. induction l as [|x l IH]; intros a; simpl; [reflexivity | apply IH]. Qed.

(** *** Construction as one pass over the (window, next token) pairs *)

Lemma scan_pairs (n : Z) (tb : tables) (sent : list string) :
  (1 <= n)%Z ->
  scan n tb sent =
  fold_left (fun tb p => record tb (fst p) (snd p)) (Corpus.pairs_of (Z.to_nat n) sent) tb.
Proof.
  intros Hn. unfold scan, Corpus.pairs_of, range. rewrite fold_left_map. simpl.
  destruct sent as [|w sent]; [reflexivity|].
  cbn [orb]. destruct (Z.ltb_spec (Z.of_nat (List.length (w :: sent))) n) as [Hlt|Hge].
  - replace (List.length (w :: sent) - Z.to_nat n) with 0 by lia. reflexivity.
  - replace (Z.to_nat (Z.of_nat (List.length (w :: sent)) - n))
      with (List.length (w :: sent) - Z.to_nat n) by lia.
    reflexivity.
Qed.

Lemma fold_scan_pairs (n : Z) (corpus : list (list string)) (tb : tables) :
  (1 <= n)%Z ->
  fold_left (scan n) corpus tb =
  fold_left (fun tb p => record tb (fst p) (snd p)) (Corpus.pairs (Z.to_nat n) corpus) tb.
Proof.
  intros Hn. revert tb. induction corpus as [|sent corpus IH]; intros tb; simpl.
  - reflexivity.
  - rewrite fold_left_app, IH, scan_pairs by exact Hn. reflexivity.
Qed.

Lemma init_counted (corpus : list (list string)) (n : Z) :
  (1 <= n)%Z ->
  init corpus n =
  Ok {| n := n;
        next_counts := fst (Model.counted (Corpus.pairs (Z.to_nat n) corpus));
        context_totals := snd (Model.counted (Corpus.pairs (Z.to_nat n) corpus)) |}.
Proof.
  intros Hn. unfold init, Model.counted.
  destruct (Z.ltb_spec n 1) as [Hlt|_]; [lia|].
  rewrite fold_scan_pairs by exact Hn.
  now destruct (fold_left _ _ _).
Qed.

Lemma init_raises (corpus : list (list string)) (n : Z) :
  (n < 1)%Z -> init corpus n = Raise ValueError.
Proof.
  intros Hn. unfold init. destruct (Z.ltb_spec n 1) as [_|Hge]; [reflexivity | lia].
Qed.

Lemma init_inv (corpus : list (list string)) (n : Z) (g : t) :
  init corpus n = Ok g ->
  (1 <= n)%Z /\
  g = {| n := n;
         next_counts := fst (Model.counted (Corpus.pairs (Z.to_nat n) corpus));
         context_totals := snd (Model.counted (Corpus.pairs (Z.to_nat n) corpus)) |}.
Proof.
  intros H. destruct (Z.ltb_spec n 1) as [Hlt|Hge].
  - rewrite init_raises in H by exact Hlt. discriminate.
  - split; [exact Hge|]. rewrite init_counted in H by exact Hge. congruence.
Qed.

(** *** The tables in terms of the recorded pairs *)

Lemma counted_snoc (ps : list (list string * string)) (ctx : list string) (w : string) :
  Model.counted (ps ++ [(ctx, w)]) = record (Model.counted ps) ctx w.
Proof. unfold Model.counted. now rewrite fold_left_app. Qed.

Lemma followers_snoc (ctx : list string) ps (c : list string) (w : string) :
  Corpus.followers ctx (ps ++ [(c, w)]) =
  if eqb_key c ctx then Corpus.followers ctx ps ++ [w] else Corpus.followers ctx ps.
Proof.
  unfold Corpus.followers. rewrite filter_app, map_app. simpl.
  destruct (eqb_key c ctx); simpl; [reflexivity | apply app_nil_r].
Qed.

Lemma followers_absent (ctx : list string) ps :
  ~ In ctx (map fst ps) -> Corpus.followers ctx ps = [].
Proof.
  unfold Corpus.followers. induction ps as [|[c w] ps IH]; simpl; [reflexivity|].
  intros H. destruct (eqb_key c ctx) eqn:Hc.
  - apply eqb_key_eq in Hc. tauto.
  - apply IH. tauto.
Qed.

Lemma length_followers (ctx : list string) ps :
  List.length (Corpus.followers ctx ps) = occurrences ctx (map fst ps).
Proof.
  unfold Corpus.followers, occurrences. rewrite length_map.
  induction ps as [|[c w] ps IH]; simpl; [reflexivity|].
  rewrite (eqb_key_sym ctx c). destruct (eqb_key c ctx); simpl; congruence.
Qed.

Lemma counted_totals ps : snd (Model.counted ps) = tally (map fst ps).
Proof.
  induction ps as [|[c w] ps IH] using rev_ind; [reflexivity|].
  rewrite counted_snoc, map_app. cbn [map fst]. rewrite tally_snoc.
  unfold record. destruct (Model.counted ps) as [nc ct]. simpl in IH. subst ct.
  now destruct (defaultdict_getitem nc c).
Qed.

Lemma counted_counts ps (ctx : list string) :
  dict_get (fst (Model.counted ps)) ctx =
  if list_in ctx (map fst ps) then Some (tally (Corpus.followers ctx ps)) else None.
Proof.
  induction ps as [|[c w] ps IH] using rev_ind; [reflexivity|].
  rewrite counted_snoc, map_app, list_in_app, followers_snoc. simpl.
  rewrite orb_false_r.
  unfold record. destruct (Model.counted ps) as [nc ct]. simpl in IH.
  unfold defaultdict_getitem.
  destruct (eqb_key c ctx) eqn:Hc.
  - apply eqb_key_eq in Hc as ->. rewrite eqb_key_refl, orb_true_r.
    rewrite IH. destruct (list_in ctx (map fst ps)) eqn:Hin; simpl.
    + now rewrite dict_get_setitem_eq, tally_snoc.
    + apply list_in_not_In in Hin. rewrite dict_get_setitem_eq.
      now rewrite (followers_absent _ _ Hin).
  - rewrite eqb_key_sym in Hc. rewrite Hc, orb_false_r.
    apply eqb_key_neq in Hc.
    destruct (dict_get nc c) eqn:Hget; simpl.
    + rewrite dict_get_setitem_neq by congruence. exact IH.
    + rewrite dict_get_setitem_neq by congruence.
      rewrite (dict_get_app_new _ _ ctx _ Hget).
      apply eqb_key_neq in Hc. now rewrite Hc.
Qed.

(** *** Queries *)

Lemma get_next_st_frame (g : t) (prefix : list string) :
  snd (get_next_words_and_probs_st g prefix) = g.
Proof.
  unfold get_next_words_and_probs_st. destruct g as [k nc ct].
  cbn [n next_counts context_totals].
  destruct (Z.of_nat (List.length prefix) <? k)%Z; [reflexivity|].
  unfold dict_contains, defaultdict_getitem.
  destruct (dict_get nc (slice_from prefix (- k))) as [counts|] eqn:Hget;
    [|reflexivity].
  cbn [negb]. rewrite (surjective_pairing (counter_getitem ct _)).
  rewrite counter_getitem_frame.
  pose proof (probs_st_frame counts (fst (counter_getitem ct (slice_from prefix (- k))))
                (dict_keys counts)) as Hf.
  destruct (WordCompletor.probs_st counts _ (dict_keys counts)) as [r c].
  simpl in Hf. subst c. simpl. now rewrite (dict_setitem_same _ _ _ Hget).
Qed.

Lemma get_next_short (g : t) (prefix : list string) :
  (Z.of_nat (List.length prefix) < n g)%Z ->
  get_next_words_and_probs g prefix = Raise ValueError.
Proof.
  intros H. unfold get_next_words_and_probs, get_next_words_and_probs_st.
  destruct (Z.ltb_spec (Z.of_nat (List.length prefix)) (n g)); [reflexivity | lia].
Qed.

Lemma get_next_unseen (g : t) (prefix : list string) :
  (n g <= Z.of_nat (List.length prefix))%Z ->
  dict_get (next_counts g) (slice_from prefix (- n g)) = None ->
  get_next_words_and_probs g prefix = Ok ([], []).
Proof.
  intros H Hget. unfold get_next_words_and_probs, get_next_words_and_probs_st.
  destruct (Z.ltb_spec (Z.of_nat (List.length prefix)) (n g)); [lia|].
  unfold dict_contains. now rewrite Hget.
Qed.

Lemma get_next_seen (g : t) (prefix : list string) (counts : Counter string) :
  (n g <= Z.of_nat (List.length prefix))%Z ->
  dict_get (next_counts g) (slice_from prefix (- n g)) = Some counts ->
  Model.context_total g (slice_from prefix (- n g)) <> 0%Z ->
  get_next_words_and_probs g prefix =
  Ok (dict_keys counts,
      map (fun w => (inject_Z (counter_count counts w)
                     / inject_Z (Model.context_total g (slice_from prefix (- n g))))%Q)
        (dict_keys counts)).
Proof.
  intros H Hget Htot. unfold get_next_words_and_probs, get_next_words_and_probs_st.
  destruct (Z.ltb_spec (Z.of_nat (List.length prefix)) (n g)); [lia|].
  unfold dict_contains, defaultdict_getitem. rewrite Hget. cbn [negb].
  rewrite (surjective_pairing (counter_getitem (context_totals g) _)).
  fold (counter_count (context_totals g) (slice_from prefix (- n g))).
  fold (Model.context_total g (slice_from prefix (- n g))).
  pose proof (probs_st_value counts _ (dict_keys counts) Htot) as Hv.
  destruct (WordCompletor.probs_st counts _ (dict_keys counts)) as [r c].
  simpl in Hv. subst r. reflexivity.
Qed.

(** [prefix[-n:]] is the last [n] tokens. *)
Lemma slice_from_last {A : Type} (xs : list A) (k : Z) :
  (1 <= k <= Z.of_nat (List.length xs))%Z ->
  slice_from xs (- k) = skipn (List.length xs - Z.to_nat k) xs.
Proof.
  intros Hk. unfold slice_from.
  destruct (Z.ltb_spec (- k) 0); [|exfalso; lia].
  f_equal. lia.
Qed.

(** *** Probabilities *)

Lemma inject_Z_nonzero (t : Z) : t <> 0%Z -> ~ (inject_Z t == 0)%Q.
Proof.
  intros Ht H. unfold Qeq in H. simpl in H. lia.
Qed.

Lemma sum_Q_ratios (zs : list Z) (t : Z) :
  t <> 0%Z ->
  (sum_Q (map (fun z => inject_Z z / inject_Z t) zs) == inject_Z (sum_Z zs) / inject_Z t)%Q.
Proof.
  intros Ht. pose proof (inject_Z_nonzero t Ht) as Hq.
  induction zs as [|z zs IH]; simpl.
  - unfold sum_Z. simpl. field. exact Hq.
  - rewrite IH, sum_Z_cons, inject_Z_plus. field. exact Hq.
Qed.

Lemma sum_Q_probs (counts : Counter string) (t : Z) :
  NoDup (dict_keys counts) -> t <> 0%Z -> sum_Z (dict_values counts) = t ->
  (sum_Q (map (fun w => inject_Z (counter_count counts w) / inject_Z t) (dict_keys counts))
   == 1)%Q.
Proof.
  intros Hnd Ht Hsum.
  rewrite <- (map_map (counter_count counts) (fun z => (inject_Z z / inject_Z t)%Q)).
  rewrite values_count by exact Hnd.
  rewrite sum_Q_ratios by exact Ht. rewrite Hsum. field.
  now apply inject_Z_nonzero.
Qed.

End NGram.

(* ================================================================== *)
(** ** Counting positions of the corpus *)

Section Positions.

Lemma filter_none {A : Type} (f : A -> bool) (l : list A) :
  (forall x, In x l -> f x = false) -> filter f l = [].
Proof.
  induction l as [|x l IH]; intros H; simpl; [reflexivity|].
  rewrite (H x (or_introl eq_refl)). apply IH. intros y Hy. apply H. now right.
Qed.

Lemma filter_seq_bound (f : nat -> bool) (m n : nat) :
  m <= n -> filter (fun i => (i <? m) && f i) (seq 0 n) = filter f (seq 0 m).
Proof.
  intros Hmn. replace n with (m + (n - m)) by lia.
  rewrite seq_app, filter_app. simpl.
  rewrite (filter_none (fun i => (i <? m) && f i) (seq m (n - m))).
  - rewrite app_nil_r. apply filter_ext_in. intros i Hi. apply in_seq in Hi.
    destruct (Nat.ltb_spec i m); [reflexivity | lia].
  - intros i Hi. apply in_seq in Hi. destruct (Nat.ltb_spec i m); [lia | reflexivity].
Qed.

Lemma window_at_bound (k : nat) ctx sent (i : nat) :
  Corpus.window_at k ctx sent i =
  (i <? List.length sent - k) && eqb_key (slice sent i (i + k)) ctx.
Proof.
  unfold Corpus.window_at. f_equal.
  destruct (Nat.ltb_spec (i + k) (List.length sent));
    destruct (Nat.ltb_spec i (List.length sent - k)); try reflexivity; lia.
Qed.

Lemma followed_at_bound (k : nat) ctx (w : string) sent (i : nat) :
  Corpus.followed_at k ctx w sent i =
  (i <? List.length sent - k)
  && (eqb_key (slice sent i (i + k)) ctx && eqb_key (nth (i + k) sent EmptyString) w).
Proof.
  unfold Corpus.followed_at.
  destruct (Nat.ltb_spec i (List.length sent - k)) as [Hlt|Hge].
  - rewrite (nth_error_nth' sent EmptyString) by lia. reflexivity.
  - assert (nth_error sent (i + k) = None) as -> by (apply nth_error_None; lia).
    reflexivity.
Qed.

Lemma occurrences_app {K : Type} {E : EqKey K} (k : K) (xs ys : list K) :
  occurrences k (xs ++ ys) = occurrences k xs + occurrences k ys.
Proof. unfold occurrences. now rewrite filter_app, length_app. Qed.

Lemma followers_app ctx ps qs :
  Corpus.followers ctx (ps ++ qs) = Corpus.followers ctx ps ++ Corpus.followers ctx qs.
Proof. unfold Corpus.followers. now rewrite filter_app, map_app. Qed.

Lemma windows_of_sentence (k : nat) ctx sent :
  occurrences ctx (map fst (Corpus.pairs_of k sent)) =
  List.length (filter (Corpus.window_at k ctx sent) (seq 0 (List.length sent))).
Proof.
  rewrite (filter_ext _ _ (window_at_bound k ctx sent)).
  rewrite filter_seq_bound by lia.
  unfold Corpus.pairs_of, occurrences. rewrite map_map. simpl.
  induction (seq 0 (List.length sent - k)) as [|i l IH]; simpl; [reflexivity|].
  rewrite eqb_key_sym. destruct (eqb_key (slice sent i (i + k)) ctx); simpl; congruence.
Qed.

Lemma followers_of_sentence (k : nat) ctx (w : string) sent :
  occurrences w (Corpus.followers ctx (Corpus.pairs_of k sent)) =
  List.length (filter (Corpus.followed_at k ctx w sent) (seq 0 (List.length sent))).
Proof.
  rewrite (filter_ext _ _ (followed_at_bound k ctx w sent)).
  rewrite filter_seq_bound by lia.
  unfold Corpus.pairs_of, Corpus.followers, occurrences.
  induction (seq 0 (List.length sent - k)) as [|i l IH]; simpl; [reflexivity|].
  destruct (eqb_key (slice sent i (i + k)) ctx); simpl; [|exact IH].
  rewrite eqb_key_sym. destruct (eqb_key (nth (i + k) sent EmptyString) w); simpl; congruence.
Qed.

Lemma windows_of_corpus (k : nat) corpus ctx :
  occurrences ctx (map fst (Corpus.pairs k corpus)) = Corpus.count_window k corpus ctx.
Proof.
  unfold Corpus.pairs, Corpus.count_window.
  induction corpus as [|sent corpus IH]; simpl; [reflexivity|].
  now rewrite map_app, occurrences_app, IH, windows_of_sentence.
Qed.

Lemma followers_of_corpus (k : nat) corpus ctx (w : string) :
  occurrences w (Corpus.followers ctx (Corpus.pairs k corpus)) =
  Corpus.count_followed k corpus ctx w.
Proof.
  unfold Corpus.pairs, Corpus.count_followed.
  induction corpus as [|sent corpus IH]; simpl; [reflexivity|].
  now rewrite followers_app, occurrences_app, IH, followers_of_sentence.
Qed.

Lemma list_sum_member {A : Type} (f : A -> nat) (x : A) (l : list A) :
  In x l -> f x <= list_sum (map f l).
Proof.
  induction l as [|y l IH]; simpl; [tauto|].
  intros [->|H]; [lia | specialize (IH H); lia].
Qed.

Lemma followed_position (k : nat) corpus sent (i : nat) :
  In sent corpus -> i + k < List.length sent ->
  1 <= Corpus.count_followed k corpus (slice sent i (i + k)) (nth (i + k) sent EmptyString).
Proof.
  intros Hsent Hi. unfold Corpus.count_followed.
  set (ctx := slice sent i (i + k)). set (w := nth (i + k) sent EmptyString).
  apply Nat.le_trans
    with (List.length (filter (Corpus.followed_at k ctx w sent) (seq 0 (List.length sent))));
    [|apply (list_sum_member
               (fun s => List.length
                           (filter (Corpus.followed_at k ctx w s) (seq 0 (List.length s))))
               sent corpus Hsent)].
  subst ctx w.
  assert (Hin : In i (filter
                        (Corpus.followed_at k (slice sent i (i + k))
                           (nth (i + k) sent EmptyString) sent)
                        (seq 0 (List.length sent)))).
  { apply filter_In. split; [apply in_seq; lia|].
    unfold Corpus.followed_at. rewrite (nth_error_nth' sent EmptyString) by lia.
    now rewrite !eqb_key_refl. }
  destruct (filter _ _); [contradiction | simpl; lia].
Qed.

Lemma followed_le_window (k : nat) corpus ctx (w : string) :
  Corpus.count_followed k corpus ctx w <= Corpus.count_window k corpus ctx.
Proof.
  rewrite <- followers_of_corpus, <- windows_of_corpus, <- length_followers.
  unfold occurrences. generalize (Corpus.followers ctx (Corpus.pairs k corpus)).
  intros l. induction l as [|x l IH]; simpl; [lia|].
  destruct (eqb_key w x); simpl; lia.
Qed.

End Positions.

(** ** The tables of a built model *)

Section Built.
Import NGramLanguageModel.

Lemma built_entry corpus (k : Z) (ctx : list string) :
  dict_get (fst (Model.counted (Corpus.pairs (Z.to_nat k) corpus))) ctx =
  if 0 <? Corpus.count_window (Z.to_nat k) corpus ctx
  then Some (tally (Corpus.followers ctx (Corpus.pairs (Z.to_nat k) corpus)))
  else None.
Proof.
  rewrite counted_counts, <- windows_of_corpus.
  destruct (Nat.ltb_spec 0 (occurrences ctx (map fst (Corpus.pairs (Z.to_nat k) corpus))))
    as [Hpos|Hzero].
  - apply occurrences_pos in Hpos. apply list_in_In in Hpos. now rewrite Hpos.
  - destruct (list_in ctx _) eqn:Hin; [|reflexivity].
    apply list_in_In, occurrences_pos in Hin. lia.
Qed.

Lemma built_total corpus (k : Z) (ctx : list string) :
  counter_count (snd (Model.counted (Corpus.pairs (Z.to_nat k) corpus))) ctx =
  Z.of_nat (Corpus.count_window (Z.to_nat k) corpus ctx).
Proof. now rewrite counted_totals, counter_count_tally, windows_of_corpus. Qed.

Lemma built_sum corpus (k : Z) (ctx : list string) :
  sum_Z (dict_values (tally (Corpus.followers ctx (Corpus.pairs (Z.to_nat k) corpus)))) =
  Z.of_nat (Corpus.count_window (Z.to_nat k) corpus ctx).
Proof. now rewrite sum_values_tally, length_followers, windows_of_corpus. Qed.

(** The outcome of a query on a built model. *)
Lemma built_query corpus (k : Z) (g : t) (tokens : list string) :
  init corpus k = Ok g ->
  (k <= Z.of_nat (List.length tokens))%Z ->
  let ctx : list string := slice_from tokens (- k) in
  let counts := tally (Corpus.followers ctx (Corpus.pairs (Z.to_nat k) corpus)) in
  let total := Z.of_nat (Corpus.count_window (Z.to_nat k) corpus ctx) in
  get_next_words_and_probs g tokens =
  if 0 <? Corpus.count_window (Z.to_nat k) corpus ctx
  then Ok (dict_keys counts,
           map (fun w => (inject_Z (counter_count counts w) / inject_Z total)%Q)
             (dict_keys counts))
  else Ok ([], []).
Proof.
  intros Hinit Hlen ctx counts total. apply init_inv in Hinit as [Hk ->].
  pose proof (built_entry corpus k ctx) as Hentry.
  destruct (Nat.ltb_spec 0 (Corpus.count_window (Z.to_nat k) corpus ctx)) as [Hpos|Hzero].
  - rewrite (get_next_seen _ tokens counts); cbn [n next_counts context_totals].
    + unfold Model.context_total. cbn [context_totals]. fold ctx.
      now rewrite built_total.
    + exact Hlen.
    + exact Hentry.
    + unfold Model.context_total. cbn [context_totals]. fold ctx.
      rewrite built_total. lia.
  - apply get_next_unseen; cbn [n next_counts]; assumption.
Qed.

End Built.

Section BuiltKeys.
Import NGramLanguageModel.

Lemma counted_keys ps : dict_keys (fst (Model.counted ps)) = first_seen (map fst ps).
Proof.
  induction ps as [|[c w] ps IH] using rev_ind; [reflexivity|].
  rewrite counted_snoc, map_app. cbn [map fst]. rewrite first_seen_snoc, <- IH.
  unfold record. destruct (Model.counted ps) as [nc ct]. cbn [fst].
  rewrite <- dict_contains_list_in. unfold defaultdict_getitem, dict_contains.
  destruct (dict_get nc c) eqn:Hget; cbn [fst].
  - rewrite dict_keys_setitem. unfold dict_contains. now rewrite Hget.
  - rewrite dict_keys_setitem. unfold dict_contains.
    rewrite (dict_get_app_new _ _ c _ Hget), eqb_key_refl.
    unfold dict_keys. now rewrite map_app.
Qed.

Lemma counted_NoDup_keys ps : NoDup (dict_keys (fst (Model.counted ps))).
Proof. rewrite counted_keys. apply NoDup_first_seen. Qed.

End BuiltKeys.

Local Open Scope string_scope.
Local Open Scope list_scope.

(* ================================================================== *)
(** * The prefix index *)

(** C3. For a vocabulary built into the prefix tree (whatever the order in
    which the set of its words is iterated) and every prefix [p]:
    [search_prefix p] has no repeated word and holds exactly the vocabulary
    words that start with [p]; every vocabulary word [w] is in
    [search_prefix w]; [search_prefix ""] is the whole vocabulary; and when no
    word starts with [p] the result is the empty list (the function is total:
    it does not raise). *)
Theorem search_prefix_exact (vocabulary order : list string) (p : string) :
  set_iteration vocabulary order ->
  let tree := PrefixTree.init order in
  NoDup (PrefixTree.search_prefix tree p) /\
  (forall w, In w (PrefixTree.search_prefix tree p) <->
             In w vocabulary /\ startswith w p = true) /\
  (forall w, In w vocabulary -> In w (PrefixTree.search_prefix tree w)) /\
  (NoDup (PrefixTree.search_prefix tree EmptyString) /\
   forall w, In w (PrefixTree.search_prefix tree EmptyString) <-> In w vocabulary) /\
  ((forall w, In w vocabulary -> startswith w p = false) ->
   PrefixTree.search_prefix tree p = []).
Proof.
  intros [Hnd Hset] tree. subst tree.
  assert (Hin : forall q w, In w (PrefixTree.search_prefix (PrefixTree.init order) q) <->
                            In w vocabulary /\ startswith w q = true).
  { intros q w. rewrite In_search_prefix, Hset. reflexivity. }
  split; [|split; [|split; [|split]]].
  - apply NoDup_search_prefix.
  - apply Hin.
  - intros w Hw. apply Hin. split; [exact Hw | apply startswith_refl].
  - split; [apply NoDup_search_prefix|].
    intros w. rewrite Hin. split; [tauto | intros Hw; now split].
  - intros Hnone.
    destruct (PrefixTree.search_prefix (PrefixTree.init order) p) as [|w ws] eqn:Hres;
      [reflexivity|].
    assert (In w (PrefixTree.search_prefix (PrefixTree.init order) p)) as Hw
        by (rewrite Hres; now left).
    apply Hin in Hw as [Hv Hs]. rewrite (Hnone w Hv) in Hs. discriminate.
Qed.

Lemma search_prefix_exact_witness :
  set_iteration ["hello"; "how"; "hello"; "are"]%string ["how"; "are"; "hello"]%string /\
  (forall w, In w (PrefixTree.search_prefix
                     (PrefixTree.init ["how"; "are"; "hello"]%string) "h") <->
             In w ["hello"; "how"; "hello"; "are"]%string /\ startswith w "h" = true).
Proof.
  assert (H : set_iteration ["hello"; "how"; "hello"; "are"]%string
                ["how"; "are"; "hello"]%string).
  { split.
    - repeat constructor; simpl; intuition discriminate.
    - intros x. simpl. tauto. }
  split; [exact H|].
  exact (proj1 (proj2 (search_prefix_exact _ _ "h" H))).
Defined.

(* ================================================================== *)
(** * The word completor *)

(** C7. For every word completor the constructor builds and every prefix:
    the query does not raise; the words it returns are the retained
    vocabulary when the prefix is empty and the prefix tree's matches
    otherwise; the i-th probability is the count of the i-th word over the
    total mass; and when the total mass is zero or no word matches, the
    result is two empty lists (no division is attempted: a non-empty result
    has a non-zero total). *)
Theorem get_words_and_probs_exact (corpus : list (list string)) (min_freq : Z)
  (order : list string) (prefix : string) :
  let self := WordCompletor.init corpus min_freq order in
  set_iteration (dict_keys (WordCompletor.counter self)) order ->
  let words :=
    match prefix with
    | EmptyString => dict_keys (WordCompletor.counter self)
    | _ => PrefixTree.search_prefix (WordCompletor.prefix_tree self) prefix
    end in
  WordCompletor.get_words_and_probs self prefix =
    Ok (words,
        map (fun w => (inject_Z (counter_count (WordCompletor.counter self) w)
                       / inject_Z (WordCompletor.total_count self))%Q) words) /\
  (WordCompletor.total_count self = 0%Z \/ words = [] ->
   WordCompletor.get_words_and_probs self prefix = Ok ([], [])) /\
  (words <> [] -> WordCompletor.total_count self <> 0%Z).
Proof.
  intros self [Hnd Hset] words.
  assert (Hzero : WordCompletor.total_count self = 0%Z -> words = []).
  { intros Ht. apply init_total_zero in Ht. fold self in Ht.
    subst words. destruct prefix as [|ch rest]; [now rewrite Ht|].
    rewrite Ht in Hset. simpl in Hset.
    destruct (PrefixTree.search_prefix (WordCompletor.prefix_tree self) (String ch rest))
      as [|w ws] eqn:Hres; [reflexivity|].
    assert (In w (PrefixTree.search_prefix (PrefixTree.init order) (String ch rest))) as Hw
        by (unfold self in Hres; rewrite init_prefix_tree in Hres; rewrite Hres; now left).
    apply In_search_prefix in Hw as [Hw _]. now apply Hset in Hw. }
  pose proof (get_words_and_probs_value self prefix) as Hv. cbv zeta in Hv.
  fold words in Hv.
  assert (Hres : WordCompletor.get_words_and_probs self prefix =
                 Ok (words,
                     map (fun w => (inject_Z (counter_count (WordCompletor.counter self) w)
                                    / inject_Z (WordCompletor.total_count self))%Q) words)).
  { rewrite Hv. destruct words as [|w ws] eqn:Hw; [reflexivity|].
    destruct (Z.eqb_spec (WordCompletor.total_count self) 0) as [Ht|Ht]; [|reflexivity].
    apply Hzero in Ht. discriminate. }
  split; [exact Hres|]. split.
  - intros [Ht|Hw].
    + rewrite Hres, (Hzero Ht). reflexivity.
    + rewrite Hres, Hw. reflexivity.
  - intros Hw Ht. now apply Hzero in Ht.
Qed.

Lemma get_words_and_probs_exact_witness :
  set_iteration
    (dict_keys (WordCompletor.counter
                  (WordCompletor.init [["hello"; "world"]; ["hello"; "there"]]%string 1
                     ["there"; "hello"; "world"]%string)))
    ["there"; "hello"; "world"]%string /\
  WordCompletor.get_words_and_probs
    (WordCompletor.init [["hello"; "world"]; ["hello"; "there"]]%string 1
       ["there"; "hello"; "world"]%string) "" =
  Ok (["hello"; "world"; "there"]%string, [2 # 4; 1 # 4; 1 # 4]%Q).
Proof.
  assert (H : set_iteration
                (dict_keys (WordCompletor.counter
                   (WordCompletor.init [["hello"; "world"]; ["hello"; "there"]]%string 1
                      ["there"; "hello"; "world"]%string)))
                ["there"; "hello"; "world"]%string).
  { split.
    - repeat constructor; simpl; intuition discriminate.
    - intros x. simpl. tauto. }
  split; [exact H|].
  exact (proj1 (get_words_and_probs_exact
                  [["hello"; "world"]; ["hello"; "there"]]%string 1
                  ["there"; "hello"; "world"]%string "" H)).
Defined.

(* ================================================================== *)
(** * The context model *)

(** C4, as the code has it.  For every corpus and every order [N >= 1] the
    constructor succeeds
    and, for every window [ctx] of [N] tokens and every token [w]:
    [next_counts[ctx][w]] is the number of positions of the corpus where
    [ctx] is immediately followed by [w], and [context_totals[ctx]] is the
    number of positions where [ctx] is followed by a token (each such
    position increments both by one); [ctx] is a key of the table exactly
    when there is such a position.  So in a sentence of length [>= N + 1]
    every window of [N] tokens that has a token after it is recorded as a
    context with that token counted, and a sentence of length [< N + 1]
    leaves the tables as they are.  The last window of a sentence has no
    token after it and is not recorded by that sentence. *)
Theorem init_counts_windows (corpus : list (list string)) (N : Z) :
  (1 <= N)%Z ->
  exists g,
    NGramLanguageModel.init corpus N = Ok g /\
    NGramLanguageModel.n g = N /\
    (forall ctx w,
        Model.next_count g ctx w =
        Z.of_nat (Corpus.count_followed (Z.to_nat N) corpus ctx w)) /\
    (forall ctx,
        Model.context_total g ctx =
        Z.of_nat (Corpus.count_window (Z.to_nat N) corpus ctx)) /\
    (forall ctx,
        dict_contains (NGramLanguageModel.next_counts g) ctx = true <->
        0 < Corpus.count_window (Z.to_nat N) corpus ctx) /\
    (forall sent i,
        In sent corpus -> i + Z.to_nat N < List.length sent ->
        let ctx := slice sent i (i + Z.to_nat N) in
        let w := nth (i + Z.to_nat N) sent EmptyString in
        dict_contains (NGramLanguageModel.next_counts g) ctx = true /\
        (1 <= Model.next_count g ctx w)%Z /\
        (1 <= Model.context_total g ctx)%Z) /\
    (forall sent tb,
        List.length sent < Z.to_nat N + 1 -> NGramLanguageModel.scan N tb sent = tb).
Proof.
  intros HN. eexists. split; [apply init_counted; exact HN|].
  assert (Hcount : forall (ctx : list string) w,
    Model.next_count
      {| NGramLanguageModel.n := N;
         NGramLanguageModel.next_counts :=
           fst (Model.counted (Corpus.pairs (Z.to_nat N) corpus));
         NGramLanguageModel.context_totals :=
           snd (Model.counted (Corpus.pairs (Z.to_nat N) corpus)) |} ctx w =
    Z.of_nat (Corpus.count_followed (Z.to_nat N) corpus ctx w)).
  { intros ctx w. unfold Model.next_count. cbn [NGramLanguageModel.next_counts].
    rewrite built_entry.
    destruct (Nat.ltb_spec 0 (Corpus.count_window (Z.to_nat N) corpus ctx)) as [Hpos|Hz].
    - now rewrite counter_count_tally, followers_of_corpus.
    - pose proof (followed_le_window (Z.to_nat N) corpus ctx w). lia. }
  assert (Htotal : forall (ctx : list string),
    Model.context_total
      {| NGramLanguageModel.n := N;
         NGramLanguageModel.next_counts :=
           fst (Model.counted (Corpus.pairs (Z.to_nat N) corpus));
         NGramLanguageModel.context_totals :=
           snd (Model.counted (Corpus.pairs (Z.to_nat N) corpus)) |} ctx =
    Z.of_nat (Corpus.count_window (Z.to_nat N) corpus ctx)).
  { intros ctx. unfold Model.context_total. cbn [NGramLanguageModel.context_totals].
    apply built_total. }
  assert (Hkey : forall (ctx : list string),
    dict_contains (fst (Model.counted (Corpus.pairs (Z.to_nat N) corpus))) ctx = true <->
    0 < Corpus.count_window (Z.to_nat N) corpus ctx).
  { intros ctx. unfold dict_contains. rewrite built_entry.
    destruct (Nat.ltb_spec 0 (Corpus.count_window (Z.to_nat N) corpus ctx));
      split; intros; try reflexivity; try discriminate; lia. }
  split; [reflexivity|]. split; [exact Hcount|]. split; [exact Htotal|].
  split; [exact Hkey|]. split.
  - intros sent i Hsent Hi ctx w.
    pose proof (followed_position (Z.to_nat N) corpus sent i Hsent Hi) as Hf.
    fold ctx w in Hf.
    pose proof (followed_le_window (Z.to_nat N) corpus ctx w) as Hle.
    cbn [NGramLanguageModel.next_counts].
    rewrite Hkey, Hcount, Htotal. repeat split; lia.
  - intros sent tb Hlen. rewrite scan_pairs by exact HN.
    unfold Corpus.pairs_of. replace (List.length sent - Z.to_nat N) with 0 by lia.
    reflexivity.
Qed.

Lemma init_counts_windows_witness :
  (1 <= 1)%Z /\
  exists g,
    NGramLanguageModel.init [["a"; "b"; "a"; "c"]; ["a"]] 1 = Ok g /\
    Model.next_count g ["a"] "b" = 1%Z /\
    Model.context_total g ["a"] = 2%Z /\
    Model.context_total g ["c"] = 0%Z.
Proof.
  assert (H : (1 <= 1)%Z) by lia.
  split; [exact H|].
  destruct (init_counts_windows [["a"; "b"; "a"; "c"]; ["a"]] 1 H)
    as [g [Hg [_ [Hc [Ht _]]]]].
  exists g. split; [exact Hg|]. split; [|split].
  - exact (Hc ["a"] "b").
  - exact (Ht ["a"]).
  - exact (Ht ["c"]).
Defined.

(** C4, as stated, fails: with order 1 the sentence [a b] has length
    [N + 1] and its last token [b] is a contiguous window of one token, but
    no token follows it, so the constructor does not record [b] as a
    context: it is a key of neither table and its total is 0. *)
Lemma final_window_not_recorded :
  exists g,
    NGramLanguageModel.init [["a"; "b"]] 1 = Ok g /\
    ~ (forall sent i,
          In sent [["a"; "b"]] ->
          Z.to_nat 1 + 1 <= List.length sent ->
          i + Z.to_nat 1 <= List.length sent ->
          dict_contains (NGramLanguageModel.next_counts g)
            (slice sent i (i + Z.to_nat 1)) = true) /\
    slice ["a"; "b"] 1 (1 + Z.to_nat 1) = ["b"] /\
    dict_contains (NGramLanguageModel.next_counts g) ["b"] = false /\
    dict_contains (NGramLanguageModel.context_totals g) ["b"] = false /\
    Model.context_total g ["b"] = 0%Z.
Proof.
  eexists. split; [reflexivity|]. split; [|repeat split].
  intros H.
  pose proof (H ["a"; "b"] 1 (or_introl eq_refl) (le_n 2) (le_n 2)) as Hf.
  vm_compute in Hf. discriminate Hf.
Qed.

(** C5. On a built model of order [N], [get_next_words_and_probs seq] raises
    exactly when [len(seq) < N], and what it raises is [ValueError]; when
    [len(seq) >= N] and the last [N] tokens of [seq] were never recorded as
    a context, it returns two empty lists, which is not the failure. *)
Theorem get_next_raises_iff_short (corpus : list (list string)) (N : Z)
  (g : NGramLanguageModel.t) (seq : list string) :
  NGramLanguageModel.init corpus N = Ok g ->
  ((exists e, NGramLanguageModel.get_next_words_and_probs g seq = Raise e) <->
   (Z.of_nat (List.length seq) < N)%Z) /\
  ((Z.of_nat (List.length seq) < N)%Z ->
   NGramLanguageModel.get_next_words_and_probs g seq = Raise ValueError) /\
  ((N <= Z.of_nat (List.length seq))%Z ->
   slice_from seq (- N) = skipn (List.length seq - Z.to_nat N) seq /\
   (Corpus.count_window (Z.to_nat N) corpus (slice_from seq (- N)) = 0 ->
    NGramLanguageModel.get_next_words_and_probs g seq = Ok ([], []))) /\
  @Ok (list string * list Q) ([], []) <> Raise ValueError.
Proof.
  intros Hinit. pose proof (init_inv _ _ _ Hinit) as [HN Hg].
  assert (Hn : NGramLanguageModel.n g = N) by (subst g; reflexivity).
  assert (Hshort : (Z.of_nat (List.length seq) < N)%Z ->
                   NGramLanguageModel.get_next_words_and_probs g seq = Raise ValueError).
  { intros Hlt. apply get_next_short. now rewrite Hn. }
  split; [|split; [exact Hshort|split; [|discriminate]]].
  - split.
    + intros [e He]. destruct (Z.lt_ge_cases (Z.of_nat (List.length seq)) N) as [|Hge];
        [assumption|].
      rewrite (built_query corpus N g seq Hinit Hge) in He.
      destruct (0 <? _)%nat; discriminate.
    + intros Hlt. exists ValueError. now apply Hshort.
  - intros Hge. split; [apply slice_from_last; lia|].
    intros Hzero. rewrite (built_query corpus N g seq Hinit Hge), Hzero. reflexivity.
Qed.

Lemma get_next_raises_iff_short_witness :
  exists g,
    NGramLanguageModel.init [["a"; "b"; "a"; "c"]] 2 = Ok g /\
    NGramLanguageModel.get_next_words_and_probs g ["a"] = Raise ValueError /\
    NGramLanguageModel.get_next_words_and_probs g ["c"; "a"] = Ok ([], []).
Proof.
  eexists. split; [reflexivity|].
  pose proof (get_next_raises_iff_short [["a"; "b"; "a"; "c"]] 2 _ ["a"] eq_refl)
    as [_ [Hshort _]].
  pose proof (get_next_raises_iff_short [["a"; "b"; "a"; "c"]] 2 _ ["c"; "a"] eq_refl)
    as [_ [_ [Hlong _]]].
  split.
  - apply Hshort. reflexivity.
  - apply Hlong; [discriminate | reflexivity].
Defined.

(** C6. In every built model, for every entry of the context table the
    counts stored for the context add up to the stored total of the
    context; and for every observed context the query returns probabilities
    whose sum is exactly 1. *)
Theorem counts_sum_to_total (corpus : list (list string)) (N : Z)
  (g : NGramLanguageModel.t) :
  NGramLanguageModel.init corpus N = Ok g ->
  (forall ctx counts,
      In (ctx, counts) (NGramLanguageModel.next_counts g) ->
      sum_Z (dict_values counts) = Model.context_total g ctx) /\
  (forall seq,
      (N <= Z.of_nat (List.length seq))%Z ->
      dict_contains (NGramLanguageModel.next_counts g) (slice_from seq (- N)) = true ->
      exists words probs,
        NGramLanguageModel.get_next_words_and_probs g seq = Ok (words, probs) /\
        words <> [] /\
        (sum_Q probs == 1)%Q).
Proof.
  intros Hinit. pose proof (init_inv _ _ _ Hinit) as [HN Hg].
  assert (Hentry : forall (ctx : list string) counts,
            dict_get (NGramLanguageModel.next_counts g) ctx = Some counts ->
            counts = tally (Corpus.followers ctx (Corpus.pairs (Z.to_nat N) corpus)) /\
            0 < Corpus.count_window (Z.to_nat N) corpus ctx).
  { intros ctx counts Hget. subst g. cbn [NGramLanguageModel.next_counts] in Hget.
    rewrite built_entry in Hget.
    destruct (Nat.ltb_spec 0 (Corpus.count_window (Z.to_nat N) corpus ctx));
      [|discriminate].
    split; [congruence | assumption]. }
  split.
  - intros ctx counts Hin.
    assert (Hget : dict_get (NGramLanguageModel.next_counts g) ctx = Some counts).
    { apply In_dict_get; [|exact Hin]. subst g. apply counted_NoDup_keys. }
    destruct (Hentry ctx counts Hget) as [-> _].
    rewrite built_sum. subst g. unfold Model.context_total.
    cbn [NGramLanguageModel.context_totals]. now rewrite built_total.
  - intros seq Hlen Hkey. unfold dict_contains in Hkey.
    destruct (dict_get (NGramLanguageModel.next_counts g) (slice_from seq (- N)))
      as [counts|] eqn:Hget; [|discriminate].
    destruct (Hentry _ counts Hget) as [Hcounts Hpos].
    pose proof (built_query corpus N g seq Hinit Hlen) as Hq. cbv zeta in Hq.
    apply Nat.ltb_lt in Hpos as Hpos'. rewrite Hpos' in Hq. rewrite <- Hcounts in Hq.
    eexists. eexists. split; [exact Hq|]. split.
    + rewrite Hcounts, dict_keys_tally. intros Hnil.
      assert (Hf : Corpus.followers (slice_from seq (- N))
                     (Corpus.pairs (Z.to_nat N) corpus) = []).
      { destruct (Corpus.followers _ _) as [|x l] eqn:Hfol; [reflexivity|].
        assert (In x (first_seen (x :: l))) as Hx by (apply In_first_seen; now left).
        rewrite Hnil in Hx. contradiction. }
      apply (f_equal (@List.length string)) in Hf.
      rewrite length_followers, windows_of_corpus in Hf. simpl in Hf. lia.
    + apply sum_Q_probs.
      * rewrite Hcounts. apply NoDup_keys_tally.
      * lia.
      * rewrite Hcounts. apply built_sum.
Qed.

Lemma counts_sum_to_total_witness :
  exists g,
    NGramLanguageModel.init [["a"; "b"; "a"; "c"; "a"; "c"]] 1 = Ok g /\
    exists words probs,
      NGramLanguageModel.get_next_words_and_probs g ["x"; "a"] = Ok (words, probs) /\
      words <> [] /\ (sum_Q probs == 1)%Q.
Proof.
  eexists. split; [reflexivity|].
  apply (proj2 (counts_sum_to_total [["a"; "b"; "a"; "c"; "a"; "c"]] 1 _ eq_refl)
           ["x"; "a"]).
  - discriminate.
  - reflexivity.
Defined.

(* ================================================================== *)
(** * Queries are read-only *)

(** C10. Each of the three queries returns the structure it was called on
    unchanged: [search_prefix] the tree, [get_words_and_probs] the word
    completor, [get_next_words_and_probs] the n-gram model; in particular a
    query for a context that is no key of the context table leaves the
    table without that key.  So after any sequence of queries the models
    are the ones the queries started from. *)
Theorem queries_leave_models_unchanged (m : State.models) :
  (forall p,
      snd (PrefixTree.search_prefix_st
             (WordCompletor.prefix_tree (State._word_completor m)) p) =
      WordCompletor.prefix_tree (State._word_completor m)) /\
  (forall p,
      snd (WordCompletor.get_words_and_probs_st (State._word_completor m) p) =
      State._word_completor m) /\
  (forall tokens,
      snd (NGramLanguageModel.get_next_words_and_probs_st (State._ngram_model m) tokens) =
      State._ngram_model m) /\
  (forall tokens,
      let g := State._ngram_model m in
      let ctx := slice_from tokens (- NGramLanguageModel.n g) in
      dict_contains (NGramLanguageModel.next_counts g) ctx = false ->
      dict_contains
        (NGramLanguageModel.next_counts
           (snd (NGramLanguageModel.get_next_words_and_probs_st g tokens))) ctx = false) /\
  (forall qs, Model.after_queries m qs = m).
Proof.
  assert (Hone : forall m' q, Model.after_query m' q = m').
  { intros [wc g] [p|p|ts]; unfold Model.after_query;
      cbn [State._word_completor State._ngram_model].
    - rewrite search_prefix_st_frame. now destruct wc.
    - now rewrite get_words_and_probs_st_frame.
    - now rewrite get_next_st_frame. }
  split; [|split; [|split; [|split]]].
  - intros p. apply search_prefix_st_frame.
  - intros p. apply get_words_and_probs_st_frame.
  - intros ts. apply get_next_st_frame.
  - intros ts g ctx Hctx. now rewrite get_next_st_frame.
  - intros qs. unfold Model.after_queries. revert m.
    induction qs as [|q qs IH]; intros m; simpl; [reflexivity|].
    now rewrite Hone.
Qed.

(* ================================================================== *)
(** ** Ranking and filling *)

Section Ranking.

Lemma sorted_insert_perm {A B : Type} (lt : B -> B -> bool) (key : A -> B)
  (x : A) (xs : list A) :
  Permutation (sorted_insert lt key x xs) (x :: xs).
Proof.
  induction xs as [|y ys IH]; simpl; [reflexivity|].
  destruct (lt (key y) (key x)); [|reflexivity].
  rewrite IH. apply perm_swap.
Qed.

Lemma sorted_perm {A B : Type} (lt : B -> B -> bool) (key : A -> B) (xs : list A) :
  Permutation (sorted lt key xs) xs.
Proof.
  unfold sorted. induction xs as [|x xs IH]; simpl; [reflexivity|].
  rewrite sorted_insert_perm. now constructor.
Qed.

Lemma map_fst_combine {A B : Type} (f : A -> B) (xs : list A) :
  map fst (combine xs (map f xs)) = xs.
Proof. induction xs as [|x xs IH]; simpl; congruence. Qed.

Lemma ranked_words (words : list string) (f : string -> Q) :
  Permutation (map fst (State.ranked_by_prob words (map f words))) words.
Proof.
  unfold State.ranked_by_prob.
  rewrite (Permutation_map fst (sorted_perm _ _ _)).
  now rewrite map_fst_combine.
Qed.

Lemma slice_to_3 {A : Type} (xs : list A) : slice_to xs 3 = firstn 3 xs.
Proof. reflexivity. Qed.

Lemma NoDup_firstn {A : Type} (k : nat) (xs : list A) : NoDup xs -> NoDup (firstn k xs).
Proof.
  intros H. rewrite <- (firstn_skipn k xs) in H. now apply NoDup_app_remove_r in H.
Qed.

(** *** The filling loop *)

Lemma append_new_extends (ws acc : list string) :
  exists rest, State.append_new acc ws = acc ++ rest.
Proof.
  revert acc. induction ws as [|w ws IH]; intros acc; simpl.
  - exists []. now rewrite app_nil_r.
  - destruct (list_in w acc); simpl; [apply IH|].
    destruct (Nat.eqb (List.length (acc ++ [w])) 3).
    + now exists [w].
    + destruct (IH (acc ++ [w])) as [rest Hrest]. exists (w :: rest).
      rewrite Hrest, <- app_assoc. reflexivity.
Qed.

Lemma NoDup_append_new (ws acc : list string) :
  NoDup acc -> NoDup (State.append_new acc ws).
Proof.
  revert acc. induction ws as [|w ws IH]; intros acc Hnd; simpl; [exact Hnd|].
  destruct (list_in w acc) eqn:Hin; simpl; [now apply IH|].
  apply list_in_not_In in Hin.
  assert (NoDup (acc ++ [w])) as Hnd'.
  { apply NoDup_app; [exact Hnd | repeat constructor; simpl; tauto |].
    intros a Ha [<-|[]]. contradiction. }
  destruct (Nat.eqb (List.length (acc ++ [w])) 3); [exact Hnd' | now apply IH].
Qed.

Lemma length_append_new_le (ws acc : list string) :
  List.length acc < 3 -> List.length (State.append_new acc ws) <= 3.
Proof.
  revert acc. induction ws as [|w ws IH]; intros acc Hlen; simpl; [lia|].
  destruct (list_in w acc); simpl; [now apply IH|].
  destruct (Nat.eqb_spec (List.length (acc ++ [w])) 3) as [Heq|Hne]; [lia|].
  apply IH. rewrite length_app in *. simpl in *. lia.
Qed.

Lemma fresh_after_append (w : string) (ws acc : list string) :
  ~ In w ws ->
  filter (fun x => negb (list_in x (acc ++ [w]))) ws =
  filter (fun x => negb (list_in x acc)) ws.
Proof.
  intros Hw. apply filter_ext_in. intros x Hx.
  rewrite list_in_app. simpl. rewrite orb_false_r.
  destruct (eqb_key x w) eqn:Hxw; [|now rewrite orb_false_r].
  apply eqb_key_eq in Hxw. subst x. contradiction.
Qed.

Lemma length_append_new (ws acc : list string) :
  NoDup ws -> List.length acc < 3 ->
  3 <= List.length acc + List.length (filter (fun x => negb (list_in x acc)) ws) ->
  List.length (State.append_new acc ws) = 3.
Proof.
  revert acc. induction ws as [|w ws IH]; intros acc Hnd Hlen Hfresh; simpl in *; [lia|].
  inversion Hnd as [|? ? Hw Hnd']; subst.
  destruct (list_in w acc) eqn:Hin; simpl in *; [now apply IH|].
  destruct (Nat.eqb_spec (List.length (acc ++ [w])) 3) as [Heq|Hne]; [exact Heq|].
  rewrite length_app in Hne. simpl in Hne.
  apply IH; [exact Hnd' | rewrite length_app; simpl; lia |].
  rewrite fresh_after_append by exact Hw. rewrite length_app. simpl. lia.
Qed.

Lemma length_fresh (ws acc : list string) :
  NoDup ws ->
  List.length ws <=
  List.length acc + List.length (filter (fun x => negb (list_in x acc)) ws).
Proof.
  intros Hnd. rewrite <- (filter_length (fun x => list_in x acc) ws).
  apply Nat.add_le_mono_r. apply NoDup_incl_length.
  - now apply NoDup_filter.
  - intros x Hx. apply filter_In in Hx as [_ Hx]. now apply list_in_In.
Qed.

Lemma append_new_three (ws acc : list string) :
  NoDup ws -> NoDup acc -> 3 <= List.length ws -> List.length acc < 3 ->
  List.length (State.append_new acc ws) = 3 /\ NoDup (State.append_new acc ws).
Proof.
  intros Hws Hacc Hlen Hshort. split; [|now apply NoDup_append_new].
  apply length_append_new; [exact Hws | exact Hshort|].
  pose proof (length_fresh ws acc Hws). lia.
Qed.

End Ranking.

(* ================================================================== *)
(** ** The text buffer *)

Section Buffer.

Lemma split_lstrip (s : string) : split (lstrip s) = split s.
Proof.
  unfold split. induction s as [|c s IH]; simpl; [reflexivity|].
  destruct (isspace c) eqn:Hc; [exact IH|]. simpl. now rewrite Hc.
Qed.

Lemma split_from_nonempty (s : string) (c : ascii) (cur : string) :
  split_from (String c cur) s <> [].
Proof.
  revert c cur. induction s as [|d s IH]; intros c cur; simpl; [discriminate|].
  destruct (isspace d); [discriminate | apply IH].
Qed.

Lemma lstrip_nonblank (s : string) : split s <> [] <-> lstrip s <> EmptyString.
Proof.
  unfold split. induction s as [|c s IH]; simpl; [tauto|].
  destruct (isspace c); [exact IH|].
  split; [discriminate | intros _; apply split_from_nonempty].
Qed.

End Buffer.

(* ================================================================== *)
(** ** The suggestion policy *)

Section Policy.
Import State.

Lemma update_text_space (m : models) (st : t) (value : string) :
  lstrip value <> EmptyString ->
  str_isspace (last_char value) = true ->
  update_text m st value =
  (next_words <- next_words_or_empty m (split (lstrip value)) ;;
   suggestions <- backfill_suggestions m (slice_to next_words 3) ;;
   Ok {| text := value;
         suggestions := suggestions;
         ghost_suffix := match suggestions with
                         | s :: _ => s
                         | [] => EmptyString
                         end |}).
Proof.
  intros Hblank Hsp. unfold update_text.
  destruct (lstrip value) eqn:Hl; [contradiction|]. now rewrite Hsp.
Qed.

Lemma update_text_word (m : models) (st : t) (value : string) :
  lstrip value <> EmptyString ->
  str_isspace (last_char value) = false ->
  update_text m st value =
  (let tokens := split (lstrip value) in
   let prefix := last tokens EmptyString in
   '(words, probs) <- WordCompletor.get_words_and_probs (_word_completor m) prefix ;;
   let completions := map fst (slice_to (ranked_by_prob words probs) 3) in
   suggestions <-
     (if Nat.ltb (List.length completions) 3 then
        next_words <- next_words_or_empty m tokens ;;
        Ok (append_new completions next_words)
      else Ok completions) ;;
   suggestions <- backfill_suggestions m suggestions ;;
   Ok {| text := value;
         suggestions := suggestions;
         ghost_suffix :=
           match suggestions with
           | best :: _ =>
               if startswith best prefix
               then str_from best (String.length prefix)
               else best
           | [] => EmptyString
           end |}).
Proof.
  intros Hblank Hsp. unfold update_text.
  destruct (lstrip value) eqn:Hl; [contradiction|]. now rewrite Hsp.
Qed.

(** The completions of a prefix, on any word completor. *)
Lemma get_words_shape (wc : WordCompletor.t) (p : string) :
  exists words f,
    WordCompletor.get_words_and_probs wc p = Ok (words, map f words) /\
    (words = [] \/
     words = match p with
             | EmptyString => dict_keys (WordCompletor.counter wc)
             | _ => PrefixTree.search_prefix (WordCompletor.prefix_tree wc) p
             end).
Proof.
  pose proof (get_words_and_probs_value wc p) as Hv. cbv zeta in Hv.
  destruct (_ || _) in Hv.
  - exists [], (fun _ => 0%Q). split; [exact Hv | now left].
  - eexists. eexists. split; [exact Hv | now right].
Qed.

Lemma get_words_NoDup corpus min_freq order (p : string) :
  exists words f,
    WordCompletor.get_words_and_probs (WordCompletor.init corpus min_freq order) p =
    Ok (words, map f words) /\ NoDup words.
Proof.
  destruct (get_words_shape (WordCompletor.init corpus min_freq order) p)
    as [words [f [Hget Hwords]]].
  exists words, f. split; [exact Hget|].
  destruct Hwords as [->| ->]; [constructor|].
  destruct p; [apply init_NoDup_keys | apply NoDup_search_prefix].
Qed.

(** The next words of a token list, on a built n-gram model. *)
Lemma next_words_built corpus (N : Z) (g : NGramLanguageModel.t)
  (wc : WordCompletor.t) (tokens : list string) :
  NGramLanguageModel.init corpus N = Ok g ->
  next_words_or_empty {| _word_completor := wc; _ngram_model := g |} tokens =
  Ok (if (N <=? Z.of_nat (List.length tokens))%Z
      then first_seen
             (Corpus.followers (skipn (List.length tokens - Z.to_nat N) tokens)
                (Corpus.pairs (Z.to_nat N) corpus))
      else []).
Proof.
  intros Hinit. pose proof (init_inv _ _ _ Hinit) as [HN Hg].
  unfold next_words_or_empty. cbn [_ngram_model].
  destruct (Z.leb_spec N (Z.of_nat (List.length tokens))) as [Hge|Hlt].
  - rewrite (built_query corpus N g tokens Hinit Hge).
    rewrite slice_from_last by lia. rewrite dict_keys_tally.
    destruct (Nat.ltb_spec 0
                (Corpus.count_window (Z.to_nat N) corpus
                   (skipn (List.length tokens - Z.to_nat N) tokens))) as [Hpos|Hzero];
      [reflexivity|].
    assert (Hf : List.length
                   (Corpus.followers (skipn (List.length tokens - Z.to_nat N) tokens)
                      (Corpus.pairs (Z.to_nat N) corpus)) = 0)
      by (rewrite length_followers, windows_of_corpus; lia).
    destruct (Corpus.followers _ _); [reflexivity | discriminate].
  - rewrite get_next_short; [reflexivity|]. subst g. cbn [NGramLanguageModel.n]. lia.
Qed.

Lemma next_words_NoDup corpus (N : Z) (g : NGramLanguageModel.t)
  (wc : WordCompletor.t) (tokens : list string) :
  NGramLanguageModel.init corpus N = Ok g ->
  exists next_words,
    next_words_or_empty {| _word_completor := wc; _ngram_model := g |} tokens =
    Ok next_words /\ NoDup next_words.
Proof.
  intros Hinit. eexists. split; [apply (next_words_built corpus N g wc tokens Hinit)|].
  destruct (N <=? _)%Z; [apply NoDup_first_seen | constructor].
Qed.

(** Backfilling never raises and keeps what it was given (cut to three). *)
Lemma backfill_extends (m : models) (existing : list string) :
  exists rest,
    backfill_suggestions m existing = Ok (firstn 3 existing ++ rest).
Proof.
  unfold backfill_suggestions.
  destruct (Nat.leb_spec 3 (List.length existing)) as [Hge|Hlt].
  - exists []. now rewrite app_nil_r.
  - destruct (get_words_shape (_word_completor m) EmptyString) as [words [f [Hget _]]].
    rewrite Hget. cbn [bind].
    rewrite (firstn_all2 (n := 3) existing) by lia.
    destruct (append_new_extends
                (map fst (ranked_by_prob words (map f words))) existing)
      as [rest Hrest].
    exists rest. now rewrite Hrest.
Qed.

(** With three words in the vocabulary, backfilling gives three. *)
Lemma backfill_three corpus min_freq order (g : NGramLanguageModel.t)
  (existing : list string) :
  3 <= List.length
         (dict_keys (WordCompletor.counter (WordCompletor.init corpus min_freq order))) ->
  NoDup existing ->
  exists filled,
    backfill_suggestions
      {| _word_completor := WordCompletor.init corpus min_freq order;
         _ngram_model := g |} existing = Ok filled /\
    List.length filled = 3 /\ NoDup filled.
Proof.
  intros Hvocab Hnd. unfold backfill_suggestions. cbn [_word_completor].
  destruct (Nat.leb_spec 3 (List.length existing)) as [Hge|Hlt].
  - eexists. split; [reflexivity|]. rewrite slice_to_3. split.
    + rewrite length_firstn. lia.
    + now apply NoDup_firstn.
  - pose proof (get_words_and_probs_value
                  (WordCompletor.init corpus min_freq order) EmptyString) as Hv.
    cbv zeta in Hv.
    set (wc := WordCompletor.init corpus min_freq order) in *.
    assert (Htot : (WordCompletor.total_count wc =? 0)%Z = false).
    { apply Z.eqb_neq. intros Hz. apply init_total_zero in Hz. fold wc in Hz.
      rewrite Hz in Hvocab. simpl in Hvocab. lia. }
    rewrite Htot in Hv.
    destruct (dict_keys (WordCompletor.counter wc)) as [|w ws] eqn:Hkeys;
      [simpl in Hvocab; lia|].
    cbn [orb] in Hv. rewrite Hv. cbn [bind].
    eexists. split; [reflexivity|].
    apply append_new_three.
    + eapply Permutation_NoDup; [symmetry; apply ranked_words|].
      rewrite <- Hkeys. apply init_NoDup_keys.
    + exact Hnd.
    + rewrite (Permutation_length (ranked_words _ _)). exact Hvocab.
    + exact Hlt.
Qed.

End Policy.

(* ================================================================== *)
(** * The interactive suggestion policy *)

(** C9. With a built word completor whose retained vocabulary holds at least
    three words and a built n-gram model, the suggestion list that
    [update_text] produces for a non-blank buffer has exactly three entries
    and no duplicates; this is so however many candidates the n-gram model
    and the prefix completions yield, in particular when they yield fewer
    than three and the list is backfilled. *)
Theorem backfill_guarantee (corpus : list (list string)) (min_freq : Z)
  (order : list string) (corpus' : list (list string)) (N : Z)
  (g : NGramLanguageModel.t) (st : State.t) (value : string) :
  let wc := WordCompletor.init corpus min_freq order in
  set_iteration (dict_keys (WordCompletor.counter wc)) order ->
  NGramLanguageModel.init corpus' N = Ok g ->
  3 <= List.length (dict_keys (WordCompletor.counter wc)) ->
  lstrip value <> EmptyString ->
  exists st',
    State.update_text {| State._word_completor := wc; State._ngram_model := g |} st value
    = Ok st' /\
    State.text st' = value /\
    List.length (State.suggestions st') = 3 /\
    NoDup (State.suggestions st').
Proof.
  intros wc _ Hinit Hvocab Hblank. subst wc.
  destruct (str_isspace (last_char value)) eqn:Hsp.
  - rewrite update_text_space by assumption.
    destruct (next_words_NoDup corpus' N g
                (WordCompletor.init corpus min_freq order) (split (lstrip value)) Hinit)
      as [next_words [Hnext Hnd]].
    rewrite Hnext. cbn [bind].
    destruct (backfill_three corpus min_freq order g (slice_to next_words 3) Hvocab)
      as [filled [Hfill [Hlen Hnd']]].
    { rewrite slice_to_3. now apply NoDup_firstn. }
    rewrite Hfill. cbn [bind]. eexists. split; [reflexivity|].
    cbn [State.text State.suggestions]. auto.
  - rewrite update_text_word by assumption. cbv zeta. cbn [State._word_completor].
    destruct (get_words_NoDup corpus min_freq order
                (last (split (lstrip value)) EmptyString))
      as [words [f [Hget Hnd]]].
    rewrite Hget. cbn [bind].
    assert (Hcompl : NoDup (map fst (slice_to (State.ranked_by_prob words (map f words)) 3))).
    { rewrite slice_to_3, <- firstn_map. apply NoDup_firstn.
      eapply Permutation_NoDup; [symmetry; apply ranked_words | exact Hnd]. }
    set (completions := map fst (slice_to (State.ranked_by_prob words (map f words)) 3))
      in *.
    assert (Hpad : exists padded,
               (if Nat.ltb (List.length completions) 3
                then next_words <-
                       State.next_words_or_empty
                         {| State._word_completor := WordCompletor.init corpus min_freq order;
                            State._ngram_model := g |} (split (lstrip value)) ;;
                     Ok (State.append_new completions next_words)
                else Ok completions) = Ok padded /\ NoDup padded).
    { destruct (Nat.ltb (List.length completions) 3).
      - destruct (next_words_NoDup corpus' N g
                    (WordCompletor.init corpus min_freq order) (split (lstrip value)) Hinit)
          as [next_words [Hnext _]].
        rewrite Hnext. cbn [bind]. eexists. split; [reflexivity|].
        now apply NoDup_append_new.
      - eexists. split; [reflexivity | exact Hcompl]. }
    destruct Hpad as [padded [Hpad Hnd']]. rewrite Hpad. cbn [bind].
    destruct (backfill_three corpus min_freq order g padded Hvocab Hnd')
      as [filled [Hfill [Hlen Hnd'']]].
    rewrite Hfill. cbn [bind]. eexists. split; [reflexivity|].
    cbn [State.text State.suggestions]. auto.
Qed.

Lemma backfill_guarantee_witness :
  exists g st',
    NGramLanguageModel.init [["hello"; "world"]; ["hello"; "there"]] 2 = Ok g /\
    State.update_text
      {| State._word_completor :=
           WordCompletor.init [["hello"; "world"]; ["hello"; "there"]] 1
             ["there"; "hello"; "world"];
         State._ngram_model := g |}
      {| State.text := ""; State.suggestions := []; State.ghost_suffix := "" |}
      "hello x" = Ok st' /\
    List.length (State.suggestions st') = 3 /\
    NoDup (State.suggestions st').
Proof.
  exists {| NGramLanguageModel.n := 2;
            NGramLanguageModel.next_counts := [];
            NGramLanguageModel.context_totals := [] |}.
  destruct (backfill_guarantee
              [["hello"; "world"]; ["hello"; "there"]] 1 ["there"; "hello"; "world"]
              [["hello"; "world"]; ["hello"; "there"]] 2
              {| NGramLanguageModel.n := 2;
                 NGramLanguageModel.next_counts := [];
                 NGramLanguageModel.context_totals := [] |}
              {| State.text := ""; State.suggestions := []; State.ghost_suffix := "" |}
              "hello x")
    as [st' [Hst [_ [Hlen Hnd]]]].
  - split.
    + repeat constructor; simpl; intuition discriminate.
    + intros x. simpl. tauto.
  - reflexivity.
  - simpl. lia.
  - discriminate.
  - exists st'. split; [reflexivity|]. split; [exact Hst|]. split; assumption.
Defined.

(** C1, as the code has it. For a built n-gram model of order [N] and a
    buffer whose last character is whitespace and that holds at least one
    token, [update_text] queries the n-gram model with all the tokens (an
    insufficient context counts as no next word) and takes as initial
    suggestions the first three (or fewer) of the returned next words in the
    order the model returns them, which is the order in which the tokens
    were first seen after the last [N] tokens of the buffer in the corpus,
    not the order of their probabilities.  The final suggestions are these
    followed by what backfilling adds, and the ghost suffix is the first
    suggestion. *)
Theorem whitespace_initial_suggestions (corpus : list (list string)) (N : Z)
  (g : NGramLanguageModel.t) (wc : WordCompletor.t) (st : State.t) (value : string) :
  NGramLanguageModel.init corpus N = Ok g ->
  str_isspace (last_char value) = true ->
  split value <> [] ->
  let m := {| State._word_completor := wc; State._ngram_model := g |} in
  let tokens := split value in
  let next_words :=
    if (N <=? Z.of_nat (List.length tokens))%Z
    then first_seen
           (Corpus.followers (skipn (List.length tokens - Z.to_nat N) tokens)
              (Corpus.pairs (Z.to_nat N) corpus))
    else [] in
  State.next_words_or_empty m tokens = Ok next_words /\
  exists rest,
    State.backfill_suggestions m (firstn 3 next_words) = Ok (firstn 3 next_words ++ rest) /\
    State.update_text m st value =
    Ok {| State.text := value;
          State.suggestions := firstn 3 next_words ++ rest;
          State.ghost_suffix := hd EmptyString (firstn 3 next_words ++ rest) |}.
Proof.
  intros Hinit Hsp Htok m tokens next_words.
  pose proof (next_words_built corpus N g wc tokens Hinit) as Hnext.
  fold m next_words in Hnext. split; [exact Hnext|].
  destruct (backfill_extends m (firstn 3 next_words)) as [rest Hrest].
  rewrite firstn_firstn in Hrest. simpl Nat.min in Hrest.
  exists rest. split; [exact Hrest|].
  rewrite update_text_space; [|now apply lstrip_nonblank | exact Hsp].
  rewrite split_lstrip. fold tokens. rewrite Hnext. cbn [bind].
  rewrite slice_to_3, Hrest. cbn [bind].
  now destruct (firstn 3 next_words ++ rest).
Qed.

Lemma whitespace_initial_suggestions_witness :
  exists g,
    NGramLanguageModel.init [["a"; "b"]; ["a"; "c"]; ["a"; "c"]] 1 = Ok g /\
    State.next_words_or_empty
      {| State._word_completor := WordCompletor.init [["a"; "b"]] 1 ["a"; "b"];
         State._ngram_model := g |}
      (split "x a ") = Ok ["b"; "c"].
Proof.
  eexists. split; [reflexivity|].
  refine (proj1 (whitespace_initial_suggestions
                   [["a"; "b"]; ["a"; "c"]; ["a"; "c"]] 1 _
                   (WordCompletor.init [["a"; "b"]] 1 ["a"; "b"])
                   {| State.text := ""; State.suggestions := []; State.ghost_suffix := "" |}
                   "x a " eq_refl eq_refl _)).
  discriminate.
Defined.

(** C1, as stated, fails: on the corpus [a b], [a c], [a c] with order 1 and
    the buffer ["a "], the initial suggestions are [b] then [c], and the
    observed probability of [b] after [a] (1/3) is below that of [c] (2/3). *)
Lemma initial_suggestions_not_ranked :
  exists g,
    NGramLanguageModel.init [["a"; "b"]; ["a"; "c"]; ["a"; "c"]] 1 = Ok g /\
    let m := {| State._word_completor :=
                  WordCompletor.init [["a"; "b"]; ["a"; "c"]; ["a"; "c"]] 1 ["a"; "b"; "c"];
                State._ngram_model := g |} in
    State.next_words_or_empty m (split (lstrip "a ")) = Ok ["b"; "c"] /\
    State.update_text m
      {| State.text := ""; State.suggestions := []; State.ghost_suffix := "" |} "a " =
    Ok {| State.text := "a ";
          State.suggestions := ["b"; "c"; "a"];
          State.ghost_suffix := "b" |} /\
    ~ Model.ranked_descending g ["a"] (slice_to ["b"; "c"] 3).
Proof.
  eexists. split; [reflexivity|]. cbv zeta.
  split; [reflexivity|]. split; [reflexivity|].
  intros H. specialize (H 0 "b" "c" eq_refl eq_refl).
  vm_compute in H. apply H. reflexivity.
Qed.

(* ================================================================== *)
(** * The end-to-end example *)

Lemma NoDup_singleton {A : Type} (a : A) (l : list A) :
  NoDup l -> (forall x, In x l <-> x = a) -> l = [a].
Proof.
  intros Hnd Hin. destruct l as [|x [|y l]].
  - exfalso. now apply (Hin a).
  - f_equal. apply Hin. now left.
  - exfalso. assert (x = a) as -> by (apply Hin; now left).
    assert (y = a) as -> by (apply Hin; right; now left).
    inversion Hnd as [|? ? Hx _]. apply Hx. now left.
Qed.

(** C2. On the corpus [hello world], [hello there], [how are you] with
    order 1 (and no frequency threshold): the total mass is 7, the prefix
    query for ["hel"] returns exactly ["hello"] with probability 2/7, and
    on the buffer ["hel"] the policy yields the suggestions [hello],
    [world], [there] (the completion, then the two words that the global
    frequency ranking puts first among the others), with ghost suffix
    ["lo"]. *)
Theorem hel_example (order : list string) (g : NGramLanguageModel.t) (st : State.t) :
  let corpus := [["hello"; "world"]; ["hello"; "there"]; ["how"; "are"; "you"]] in
  let wc := WordCompletor.init corpus 1 order in
  let m := {| State._word_completor := wc; State._ngram_model := g |} in
  set_iteration (dict_keys (WordCompletor.counter wc)) order ->
  NGramLanguageModel.init corpus 1 = Ok g ->
  WordCompletor.total_count wc = 7%Z /\
  WordCompletor.get_words_and_probs wc "hel" = Ok (["hello"], [2 # 7]%Q) /\
  State.backfill_suggestions m ["hello"] = Ok ["hello"; "world"; "there"] /\
  State.update_text m st "hel" =
  Ok {| State.text := "hel";
        State.suggestions := ["hello"; "world"; "there"];
        State.ghost_suffix := "lo" |}.
Proof.
  intros corpus wc m [Hnd Hset] Hinit.
  assert (Hsearch : PrefixTree.search_prefix (PrefixTree.init order) "hel" = ["hello"]).
  { apply NoDup_singleton; [apply NoDup_search_prefix|].
    intros w. rewrite In_search_prefix, Hset.
    change (dict_keys (WordCompletor.counter wc))
      with ["hello"; "world"; "there"; "how"; "are"; "you"].
    split.
    - intros [Hin Hs]. simpl in Hin.
      repeat (destruct Hin as [<-|Hin]; [first [reflexivity | discriminate Hs]|]).
      contradiction.
    - intros ->. split; [now left | reflexivity]. }
  assert (Hhel : WordCompletor.get_words_and_probs wc "hel" = Ok (["hello"], [2 # 7]%Q)).
  { rewrite get_words_and_probs_value. cbv zeta.
    change (WordCompletor.prefix_tree wc) with (PrefixTree.init order).
    rewrite Hsearch. reflexivity. }
  vm_compute in Hinit. injection Hinit as <-. subst m.
  split; [reflexivity|]. split; [exact Hhel|]. split; [reflexivity|].
  rewrite update_text_word; [|discriminate | reflexivity]. cbv zeta.
  change (last (split (lstrip "hel")) "") with "hel".
  cbn [State._word_completor]. rewrite Hhel. cbn [bind].
  reflexivity.
Qed.

Lemma hel_example_witness :
  exists g,
    NGramLanguageModel.init
      [["hello"; "world"]; ["hello"; "there"]; ["how"; "are"; "you"]] 1 = Ok g /\
    State.update_text
      {| State._word_completor :=
           WordCompletor.init
             [["hello"; "world"]; ["hello"; "there"]; ["how"; "are"; "you"]] 1
             ["you"; "are"; "how"; "there"; "world"; "hello"];
         State._ngram_model := g |}
      {| State.text := ""; State.suggestions := []; State.ghost_suffix := "" |} "hel" =
    Ok {| State.text := "hel";
          State.suggestions := ["hello"; "world"; "there"];
          State.ghost_suffix := "lo" |}.
Proof.
  eexists. split; [reflexivity|].
  refine (proj2 (proj2 (proj2
            (hel_example ["you"; "are"; "how"; "there"; "world"; "hello"] _
               {| State.text := ""; State.suggestions := []; State.ghost_suffix := "" |}
               _ eq_refl)))).
  split.
  - repeat constructor; simpl; intuition discriminate.
  - intros x. simpl. tauto.
Defined.

(* ================================================================== *)
(** * The suggestion combiner *)

(** C8, at the input where the code departs from it. On the corpus of the
    example, with order 1, the text ["hel"] has the completion [hello]:
    [suggest_text] returns the one continuation [hello world] for
    [n_texts = 1], and for [n_texts = 0] (or a negative [n_texts]) it
    returns the empty list, because the result is cut with
    [[suggestion][:n_texts]]. *)
Theorem suggest_text_zero_texts :
  exists g,
    NGramLanguageModel.init
      [["hello"; "world"]; ["hello"; "there"]; ["how"; "are"; "you"]] 1 = Ok g /\
    let self :=
      {| TextSuggestion.word_completor :=
           WordCompletor.init
             [["hello"; "world"]; ["hello"; "there"]; ["how"; "are"; "you"]] 1
             ["hello"; "world"; "there"; "how"; "are"; "you"];
         TextSuggestion.n_gram_model := g |} in
    WordCompletor.get_words_and_probs (TextSuggestion.word_completor self) "hel" =
      Ok (["hello"], [2 # 7]%Q) /\
    TextSuggestion.suggest_text self (TextSuggestion.Str "hel") 3 1 =
      Ok [["hello"; "world"]] /\
    TextSuggestion.suggest_text self (TextSuggestion.Str "hel") 3 0 = Ok [] /\
    TextSuggestion.suggest_text self (TextSuggestion.Str "hel") 3 (-1) = Ok [] /\
    TextSuggestion.suggest_text self (TextSuggestion.Tokens ["hel"]) 3 0 = Ok [].
Proof.
  eexists. split; [reflexivity|]. cbv zeta. repeat split; reflexivity.
Qed.

(** The loop of stage 2 does not raise on a built n-gram model. *)
Lemma extend_total (corpus : list (list string)) (N : Z) (g : NGramLanguageModel.t)
  (wc : WordCompletor.t) (fuel : nat) :
  NGramLanguageModel.init corpus N = Ok g ->
  forall suggestion context_seq,
  exists extended rest,
    TextSuggestion.extend
      {| TextSuggestion.word_completor := wc; TextSuggestion.n_gram_model := g |}
      fuel suggestion context_seq = Ok extended /\
    extended = suggestion ++ rest /\ List.length rest <= fuel.
Proof.
  intros Hinit. pose proof (init_inv _ _ _ Hinit) as [HN Hg].
  induction fuel as [|fuel IH]; intros suggestion context_seq; simpl.
  - exists suggestion, []. rewrite app_nil_r. auto.
  - destruct (Z.lt_ge_cases (Z.of_nat (List.length context_seq)) N) as [Hlt|Hge].
    + rewrite get_next_short by (subst g; cbn [NGramLanguageModel.n]; lia).
      exists suggestion, []. rewrite app_nil_r. simpl. split; [reflexivity|]. split; [reflexivity | lia].
    + rewrite (built_query corpus N g context_seq Hinit Hge).
      destruct (0 <? _)%nat.
      * destruct (dict_keys _) as [|w ws] eqn:Hkeys.
        -- exists suggestion, []. rewrite app_nil_r. simpl.
           split; [reflexivity|]. split; [reflexivity | lia].
        -- match goal with
           | |- context [TextSuggestion.extend _ fuel (suggestion ++ [?x]) ?c] =>
               destruct (IH (suggestion ++ [x]) c) as [ext [rest [Hext [Heq Hlen]]]];
               exists ext, (x :: rest)
           end.
           split; [exact Hext|]. split.
           ++ rewrite Heq, <- app_assoc. reflexivity.
           ++ simpl. lia.
      * exists suggestion, []. rewrite app_nil_r. simpl.
        split; [reflexivity|]. split; [reflexivity | lia].
Qed.

(** X15. What [suggest_text] returns on built models: nothing for an input
    without tokens or when the last token has no completion; otherwise one
    continuation, which starts with the most frequent completion and has at
    most [n_words] further words, cut by [[:n_texts]], so that it is
    returned when [n_texts >= 1] and dropped when [n_texts <= 0]. *)
Lemma suggest_text_continuations (corpus' : list (list string)) (N : Z)
  (g : NGramLanguageModel.t) (wc : WordCompletor.t) (text : TextSuggestion.text_arg)
  (n_words n_texts : Z) :
  NGramLanguageModel.init corpus' N = Ok g ->
  let self := {| TextSuggestion.word_completor := wc; TextSuggestion.n_gram_model := g |} in
  let tokens :=
    match text with
    | TextSuggestion.Str s => split (strip s)
    | TextSuggestion.Tokens ts => ts
    end in
  (tokens = [] -> TextSuggestion.suggest_text self text n_words n_texts = Ok []) /\
  (tokens <> [] ->
   exists words probs,
     WordCompletor.get_words_and_probs wc (last tokens EmptyString) = Ok (words, probs) /\
     (words = [] -> TextSuggestion.suggest_text self text n_words n_texts = Ok []) /\
     (words <> [] ->
      exists rest,
        let continuation := nth (argmax probs) words EmptyString :: rest in
        List.length rest <= Z.to_nat n_words /\
        TextSuggestion.suggest_text self text n_words n_texts =
          Ok (slice_to [continuation] n_texts) /\
        ((1 <= n_texts)%Z -> slice_to [continuation] n_texts = [continuation]) /\
        ((n_texts <= 0)%Z -> slice_to [continuation] n_texts = []))).
Proof.
  intros Hinit self tokens. unfold TextSuggestion.suggest_text. fold tokens.
  split.
  - intros ->. reflexivity.
  - intros Htok. destruct tokens as [|t ts] eqn:Htokens; [contradiction|].
    rewrite <- Htokens. cbn [TextSuggestion.word_completor self].
    destruct (get_words_shape wc (last tokens EmptyString)) as [words [f [Hget _]]].
    exists words, (map f words). split; [exact Hget|].
    rewrite Hget. cbn [bind]. split.
    + intros ->. reflexivity.
    + intros Hwords. destruct words as [|w ws] eqn:Hw; [contradiction|].
      rewrite <- Hw.
      destruct (extend_total corpus' N g wc (Z.to_nat n_words) Hinit
                  [nth (argmax (map f words)) words EmptyString]
                  (removelast tokens ++ [nth (argmax (map f words)) words EmptyString]))
        as [ext [rest [Hext [Heq Hlen]]]].
      exists rest. cbv zeta. split; [exact Hlen|].
      fold self in Hext. rewrite Hext. cbn [bind]. rewrite Heq. simpl app.
      split; [reflexivity|]. split.
      * intros Hn. unfold slice_to.
        destruct (Z.ltb_spec n_texts 0); [lia|].
        destruct (Z.to_nat n_texts) eqn:Hk; [lia|]. simpl. now rewrite firstn_nil.
      * intros Hn. unfold slice_to.
        destruct (Z.ltb_spec n_texts 0).
        -- replace (Z.to_nat (Z.of_nat (List.length [nth (argmax (map f words)) words EmptyString :: rest]) + n_texts)) with 0 by (cbn [List.length]; lia).
           reflexivity.
        -- replace (Z.to_nat n_texts) with 0 by lia. reflexivity.
Qed.

(* ================================================================== *)
(** * Further properties of the code *)

(** ** core/ngram.py *)


(** X2. On a built model of order [N] and a token list of length at least [N],
    the query returns, without repetition, exactly the tokens that follow
    the last [N] tokens somewhere in the corpus, each with the number of
    positions where it follows them over the number of positions where
    they are followed by anything. *)
Theorem next_words_distribution (corpus : list (list string)) (N : Z)
  (g : NGramLanguageModel.t) (seq : list string) :
  NGramLanguageModel.init corpus N = Ok g ->
  (N <= Z.of_nat (List.length seq))%Z ->
  let ctx := skipn (List.length seq - Z.to_nat N) seq in
  exists words,
    NGramLanguageModel.get_next_words_and_probs g seq =
    Ok (words,
        map (fun w =>
               (inject_Z (Z.of_nat (Corpus.count_followed (Z.to_nat N) corpus ctx w))
                / inject_Z (Z.of_nat (Corpus.count_window (Z.to_nat N) corpus ctx)))%Q)
          words) /\
    NoDup words /\
    (forall w, In w words <-> 0 < Corpus.count_followed (Z.to_nat N) corpus ctx w).
Proof.
  intros Hinit Hlen ctx. pose proof (init_inv _ _ _ Hinit) as [HN _].
  rewrite (built_query corpus N g seq Hinit Hlen).
  rewrite slice_from_last by lia. fold ctx.
  destruct (Nat.ltb_spec 0 (Corpus.count_window (Z.to_nat N) corpus ctx)) as [Hpos|Hzero].
  - eexists. split; [|split].
    + f_equal. f_equal. apply map_ext. intros w.
      now rewrite counter_count_tally, followers_of_corpus.
    + apply NoDup_keys_tally.
    + intros w. rewrite dict_keys_tally, In_first_seen, occurrences_pos.
      now rewrite followers_of_corpus.
  - exists []. split; [reflexivity|]. split; [constructor|].
    intros w. pose proof (followed_le_window (Z.to_nat N) corpus ctx w).
    simpl. split; [tauto | lia].
Qed.

Lemma next_words_distribution_witness :
  exists g,
    NGramLanguageModel.init [["a"; "b"; "a"; "c"; "a"; "c"]] 1 = Ok g /\
    exists words,
      NGramLanguageModel.get_next_words_and_probs g ["x"; "a"] =
      Ok (words, map (fun w => (inject_Z (Z.of_nat (Corpus.count_followed 1
                                   [["a"; "b"; "a"; "c"; "a"; "c"]] ["a"] w))
                                / inject_Z 3)%Q) words) /\
      NoDup words.
Proof.
  eexists. split; [reflexivity|].
  destruct (next_words_distribution [["a"; "b"; "a"; "c"; "a"; "c"]] 1 _ ["x"; "a"]
              eq_refl) as [words [Hget [Hnd _]]].
  - discriminate.
  - exists words. split; [exact Hget | exact Hnd].
Defined.

(** ** core/trie.py *)

Lemma insert_from_stored (word : string) :
  forall node, stored node word = true -> PrefixTree.insert_from node word = node.
Proof.
  induction word as [|c word IH]; intros node Hs.
  - destruct node as [cs e]. rewrite stored_empty in Hs. simpl in *. now subst e.
  - rewrite insert_from_cons. cbv zeta. rewrite stored_cons in Hs.
    destruct (dict_get (PrefixTree.children node) c) as [child|] eqn:Hget;
      [|discriminate].
    rewrite (IH child Hs), (dict_setitem_same _ _ _ Hget). now destruct node.
Qed.

(** X3. Inserting a word a second time changes nothing, and neither does
    inserting a word the tree already stores. *)
Theorem insert_idempotent (self : PrefixTree.t) (word : string) :
  PrefixTree._insert (PrefixTree._insert self word) word = PrefixTree._insert self word /\
  (stored (PrefixTree.root self) word = true -> PrefixTree._insert self word = self).
Proof.
  unfold PrefixTree._insert. split.
  - cbn [PrefixTree.root]. f_equal. apply insert_from_stored.
    rewrite stored_insert_from. now rewrite String.eqb_refl.
  - intros Hs. rewrite (insert_from_stored word _ Hs). now destruct self.
Qed.

Lemma filter_all {A : Type} (f : A -> bool) (l : list A) :
  (forall x, In x l -> f x = true) -> filter f l = l.
Proof.
  induction l as [|x l IH]; intros H; simpl; [reflexivity|].
  rewrite (H x (or_introl eq_refl)). f_equal. apply IH. intros y Hy. apply H. now right.
Qed.

Lemma startswith_longer (pre : string) (c : ascii) (p : string) :
  startswith pre (pre ++ String c p)%string = false.
Proof.
  destruct (startswith pre (pre ++ String c p)%string) eqn:H; [|reflexivity].
  apply startswith_iff in H as [r Hr].
  apply (f_equal String.length) in Hr. rewrite !length_append in Hr. simpl in Hr. lia.
Qed.

Lemma startswith_other_child (pre : string) (c c' : ascii) (s p : string) :
  c' <> c -> startswith (pre ++ String c' s)%string (pre ++ String c p)%string = false.
Proof.
  intros Hne.
  destruct (startswith (pre ++ String c' s)%string (pre ++ String c p)%string) eqn:H;
    [|reflexivity].
  apply startswith_iff in H as [r Hr]. rewrite append_assoc in Hr.
  apply append_inv_head in Hr. simpl in Hr. congruence.
Qed.

(** The words below the node that a prefix leads to are the words below the
    starting node that begin with the prefix, in the same order. *)
Lemma filter_collect_words (p : string) :
  forall node pre,
    distinct_children node ->
    filter (fun w => startswith w (pre ++ p)%string)
      (PrefixTree._collect_words node pre []) =
    match PrefixTree.descend node p with
    | Some n => PrefixTree._collect_words n (pre ++ p)%string []
    | None => []
    end.
Proof.
  induction p as [|c p IH]; intros node pre Hd.
  - simpl PrefixTree.descend. rewrite append_empty_r. apply filter_all.
    intros w Hw. apply In_collect_words in Hw; [|exact Hd].
    destruct Hw as [s [-> _]]. apply startswith_iff. now exists s.
  - rewrite descend_cons. destruct Hd as [cs e Hnd Hch]. simpl PrefixTree.children.
    rewrite collect_words_node, filter_app.
    assert (Hself : filter (fun w => startswith w (pre ++ String c p)%string)
                      (if e then [pre] else []) = []).
    { destruct e; [|reflexivity]. simpl. now rewrite startswith_longer. }
    rewrite Hself. simpl app.
    assert (Hother : forall c' child,
              In (c', child) cs -> c' <> c ->
              filter (fun w => startswith w (pre ++ String c p)%string)
                (PrefixTree._collect_words child (pre ++ String c' "")%string []) = []).
    { intros c' child Hin Hne. apply filter_none. intros w Hw.
      apply In_collect_words in Hw; [|eauto]. destruct Hw as [s [-> _]].
      rewrite append_char. now apply startswith_other_child. }
    induction cs as [|[c' child] cs IHcs]; [reflexivity|].
    inversion Hnd as [|? ? Hc' Hnd']; subst.
    simpl flat_map. rewrite filter_app. simpl dict_get.
    unfold eqb_key, ascii_EqKey. destruct (Ascii.eqb c c') eqn:Hcc.
    + apply Ascii.eqb_eq in Hcc. subst c'.
      rewrite <- (append_char pre c p), IH by (apply (Hch c child); now left).
      rewrite filter_none; [now rewrite app_nil_r|].
      intros w Hw. apply in_flat_map in Hw as [[c'' child''] [Hin Hw]].
      assert (c'' <> c) as Hne.
      { intros ->. apply Hc'. apply in_map_iff. now exists (c, child''). }
      assert (In w (filter (fun w => startswith w ((pre ++ String c "") ++ p)%string)
                      (PrefixTree._collect_words child'' (pre ++ String c'' "")%string [])) ->
              False) as Hcontra.
      { rewrite append_char, Hother; [tauto | now right | exact Hne]. }
      destruct (startswith w ((pre ++ String c "") ++ p)%string) eqn:Hs; [|reflexivity].
      exfalso. apply Hcontra. apply filter_In. now split.
    + apply Ascii.eqb_neq in Hcc. rewrite Hother; [|now left | congruence].
      simpl app. apply IHcs.
      * exact Hnd'.
      * intros c0 child0 Hin0. apply (Hch c0 child0). now right.
      * intros c0 child0 Hin0. apply Hother. now right.
Qed.

(** X4. [search_prefix p] is the full traversal [search_prefix ""] restricted to
    the words that start with [p], in the same order: the prefix only
    selects, it does not reorder. *)
Theorem search_prefix_filter (order : list string) (p : string) :
  PrefixTree.search_prefix (PrefixTree.init order) p =
  filter (fun w => startswith w p)
    (PrefixTree.search_prefix (PrefixTree.init order) "").
Proof.
  unfold PrefixTree.search_prefix, PrefixTree.search_prefix_st.
  simpl PrefixTree.descend at 2. cbn [fst].
  pose proof (filter_collect_words p (PrefixTree.root (PrefixTree.init order)) ""
                (distinct_init order)) as H.
  simpl append in H. rewrite H.
  now destruct (PrefixTree.descend (PrefixTree.root (PrefixTree.init order)) p).
Qed.

(** ** core/word_completor.py *)

Section Retained.
Context {K : Type} {E : EqKey K} {O : EqKeyOk K}.

Lemma dict_get_filter {V : Type} (f : K * V -> bool) (d : dict K V) (k : K) :
  NoDup (dict_keys d) ->
  dict_get (filter f d) k =
  match dict_get d k with
  | Some v => if f (k, v) then Some v else None
  | None => None
  end.
Proof.
  induction d as [|[k' v'] d IH]; intros Hnd; simpl; [reflexivity|].
  inversion Hnd as [|? ? Hk' Hnd']; subst.
  destruct (eqb_key k k') eqn:Hk.
  - apply eqb_key_eq in Hk. subst k'.
    destruct (f (k, v')); simpl.
    + now rewrite eqb_key_refl.
    + rewrite (IH Hnd'). apply dict_get_None in Hk'. now rewrite Hk'.
  - destruct (f (k', v')); simpl; [rewrite Hk|]; now apply IH.
Qed.

Lemma sum_counts_absent (c : Counter K) (k : K) (v : Z) (ws : list K) :
  ~ In k ws ->
  map (counter_count ((k, v) :: c)) ws = map (counter_count c) ws.
Proof.
  intros Hk. apply map_ext_in. intros w Hw. rewrite !counter_count_unfold. simpl.
  destruct (eqb_key w k) eqn:Hwk; [|reflexivity].
  apply eqb_key_eq in Hwk. subst w. contradiction.
Qed.

Lemma sum_counts_cons (c : Counter K) (k : K) (v : Z) (ws : list K) :
  NoDup ws -> ~ In k (dict_keys c) -> (0 <= v)%Z ->
  (sum_Z (map (counter_count ((k, v) :: c)) ws) <= v + sum_Z (map (counter_count c) ws))%Z.
Proof.
  intros Hnd Hk Hv. induction ws as [|w ws IH]; simpl.
  - unfold sum_Z. simpl. lia.
  - inversion Hnd as [|? ? Hw Hnd']; subst. rewrite !sum_Z_cons.
    rewrite (counter_count_unfold ((k, v) :: c) w). simpl.
    destruct (eqb_key w k) eqn:Hwk.
    + apply eqb_key_eq in Hwk. subst w.
      rewrite sum_counts_absent by exact Hw.
      rewrite (counter_count_absent c k Hk). lia.
    + rewrite <- counter_count_unfold. specialize (IH Hnd'). lia.
Qed.

(** The counts of distinct words add up to no more than the total mass. *)
Lemma sum_counts_le (c : Counter K) (ws : list K) :
  NoDup ws -> NoDup (dict_keys c) ->
  (forall k v, In (k, v) c -> (0 <= v)%Z) ->
  (sum_Z (map (counter_count c) ws) <= sum_Z (dict_values c))%Z.
Proof.
  intros Hws. induction c as [|[k v] c IH]; intros Hnd Hpos.
  - assert (map (counter_count (@nil (K * Z))) ws = map (fun _ => 0%Z) ws) as ->
        by (apply map_ext; intros; reflexivity).
    clear. induction ws as [|w ws IH]; simpl; [lia|].
    rewrite sum_Z_cons. unfold dict_values in *. simpl in *. lia.
  - inversion Hnd as [|? ? Hk Hnd']; subst.
    pose proof (sum_counts_cons c k v ws Hws Hk (Hpos k v (or_introl eq_refl))) as H1.
    assert (sum_Z (map (counter_count c) ws) <= sum_Z (dict_values c))%Z as H2.
    { apply IH; [exact Hnd'|]. intros k' v' Hin. apply (Hpos k' v'). now right. }
    unfold dict_values in *. simpl map. rewrite sum_Z_cons. simpl fst in *. lia.
Qed.

Lemma sum_counts_nonneg (c : Counter K) (ws : list K) :
  NoDup (dict_keys c) ->
  (forall k v, In (k, v) c -> (0 <= v)%Z) ->
  (0 <= sum_Z (map (counter_count c) ws))%Z.
Proof.
  intros Hnd Hpos. induction ws as [|w ws IH]; simpl.
  - unfold sum_Z. simpl. lia.
  - rewrite sum_Z_cons. rewrite (counter_count_unfold c w).
    destruct (dict_get c w) as [v|] eqn:Hget; [|lia].
    apply dict_get_In in Hget. specialize (Hpos w v Hget). lia.
Qed.

End Retained.

Lemma ratio_bounds (s t : Z) :
  (0 <= s <= t)%Z -> (0 < t)%Z ->
  (0 <= inject_Z s / inject_Z t)%Q /\ (inject_Z s / inject_Z t <= 1)%Q.
Proof.
  intros Hs Ht. destruct t as [|p|p]; try lia.
  unfold Qle, Qdiv, Qmult, Qinv, inject_Z. simpl. lia.
Qed.

(** X5. A word is retained exactly when it occurs in the corpus and, if a
    threshold above 1 is given, occurs at least that often; a retained word
    keeps its number of occurrences as its count and a word that is not
    retained counts 0.  The total mass is the sum of the retained counts,
    which without threshold is the number of tokens of the corpus. *)
Theorem completor_counts (corpus : list (list string)) (min_freq : Z)
  (order : list string) (w : string) :
  let self := WordCompletor.init corpus min_freq order in
  let occ := Z.of_nat (occurrences w (List.concat corpus)) in
  let retained := (0 <? occ)%Z && ((min_freq <=? 1)%Z || (min_freq <=? occ)%Z) in
  (In w (dict_keys (WordCompletor.counter self)) <-> retained = true) /\
  counter_count (WordCompletor.counter self) w = (if retained then occ else 0%Z) /\
  WordCompletor.total_count self =
    sum_Z (map (counter_count (WordCompletor.counter self))
             (dict_keys (WordCompletor.counter self))) /\
  ((min_freq <= 1)%Z ->
   WordCompletor.total_count self = Z.of_nat (List.length (List.concat corpus))).
Proof.
  intros self occ retained.
  assert (Hget : dict_get (tally (List.concat corpus)) w =
                 if (0 <? occ)%Z then Some occ else None).
  { pose proof (counter_count_tally (List.concat corpus) w) as Hc.
    fold occ in Hc. rewrite counter_count_unfold in Hc.
    destruct (dict_get (tally (List.concat corpus)) w) as [v|] eqn:Hg.
    - subst v. apply dict_get_In in Hg.
      pose proof (tally_positive _ _ _ Hg).
      destruct (Z.ltb_spec 0 occ); [reflexivity | lia].
    - destruct (Z.ltb_spec 0 occ); [lia | reflexivity]. }
  assert (Hself : dict_get (WordCompletor.counter self) w =
                  if retained then Some occ else None).
  { unfold self. rewrite init_counter. subst retained.
    destruct (Z.ltb_spec 1 min_freq) as [Hthr|Hno].
    - rewrite dict_get_filter by apply NoDup_keys_tally. rewrite Hget.
      destruct (0 <? occ)%Z; [|reflexivity]. simpl.
      destruct (Z.leb_spec min_freq 1); [lia|]. reflexivity.
    - rewrite Hget. destruct (0 <? occ)%Z; [|reflexivity]. simpl.
      destruct (Z.leb_spec min_freq 1); [reflexivity | lia]. }
  split; [|split; [|split]].
  - rewrite <- dict_contains_In. unfold dict_contains. rewrite Hself.
    destruct retained; split; congruence.
  - rewrite counter_count_unfold, Hself. now destruct retained.
  - unfold self. rewrite init_total_count, values_count by apply init_NoDup_keys.
    reflexivity.
  - intros Hno. unfold self. rewrite init_total_count, init_counter.
    destruct (Z.ltb_spec 1 min_freq); [lia|]. apply sum_values_tally.
Qed.

(** X6. The counts of the words a query returns add up to at most
    [total_count], and to exactly [total_count] for the empty prefix on a
    non-empty vocabulary; each returned probability is the quotient of the
    word's count by [total_count], which is positive whenever a word is
    returned.  Hence, as exact rationals (before the rounding to floats),
    the probabilities add up to a value between 0 and 1, and to exactly 1
    for the empty prefix on a non-empty vocabulary. *)
Theorem completor_probs_sum (corpus : list (list string)) (min_freq : Z)
  (order : list string) (prefix : string) :
  let self := WordCompletor.init corpus min_freq order in
  let count := counter_count (WordCompletor.counter self) in
  exists words probs,
    WordCompletor.get_words_and_probs self prefix = Ok (words, probs) /\
    (0 <= sum_Z (map count words) <= WordCompletor.total_count self)%Z /\
    (words <> [] ->
     (0 < WordCompletor.total_count self)%Z /\
     probs = map (fun w => (inject_Z (count w)
                            / inject_Z (WordCompletor.total_count self))%Q) words) /\
    (0 <= sum_Q probs)%Q /\ (sum_Q probs <= 1)%Q /\
    (prefix = "" -> dict_keys (WordCompletor.counter self) <> [] ->
     words = dict_keys (WordCompletor.counter self) /\
     sum_Z (map count words) = WordCompletor.total_count self /\
     (sum_Q probs == 1)%Q).
Proof.
  intros self count.
  pose proof (get_words_and_probs_value self prefix) as Hv. cbv zeta in Hv.
  remember (match prefix with
            | "" => dict_keys (WordCompletor.counter self)
            | _ => PrefixTree.search_prefix (WordCompletor.prefix_tree self) prefix
            end) as words0 eqn:Hwords0.
  assert (Hnd : NoDup words0).
  { subst words0. destruct prefix; [apply init_NoDup_keys | apply NoDup_search_prefix]. }
  assert (Hpos : forall k v, In (k, v) (WordCompletor.counter self) -> (0 <= v)%Z).
  { intros k v Hin. apply init_positive in Hin. lia. }
  assert (Htot : WordCompletor.total_count self =
                 sum_Z (dict_values (WordCompletor.counter self)))
    by apply init_total_count.
  assert (Htot0 : (0 <= WordCompletor.total_count self)%Z).
  { rewrite Htot. rewrite <- values_count by apply init_NoDup_keys.
    apply sum_counts_nonneg; [apply init_NoDup_keys | exact Hpos]. }
  assert (Hempty :
            WordCompletor.get_words_and_probs self prefix = Ok ([], []) ->
            (prefix = "" -> dict_keys (WordCompletor.counter self) = []) ->
            exists words probs,
              WordCompletor.get_words_and_probs self prefix = Ok (words, probs) /\
              (0 <= sum_Z (map count words) <= WordCompletor.total_count self)%Z /\
              (words <> [] ->
               (0 < WordCompletor.total_count self)%Z /\
               probs = map (fun w => (inject_Z (count w)
                                      / inject_Z (WordCompletor.total_count self))%Q)
                         words) /\
              (0 <= sum_Q probs)%Q /\ (sum_Q probs <= 1)%Q /\
              (prefix = "" -> dict_keys (WordCompletor.counter self) <> [] ->
               words = dict_keys (WordCompletor.counter self) /\
               sum_Z (map count words) = WordCompletor.total_count self /\
               (sum_Q probs == 1)%Q)).
  { intros Hget Hk. exists [], []. split; [exact Hget|].
    split; [change (sum_Z (map count [])) with 0%Z; lia|].
    split; [intros Hne; now contradiction Hne|].
    split; [discriminate|]. split; [discriminate|].
    intros Hp Hkeys. now apply Hk in Hp. }
  destruct (Z.eqb_spec (WordCompletor.total_count self) 0) as [Hz|Hnz].
  - rewrite orb_true_r in Hv. apply (Hempty Hv).
    intros _. apply init_total_zero in Hz. fold self in Hz. now rewrite Hz.
  - rewrite orb_false_r in Hv.
    assert (Hcases : words0 = [] \/ words0 <> [])
      by (destruct words0; [left | right]; congruence).
    destruct Hcases as [Hnil|Hne].
    { rewrite Hnil in Hv. apply (Hempty Hv).
      intros ->. now rewrite <- Hwords0. }
    assert (Hmatch : match words0 with [] => true | _ :: _ => false end = false)
      by (destruct words0; congruence).
    rewrite Hmatch in Hv. clear Hempty Hmatch.
    assert (Hsum : (sum_Q (map (fun w => inject_Z (counter_count (WordCompletor.counter self) w)
                                         / inject_Z (WordCompletor.total_count self)) words0)
                    == inject_Z (sum_Z (map (counter_count (WordCompletor.counter self)) words0))
                       / inject_Z (WordCompletor.total_count self))%Q).
    { rewrite <- (map_map (counter_count (WordCompletor.counter self))
                    (fun z => (inject_Z z / inject_Z (WordCompletor.total_count self))%Q)).
      now apply sum_Q_ratios. }
    pose proof (sum_counts_le (WordCompletor.counter self) words0 Hnd
                  (init_NoDup_keys corpus min_freq order) Hpos) as Hle.
    pose proof (sum_counts_nonneg (WordCompletor.counter self) words0
                  (init_NoDup_keys corpus min_freq order) Hpos) as Hge.
    assert (0 < WordCompletor.total_count self)%Z as Htpos by lia.
    destruct (ratio_bounds
                (sum_Z (map (counter_count (WordCompletor.counter self)) words0))
                (WordCompletor.total_count self)) as [Hb0 Hb1]; [lia | exact Htpos|].
    exists words0,
      (map (fun w => (inject_Z (counter_count (WordCompletor.counter self) w)
                      / inject_Z (WordCompletor.total_count self))%Q) words0).
    split; [exact Hv|].
    split; [unfold count; lia|].
    split; [intros _; split; [exact Htpos | reflexivity]|].
    split; [now rewrite Hsum|]. split; [now rewrite Hsum|].
    intros -> _. subst words0. split; [reflexivity|]. split.
    + unfold count. rewrite values_count by apply init_NoDup_keys. now rewrite Htot.
    + apply sum_Q_probs.
      * apply init_NoDup_keys.
      * exact Hnz.
      * now rewrite Htot.
Qed.

(** ** app/state.py: ranking *)

Section RankingOrder.

Lemma Qlt_bool_opp_true (p q : Q) : Qlt_bool (- q) (- p) = true -> (p <= q)%Q.
Proof.
  unfold Qlt_bool. rewrite negb_true_iff. intros H.
  destruct (Qlt_le_dec p q) as [Hlt|Hle]; [now apply Qlt_le_weak|].
  apply Qopp_le_compat in Hle. apply Qle_bool_iff in Hle. congruence.
Qed.

Lemma Qlt_bool_opp_false (p q : Q) : Qlt_bool (- q) (- p) = false -> (q <= p)%Q.
Proof.
  unfold Qlt_bool. rewrite negb_false_iff. intros H. apply Qle_bool_iff in H.
  apply Qopp_le_compat in H. now rewrite !Qopp_involutive in H.
Qed.

Lemma Qlt_bool_opp_strict (p q : Q) : Qlt_bool (- q) (- p) = true -> ~ (p == q)%Q.
Proof.
  unfold Qlt_bool. rewrite negb_true_iff. intros H Heq.
  assert (- p <= - q)%Q as Hle by (rewrite Heq; apply Qle_refl).
  apply Qle_bool_iff in Hle. congruence.
Qed.

Lemma descending_insert (x : string * Q) (xs : list (string * Q)) :
  descending (map snd xs) ->
  descending (map snd (sorted_insert Qlt_bool (fun y : string * Q => (- snd y)%Q) x xs)).
Proof.
  induction xs as [|y ys IH]; intros Hd; simpl.
  - split; [intros q [] | exact I].
  - destruct Hd as [Hy Hys].
    destruct (Qlt_bool (- snd y) (- snd x)) eqn:Hlt; simpl.
    + split; [|now apply IH].
      intros q Hq. apply in_map_iff in Hq as [z [<- Hz]].
      apply (Permutation_in _ (sorted_insert_perm _ _ x ys)) in Hz.
      destruct Hz as [<-|Hz]; [now apply Qlt_bool_opp_true|].
      apply Hy. now apply in_map.
    + apply Qlt_bool_opp_false in Hlt. split; [|split; assumption].
      intros q [<-|Hq]; [exact Hlt|].
      eapply Qle_trans; [apply Hy; exact Hq | exact Hlt].
Qed.

Lemma stable_insert (q : Q) (x : string * Q) (xs : list (string * Q)) :
  filter (fun y => Qeq_bool (snd y) q)
    (sorted_insert Qlt_bool (fun y : string * Q => (- snd y)%Q) x xs) =
  filter (fun y => Qeq_bool (snd y) q) (x :: xs).
Proof.
  induction xs as [|y ys IH]; [reflexivity|].
  simpl sorted_insert. destruct (Qlt_bool (- snd y) (- snd x)) eqn:Hlt; [|reflexivity].
  simpl filter at 1. rewrite IH. simpl.
  destruct (Qeq_bool (snd y) q) eqn:Hy; destruct (Qeq_bool (snd x) q) eqn:Hx;
    try reflexivity.
  apply Qeq_bool_iff in Hy, Hx. apply Qlt_bool_opp_strict in Hlt.
  exfalso. apply Hlt. now rewrite Hx, Hy.
Qed.

End RankingOrder.

(** X7. The ranking [sorted(zip(words, probs), key=lambda x: -x[1])] rearranges
    the candidates into descending order of probability and keeps
    candidates of equal probability in the order they came in. *)
Theorem ranked_by_prob_stable (words : list string) (probs : list Q) :
  let ranked := State.ranked_by_prob words probs in
  Permutation ranked (combine words probs) /\
  descending (map snd ranked) /\
  (forall q, filter (fun y => Qeq_bool (snd y) q) ranked =
             filter (fun y => Qeq_bool (snd y) q) (combine words probs)).
Proof.
  unfold State.ranked_by_prob, sorted.
  induction (combine words probs) as [|x xs [IHp [IHd IHs]]]; simpl.
  - repeat split. constructor.
  - split; [|split].
    + rewrite sorted_insert_perm. now constructor.
    + now apply descending_insert.
    + intros q. rewrite stable_insert. simpl. now rewrite IHs.
Qed.

(** ** app/state.py: the suggestion list *)

Section Bounds.
Import State.

Lemma append_new_keeps (ws acc : list string) (x : string) :
  In x acc -> In x (append_new acc ws).
Proof.
  intros Hx. destruct (append_new_extends ws acc) as [rest ->].
  apply in_or_app. now left.
Qed.

Lemma append_new_exhausts (ws acc : list string) :
  List.length acc < 3 -> List.length (append_new acc ws) < 3 ->
  forall w, In w ws -> In w (append_new acc ws).
Proof.
  revert acc. induction ws as [|x ws IH]; intros acc Hacc Hlen w Hw; [contradiction|].
  simpl in *. destruct (list_in x acc) eqn:Hin; simpl in *.
  - destruct Hw as [<-|Hw]; [|now apply IH].
    apply append_new_keeps. now apply list_in_In.
  - destruct (Nat.eqb_spec (List.length (acc ++ [x])) 3) as [Heq|Hne]; [lia|].
    assert (List.length (acc ++ [x]) < 3) as Hacc'
        by (rewrite length_app in *; simpl in *; lia).
    destruct Hw as [<-|Hw]; [|now apply IH].
    apply append_new_keeps. apply in_or_app. right. now left.
Qed.

Lemma backfill_bounds corpus min_freq order (g : NGramLanguageModel.t)
  (existing : list string) :
  NoDup existing ->
  exists filled rest,
    backfill_suggestions
      {| _word_completor := WordCompletor.init corpus min_freq order;
         _ngram_model := g |} existing = Ok filled /\
    filled = firstn 3 existing ++ rest /\
    NoDup filled /\ List.length filled <= 3 /\
    (List.length filled < 3 ->
     forall w,
       In w (dict_keys (WordCompletor.counter (WordCompletor.init corpus min_freq order))) ->
       In w filled).
Proof.
  intros Hnd. unfold backfill_suggestions. cbn [_word_completor].
  destruct (Nat.leb_spec 3 (List.length existing)) as [Hge|Hlt].
  - exists (firstn 3 existing), []. rewrite slice_to_3, app_nil_r.
    split; [reflexivity|]. split; [reflexivity|].
    split; [now apply NoDup_firstn|].
    rewrite length_firstn. split; lia.
  - set (wc := WordCompletor.init corpus min_freq order).
    pose proof (get_words_and_probs_value wc "") as Hv. cbv zeta in Hv.
    assert (Hranked : exists ranked,
              (' (all_words, all_probs) <- WordCompletor.get_words_and_probs wc "" ;;
               Ok (append_new existing (map fst (ranked_by_prob all_words all_probs)))) =
              Ok (append_new existing ranked) /\
              forall w, In w (dict_keys (WordCompletor.counter wc)) -> In w ranked).
    { destruct (_ || _) eqn:Hcond in Hv.
      - rewrite Hv. cbn [bind]. eexists. split; [reflexivity|].
        intros w Hw. exfalso. apply orb_true_iff in Hcond as [Hk|Ht].
        + destruct (dict_keys (WordCompletor.counter wc)); [contradiction | discriminate].
        + apply Z.eqb_eq in Ht. apply init_total_zero in Ht. fold wc in Ht.
          rewrite Ht in Hw. contradiction.
      - rewrite Hv. cbn [bind]. eexists. split; [reflexivity|].
        intros w Hw. eapply Permutation_in; [symmetry; apply ranked_words | exact Hw]. }
    destruct Hranked as [ranked [Heq Hall]]. rewrite Heq.
    destruct (append_new_extends ranked existing) as [rest Hrest].
    exists (append_new existing ranked), rest.
    rewrite (firstn_all2 (n := 3) existing) by lia.
    split; [reflexivity|]. split; [exact Hrest|].
    split; [now apply NoDup_append_new|].
    split; [now apply length_append_new_le|].
    intros Hshort w Hw. apply append_new_exhausts; auto.
Qed.

End Bounds.

(** X8. With a built word completor and a built n-gram model, [update_text]
    does not raise on any buffer: it stores the buffer and yields at most
    three suggestions without duplicates; none, with an empty ghost suffix,
    for a blank buffer; and for a non-blank buffer fewer than three only
    when every word of the retained vocabulary is among them. *)
Theorem update_text_bounds (corpus : list (list string)) (min_freq : Z)
  (order : list string) (corpus' : list (list string)) (N : Z)
  (g : NGramLanguageModel.t) (st : State.t) (value : string) :
  let wc := WordCompletor.init corpus min_freq order in
  NGramLanguageModel.init corpus' N = Ok g ->
  exists st',
    State.update_text {| State._word_completor := wc; State._ngram_model := g |} st value
    = Ok st' /\
    State.text st' = value /\
    List.length (State.suggestions st') <= 3 /\
    NoDup (State.suggestions st') /\
    (lstrip value = "" -> State.suggestions st' = [] /\ State.ghost_suffix st' = "") /\
    (lstrip value <> "" -> List.length (State.suggestions st') < 3 ->
     forall w, In w (dict_keys (WordCompletor.counter wc)) -> In w (State.suggestions st')).
Proof.
  intros wc Hinit. subst wc.
  destruct (lstrip value) eqn:Hblank.
  { unfold State.update_text. rewrite Hblank. eexists. split; [reflexivity|].
    cbn [State.text State.suggestions State.ghost_suffix].
    split; [reflexivity|]. split; [simpl; lia|]. split; [constructor|].
    split; [intros _; split; reflexivity|].
    intros Hne. exfalso. apply Hne. reflexivity. }
  assert (Hnb : lstrip value <> "") by (rewrite Hblank; discriminate).
  rewrite <- Hblank in *. clear Hblank.
  assert (Hfinish : forall padded ghost,
    NoDup padded ->
    exists st',
      (suggestions <- State.backfill_suggestions
                        {| State._word_completor := WordCompletor.init corpus min_freq order;
                           State._ngram_model := g |} padded ;;
       Ok {| State.text := value;
             State.suggestions := suggestions;
             State.ghost_suffix := ghost suggestions |}) = Ok st' /\
      State.text st' = value /\
      List.length (State.suggestions st') <= 3 /\
      NoDup (State.suggestions st') /\
      (lstrip value = "" -> State.suggestions st' = [] /\ State.ghost_suffix st' = "") /\
      (lstrip value <> "" -> List.length (State.suggestions st') < 3 ->
       forall w,
         In w (dict_keys (WordCompletor.counter (WordCompletor.init corpus min_freq order))) ->
         In w (State.suggestions st'))).
  { intros padded ghost Hnd.
    destruct (backfill_bounds corpus min_freq order g padded Hnd)
      as [filled [rest [Hfill [_ [Hnd' [Hlen Hall]]]]]].
    rewrite Hfill. cbn [bind]. eexists. split; [reflexivity|].
    cbn [State.text State.suggestions State.ghost_suffix].
    split; [reflexivity|]. split; [exact Hlen|]. split; [exact Hnd'|].
    split; [contradiction|]. intros _. exact Hall. }
  destruct (str_isspace (last_char value)) eqn:Hsp.
  - rewrite update_text_space by assumption.
    destruct (next_words_NoDup corpus' N g
                (WordCompletor.init corpus min_freq order) (split (lstrip value)) Hinit)
      as [next_words [Hnext Hnd]].
    rewrite Hnext. cbn [bind].
    apply (Hfinish (slice_to next_words 3)
             (fun suggestions => match suggestions with s :: _ => s | [] => "" end)).
    rewrite slice_to_3. now apply NoDup_firstn.
  - rewrite update_text_word by assumption. cbv zeta. cbn [State._word_completor].
    destruct (get_words_NoDup corpus min_freq order (last (split (lstrip value)) ""))
      as [words [f [Hget Hnd]]].
    rewrite Hget. cbn [bind].
    assert (Hcompl : NoDup (map fst (slice_to (State.ranked_by_prob words (map f words)) 3))).
    { rewrite slice_to_3, <- firstn_map. apply NoDup_firstn.
      eapply Permutation_NoDup; [symmetry; apply ranked_words | exact Hnd]. }
    set (completions := map fst (slice_to (State.ranked_by_prob words (map f words)) 3))
      in *.
    destruct (Nat.ltb (List.length completions) 3).
    + destruct (next_words_NoDup corpus' N g
                  (WordCompletor.init corpus min_freq order) (split (lstrip value)) Hinit)
        as [next_words [Hnext _]].
      rewrite Hnext. cbn [bind].
      apply (Hfinish (State.append_new completions next_words)
               (fun suggestions =>
                  match suggestions with
                  | best :: _ =>
                      if startswith best (last (split (lstrip value)) "")
                      then str_from best (String.length (last (split (lstrip value)) ""))
                      else best
                  | [] => ""
                  end)).
      now apply NoDup_append_new.
    + cbn [bind].
      apply (Hfinish completions
               (fun suggestions =>
                  match suggestions with
                  | best :: _ =>
                      if startswith best (last (split (lstrip value)) "")
                      then str_from best (String.length (last (split (lstrip value)) ""))
                      else best
                  | [] => ""
                  end)).
      exact Hcompl.
Qed.

Lemma update_text_bounds_witness :
  exists g st',
    NGramLanguageModel.init [["a"; "b"]] 1 = Ok g /\
    State.update_text
      {| State._word_completor := WordCompletor.init [["a"; "b"]] 1 ["b"; "a"];
         State._ngram_model := g |}
      {| State.text := ""; State.suggestions := []; State.ghost_suffix := "" |} "a "
    = Ok st' /\
    List.length (State.suggestions st') <= 3 /\ NoDup (State.suggestions st').
Proof.
  eexists.
  destruct (update_text_bounds [["a"; "b"]] 1 ["b"; "a"] [["a"; "b"]] 1
              {| NGramLanguageModel.n := 1;
                 NGramLanguageModel.next_counts := [(["a"], [("b", 1%Z)])];
                 NGramLanguageModel.context_totals := [(["a"], 1%Z)] |}
              {| State.text := ""; State.suggestions := []; State.ghost_suffix := "" |}
              "a " eq_refl) as [st' [Hst [_ [Hlen [Hnd _]]]]].
  exists st'. split; [reflexivity|]. split; [exact Hst|]. split; assumption.
Defined.

(* ================================================================== *)
(** ** Splitting and joining *)

Section Tokens.
Local Open Scope string_scope.

Lemma no_space_append (a b : string) : no_space (a ++ b) = no_space a && no_space b.
Proof.
  induction a as [|c a IH]; simpl; [reflexivity|]. now rewrite IH, andb_assoc.
Qed.

Lemma is_token_no_space (w : string) : is_token w = true -> no_space w = true.
Proof. destruct w; [discriminate | tauto]. Qed.

Lemma is_token_nonempty (w : string) : is_token w = true -> w <> "".
Proof. destruct w; [discriminate | discriminate]. Qed.

Lemma split_from_tokens (s : string) :
  forall cur w,
    no_space cur = true -> In w (split_from cur s) -> is_token w = true.
Proof.
  induction s as [|c s IH]; intros cur w Hcur Hw; simpl in Hw.
  - destruct cur; [contradiction|]. destruct Hw as [<-|[]]. exact Hcur.
  - destruct (isspace c) eqn:Hc.
    + destruct cur.
      * now apply (IH "" w).
      * destruct Hw as [<-|Hw]; [exact Hcur | now apply (IH "" w)].
    + apply (IH (cur ++ String c "") w); [|exact Hw].
      rewrite no_space_append, Hcur. simpl. now rewrite Hc.
Qed.

Lemma split_tokens (s w : string) : In w (split s) -> is_token w = true.
Proof. now apply split_from_tokens. Qed.

Lemma split_from_clean (w : string) :
  forall cur r, no_space w = true -> split_from cur (w ++ r) = split_from (cur ++ w) r.
Proof.
  induction w as [|c w IH]; intros cur r Hw; simpl in *.
  - now rewrite append_empty_r.
  - apply andb_true_iff in Hw as [Hc Hw]. apply negb_true_iff in Hc. rewrite Hc.
    rewrite IH by exact Hw. now rewrite append_char.
Qed.

Lemma split_from_space (cur : string) (c : ascii) (r : string) :
  isspace c = true ->
  split_from cur (String c r) =
  (match cur with "" => [] | _ => [cur] end ++ split r)%list.
Proof. intros Hc. simpl. rewrite Hc. now destruct cur. Qed.

Lemma split_token_space (w r : string) :
  is_token w = true -> split (w ++ String " " r) = w :: split r.
Proof.
  intros Hw. unfold split at 1.
  rewrite split_from_clean by now apply is_token_no_space.
  simpl append. rewrite split_from_space by reflexivity.
  destruct w; [discriminate | reflexivity].
Qed.

Lemma split_token (w : string) : is_token w = true -> split w = [w].
Proof.
  intros Hw. unfold split. rewrite <- (append_empty_r w) at 1.
  rewrite split_from_clean by now apply is_token_no_space.
  simpl. destruct w; [discriminate | reflexivity].
Qed.

Lemma split_join (parts : list string) :
  Forall (fun w => is_token w = true) parts -> split (join " " parts) = parts.
Proof.
  unfold join. induction 1 as [|p parts Hp Hparts IH]; [reflexivity|].
  destruct parts as [|q parts].
  - simpl. now apply split_token.
  - change (String.concat " " (p :: q :: parts))
      with (p ++ String " " (String.concat " " (q :: parts))).
    rewrite split_token_space by exact Hp. now rewrite IH.
Qed.

Lemma split_join_space (parts : list string) :
  Forall (fun w => is_token w = true) parts -> split (join " " parts ++ " ") = parts.
Proof.
  unfold join. induction 1 as [|p parts Hp Hparts IH]; [reflexivity|].
  destruct parts as [|q parts].
  - simpl String.concat. rewrite split_token_space by exact Hp. reflexivity.
  - change (String.concat " " (p :: q :: parts))
      with (p ++ String " " (String.concat " " (q :: parts))).
    rewrite append_assoc.
    change (String " " (String.concat " " (q :: parts)) ++ " ")
      with (String " " (String.concat " " (q :: parts) ++ " ")).
    rewrite split_token_space by exact Hp. now rewrite IH.
Qed.

Lemma split_from_cons (cur : string) (c : ascii) (r : string) :
  split_from cur (String c r) =
  if isspace c then
    match cur with
    | "" => split_from "" r
    | _ => cur :: split_from "" r
    end
  else split_from (cur ++ String c "") r.
Proof. reflexivity. Qed.

Lemma split_app_space (s : string) :
  forall cur t,
    str_isspace (last_char s) = true ->
    split_from cur (s ++ t) = (split_from cur s ++ split t)%list.
Proof.
  induction s as [|c s IH]; intros cur t Hs; [discriminate|].
  destruct s as [|c' s].
  - simpl in Hs. simpl append. rewrite !split_from_space by exact Hs.
    change (split "") with (@nil string). now rewrite app_nil_r.
  - change (last_char (String c (String c' s))) with (last_char (String c' s)) in Hs.
    change (String c (String c' s) ++ t) with (String c (String c' s ++ t)).
    rewrite (split_from_cons cur c (String c' s ++ t)),
      (split_from_cons cur c (String c' s)).
    destruct (isspace c).
    + destruct cur; rewrite IH by exact Hs; reflexivity.
    + now apply IH.
Qed.

(** *** Stripping *)

Lemma rstrip_blank (r : string) :
  rstrip r = "" -> forall cur, split_from cur r = split_from cur "".
Proof.
  induction r as [|c r IH]; intros Hr cur; [reflexivity|].
  simpl in Hr. destruct (rstrip r) eqn:Hrr; [|discriminate].
  destruct (isspace c) eqn:Hc; [|discriminate].
  rewrite split_from_space by exact Hc. unfold split. rewrite (IH eq_refl "").
  simpl. now destruct cur.
Qed.

Lemma split_rstrip (s : string) : forall cur, split_from cur (rstrip s) = split_from cur s.
Proof.
  induction s as [|c s IH]; intros cur; [reflexivity|].
  simpl rstrip. destruct (rstrip s) as [|d r'] eqn:Hr.
  - destruct (isspace c) eqn:Hc.
    + symmetry. apply rstrip_blank. simpl. now rewrite Hr, Hc.
    + simpl. rewrite Hc. simpl. rewrite (rstrip_blank s Hr). reflexivity.
  - simpl. destruct (isspace c); [destruct cur|]; now rewrite <- IH.
Qed.

Lemma last_char_shape (s : string) :
  s <> "" -> exists c, last_char s = String c "".
Proof.
  induction s as [|c s IH]; intros Hs; [contradiction|].
  destruct s as [|c' s]; [now exists c|].
  apply IH. discriminate.
Qed.

Lemma last_char_append (s : string) (c : ascii) : last_char (s ++ String c "") = String c "".
Proof.
  induction s as [|d s IH]; [reflexivity|].
  simpl append. destruct (s ++ String c "") eqn:Hs; [|exact IH].
  destruct s; discriminate.
Qed.

Lemma mid_word_isspace (s : string) :
  s <> "" -> str_isspace (last_char s) = negb (mid_word s).
Proof.
  intros Hs. unfold mid_word. destruct (last_char_shape s Hs) as [c ->].
  simpl. now rewrite negb_involutive.
Qed.

Lemma mid_word_nonempty (s : string) : mid_word s = true -> s <> "".
Proof. intros H ->. discriminate. Qed.

Lemma mid_word_lstrip (s : string) : mid_word s = true -> lstrip s <> "".
Proof.
  induction s as [|c s IH]; [discriminate|].
  intros Hm. simpl. destruct (isspace c) eqn:Hc; [|discriminate].
  destruct s as [|c' s].
  - unfold mid_word in Hm. simpl in Hm. rewrite Hc in Hm. discriminate.
  - apply IH. exact Hm.
Qed.

Lemma mid_word_rstrip (s : string) : mid_word s = true -> rstrip s <> "".
Proof.
  intros Hm Hr. pose proof (rstrip_blank s Hr "") as Hsplit.
  apply mid_word_lstrip in Hm. apply lstrip_nonblank in Hm.
  apply Hm. exact Hsplit.
Qed.

Lemma In_removelast {A : Type} (l : list A) (x : A) : In x (removelast l) -> In x l.
Proof.
  induction l as [|y l IH]; [tauto|].
  simpl. destruct l as [|z l]; [tauto|].
  intros [->|H]; [now left | right; now apply IH].
Qed.

Lemma In_last {A : Type} (l : list A) (d : A) : l <> [] -> In (last l d) l.
Proof.
  induction l as [|y l IH]; [contradiction|].
  intros _. destruct l as [|z l]; [now left|].
  right. apply IH. discriminate.
Qed.

End Tokens.

(** ** core/preprocessing.py *)

(** X9. Every token that [tokenize] returns is non-empty and free of
    whitespace; there is none exactly when the text is blank; and a text
    that is such tokens joined by single spaces is tokenized back into
    them. *)
Theorem tokenize_tokens (text : string) :
  (forall w, In w (Preprocessing.tokenize text) -> is_token w = true) /\
  (Preprocessing.tokenize text = [] <-> lstrip text = "") /\
  (forall parts,
      Forall (fun w => is_token w = true) parts ->
      Preprocessing.tokenize (join " " parts) = parts).
Proof.
  assert (Htok : Preprocessing.tokenize text = split text) by now destruct text.
  split; [|split].
  - intros w. rewrite Htok. apply split_tokens.
  - rewrite Htok. pose proof (lstrip_nonblank text) as H.
    destruct (split text) eqn:Hs; destruct (lstrip text) eqn:Hl; split; intros;
      try reflexivity; try discriminate.
    + exfalso. apply (proj2 H); [discriminate | reflexivity].
    + exfalso. apply (proj1 H); [discriminate | reflexivity].
  - intros parts Hparts.
    assert (Preprocessing.tokenize (join " " parts) = split (join " " parts)) as ->
        by now destruct (join " " parts).
    now apply split_join.
Qed.

(* ================================================================== *)
(** ** app/state.py: a word in progress *)

Section MidWord.
Import State.

Lemma ranked_descending_probs (words : list string) (probs : list Q) :
  descending (map snd (ranked_by_prob words probs)).
Proof.
  unfold ranked_by_prob, sorted.
  induction (combine words probs) as [|x xs IH]; simpl; [exact I|].
  now apply descending_insert.
Qed.

Lemma In_combine_map {A B : Type} (f : A -> B) (l : list A) (a : A) (b : B) :
  In (a, b) (combine l (map f l)) <-> In a l /\ b = f a.
Proof.
  induction l as [|x l IH]; simpl; [tauto|].
  rewrite IH. split.
  - intros [[= -> ->]|[Ha Hb]]; auto.
  - intros [[->|Ha] ->]; auto.
Qed.

Lemma ratio_le_counts (a b t : Z) :
  (0 < t)%Z -> (inject_Z a / inject_Z t <= inject_Z b / inject_Z t)%Q -> (a <= b)%Z.
Proof.
  intros Ht H. destruct t as [|p|p]; try lia.
  unfold Qle, Qdiv, Qmult, Qinv, inject_Z in H. simpl in H. nia.
Qed.

Lemma init_keys_order corpus min_freq order :
  set_iteration (dict_keys (WordCompletor.counter (WordCompletor.init corpus min_freq order)))
    order ->
  WordCompletor.total_count (WordCompletor.init corpus min_freq order) = 0%Z ->
  order = [].
Proof.
  intros [_ Hset] Hz. apply init_total_zero in Hz. rewrite Hz in Hset.
  destruct order as [|w order]; [reflexivity|].
  exfalso. apply (Hset w). now left.
Qed.

(** What [update_text] does in the middle of a word that has completions:
    the candidates are ranked and the first of the ranking comes first in
    the suggestions. *)
Lemma midword_shape corpus min_freq order corpus' (N : Z)
  (g : NGramLanguageModel.t) (st : t) (value : string) :
  let wc := WordCompletor.init corpus min_freq order in
  let f := fun w => (inject_Z (counter_count (WordCompletor.counter wc) w)
                     / inject_Z (WordCompletor.total_count wc))%Q in
  let prefix := last (split value) "" in
  let words := PrefixTree.search_prefix (PrefixTree.init order) prefix in
  set_iteration (dict_keys (WordCompletor.counter wc)) order ->
  NGramLanguageModel.init corpus' N = Ok g ->
  mid_word value = true ->
  words <> [] ->
  is_token prefix = true /\
  (0 < WordCompletor.total_count wc)%Z /\
  exists best tail rest,
    ranked_by_prob words (map f words) = (best, f best) :: tail /\
    In best words /\
    update_text {| _word_completor := wc; _ngram_model := g |} st value =
    Ok {| text := value;
          suggestions := best :: rest;
          ghost_suffix := if startswith best prefix
                          then str_from best (String.length prefix)
                          else best |}.
Proof.
  intros wc f prefix words Hset Hinit Hmid Hwords.
  pose proof (mid_word_lstrip value Hmid) as Hnb.
  assert (Hsp : str_isspace (last_char value) = false).
  { rewrite mid_word_isspace by now apply mid_word_nonempty. now rewrite Hmid. }
  assert (Htok : is_token prefix = true).
  { apply (split_tokens value). apply In_last. now apply lstrip_nonblank. }
  assert (Htot : WordCompletor.total_count wc <> 0%Z).
  { intros Hz. apply (init_keys_order corpus min_freq order Hset) in Hz.
    apply Hwords. subst words. rewrite Hz.
    destruct (PrefixTree.search_prefix (PrefixTree.init []) prefix) as [|w ws] eqn:Hres;
      [reflexivity|].
    assert (In w (PrefixTree.search_prefix (PrefixTree.init []) prefix)) as Hw
        by (rewrite Hres; now left).
    apply In_search_prefix in Hw as [[] _]. }
  split; [exact Htok|]. split.
  { pose proof (init_total_count corpus min_freq order) as Hsum. fold wc in Hsum.
    assert (0 <= sum_Z (dict_values (WordCompletor.counter wc)))%Z.
    { rewrite <- values_count by apply init_NoDup_keys.
      apply sum_counts_nonneg; [apply init_NoDup_keys|].
      intros k v Hin. apply init_positive in Hin. lia. }
    lia. }
  assert (Hget : WordCompletor.get_words_and_probs wc prefix = Ok (words, map f words)).
  { rewrite get_words_and_probs_value. cbv zeta.
    destruct prefix as [|c p] eqn:Hp; [discriminate|].
    change (PrefixTree.search_prefix (WordCompletor.prefix_tree wc) (String c p))
      with words.
    apply Z.eqb_neq in Htot. rewrite Htot, orb_false_r.
    destruct words; [contradiction | reflexivity]. }
  pose proof (sorted_perm Qlt_bool (fun x : string * Q => (- snd x)%Q)
                (combine words (map f words))) as Hperm.
  fold (ranked_by_prob words (map f words)) in Hperm.
  destruct (ranked_by_prob words (map f words)) as [|[best q] tail] eqn:Hranked.
  { apply Permutation_nil in Hperm. destruct words; [contradiction | discriminate]. }
  assert (Hbest : In best words /\ q = f best).
  { apply (In_combine_map f). eapply Permutation_in; [exact Hperm | now left]. }
  destruct Hbest as [Hbest ->].
  rewrite update_text_word by assumption. cbv zeta. rewrite split_lstrip.
  cbn [_word_completor]. fold prefix. fold wc. rewrite Hget. cbn [bind].
  rewrite Hranked. rewrite slice_to_3.
  change (firstn 3 ((best, f best) :: tail)) with ((best, f best) :: firstn 2 tail).
  cbn [map fst].
  set (completions := best :: map fst (firstn 2 tail)).
  assert (Hpad : exists more,
             (if Nat.ltb (List.length completions) 3
              then next_words <-
                     next_words_or_empty {| _word_completor := wc; _ngram_model := g |}
                       (split value) ;;
                   Ok (append_new completions next_words)
              else Ok completions) = Ok (best :: more)).
  { destruct (Nat.ltb (List.length completions) 3).
    - destruct (next_words_NoDup corpus' N g wc (split value) Hinit)
        as [next_words [Hnext _]].
      rewrite Hnext. cbn [bind].
      destruct (append_new_extends next_words completions) as [more ->].
      eexists. reflexivity.
    - eexists. reflexivity. }
  destruct Hpad as [more ->]. cbn [bind].
  destruct (backfill_extends {| _word_completor := wc; _ngram_model := g |} (best :: more))
    as [rest ->].
  cbn [bind firstn app]. exists best, tail. eexists. repeat split; try reflexivity.
  exact Hbest.
Qed.

End MidWord.

(** X10. In the middle of a word whose last token is the prefix of at least one
    retained word, the top suggestion is a retained word that starts with
    that token and whose count is the largest among the retained words
    starting with it, and the ghost suffix is what the top suggestion adds
    to the token. *)
Theorem midword_top_completion (corpus : list (list string)) (min_freq : Z)
  (order : list string) (corpus' : list (list string)) (N : Z)
  (g : NGramLanguageModel.t) (st : State.t) (value : string) :
  let wc := WordCompletor.init corpus min_freq order in
  let prefix := last (split value) "" in
  set_iteration (dict_keys (WordCompletor.counter wc)) order ->
  NGramLanguageModel.init corpus' N = Ok g ->
  mid_word value = true ->
  (exists w, In w (dict_keys (WordCompletor.counter wc)) /\ startswith w prefix = true) ->
  exists st' best rest,
    State.update_text {| State._word_completor := wc; State._ngram_model := g |} st value
    = Ok st' /\
    State.suggestions st' = best :: rest /\
    In best (dict_keys (WordCompletor.counter wc)) /\
    startswith best prefix = true /\
    (forall w, In w (dict_keys (WordCompletor.counter wc)) -> startswith w prefix = true ->
               (counter_count (WordCompletor.counter wc) w
                <= counter_count (WordCompletor.counter wc) best)%Z) /\
    (prefix ++ State.ghost_suffix st')%string = best.
Proof.
  intros wc prefix Hset Hinit Hmid [w0 [Hw0 Hs0]].
  assert (Hin : forall w, In w (PrefixTree.search_prefix (PrefixTree.init order) prefix) <->
                          In w (dict_keys (WordCompletor.counter wc)) /\
                          startswith w prefix = true).
  { intros w. rewrite In_search_prefix. destruct Hset as [_ Hset]. now rewrite Hset. }
  assert (Hwords : PrefixTree.search_prefix (PrefixTree.init order) prefix <> []).
  { intros Hnil. assert (In w0 []) as []. rewrite <- Hnil. apply Hin. now split. }
  destruct (midword_shape corpus min_freq order corpus' N g st value
              Hset Hinit Hmid Hwords)
    as [_ [Htot [best [tail [rest [Hranked [Hbest Hupd]]]]]]].
  fold wc prefix in Hranked, Hbest, Hupd, Htot.
  apply Hin in Hbest as [Hkey Hstarts].
  eexists. exists best, rest. split; [exact Hupd|].
  cbn [State.suggestions State.ghost_suffix].
  split; [reflexivity|]. split; [exact Hkey|]. split; [exact Hstarts|]. split.
  - intros w Hw Hs. apply (ratio_le_counts _ _ _ Htot).
    pose proof (ranked_descending_probs
                  (PrefixTree.search_prefix (PrefixTree.init order) prefix)
                  (map (fun w => (inject_Z (counter_count (WordCompletor.counter wc) w)
                                  / inject_Z (WordCompletor.total_count wc))%Q)
                     (PrefixTree.search_prefix (PrefixTree.init order) prefix))) as Hdesc.
    pose proof (sorted_perm Qlt_bool (fun x : string * Q => (- snd x)%Q)
                  (combine (PrefixTree.search_prefix (PrefixTree.init order) prefix)
                     (map (fun w => (inject_Z (counter_count (WordCompletor.counter wc) w)
                                     / inject_Z (WordCompletor.total_count wc))%Q)
                        (PrefixTree.search_prefix (PrefixTree.init order) prefix))))
      as Hperm.
    fold (State.ranked_by_prob
            (PrefixTree.search_prefix (PrefixTree.init order) prefix)
            (map (fun w => (inject_Z (counter_count (WordCompletor.counter wc) w)
                            / inject_Z (WordCompletor.total_count wc))%Q)
               (PrefixTree.search_prefix (PrefixTree.init order) prefix))) in Hperm.
    rewrite Hranked in Hdesc, Hperm. simpl in Hdesc. destruct Hdesc as [Hmax _].
    assert (In (w, (inject_Z (counter_count (WordCompletor.counter wc) w)
                    / inject_Z (WordCompletor.total_count wc))%Q)
               ((best, (inject_Z (counter_count (WordCompletor.counter wc) best)
                        / inject_Z (WordCompletor.total_count wc))%Q) :: tail)) as Hw'.
    { eapply Permutation_in; [symmetry; exact Hperm|].
      apply In_combine_map. split; [|reflexivity]. apply Hin. now split. }
    destruct Hw' as [Heq|Hw'].
    + injection Heq as <-. apply Qle_refl.
    + apply Hmax. apply in_map_iff. eexists. split; [|exact Hw']. reflexivity.
  - rewrite Hstarts. apply startswith_iff in Hstarts as [r Hr].
    rewrite Hr. now rewrite str_from_append.
Qed.

Lemma midword_top_completion_witness :
  exists g st' rest,
    NGramLanguageModel.init [["hello"; "world"]; ["hello"; "help"]] 1 = Ok g /\
    State.update_text
      {| State._word_completor :=
           WordCompletor.init [["hello"; "world"]; ["hello"; "help"]] 1
             ["help"; "world"; "hello"];
         State._ngram_model := g |}
      {| State.text := ""; State.suggestions := []; State.ghost_suffix := "" |} "say hel"
    = Ok st' /\
    State.suggestions st' = "hello" :: rest /\
    State.ghost_suffix st' = "lo".
Proof.
  eexists.
  destruct (midword_top_completion
              [["hello"; "world"]; ["hello"; "help"]] 1 ["help"; "world"; "hello"]
              [["hello"; "world"]; ["hello"; "help"]] 1
              {| NGramLanguageModel.n := 1;
                 NGramLanguageModel.next_counts :=
                   [(["hello"], [("world", 1%Z); ("help", 1%Z)])];
                 NGramLanguageModel.context_totals := [(["hello"], 2%Z)] |}
              {| State.text := ""; State.suggestions := []; State.ghost_suffix := "" |}
              "say hel")
    as [st' [best [rest [Hupd [Hsug [_ [_ [_ Hghost]]]]]]]].
  - split.
    + repeat constructor; simpl; intuition discriminate.
    + intros x. simpl. tauto.
  - reflexivity.
  - reflexivity.
  - exists "hello". split; [now left | reflexivity].
  - exists st', rest. split; [reflexivity|]. split; [exact Hupd|].
    assert (Hst : State.update_text
              {| State._word_completor :=
                   WordCompletor.init [["hello"; "world"]; ["hello"; "help"]] 1
                     ["help"; "world"; "hello"];
                 State._ngram_model :=
                   {| NGramLanguageModel.n := 1;
                      NGramLanguageModel.next_counts :=
                        [(["hello"], [("world", 1%Z); ("help", 1%Z)])];
                      NGramLanguageModel.context_totals := [(["hello"], 2%Z)] |} |}
              {| State.text := ""; State.suggestions := []; State.ghost_suffix := "" |}
              "say hel" =
            Ok {| State.text := "say hel";
                  State.suggestions := ["hello"; "help"; "world"];
                  State.ghost_suffix := "lo" |}) by reflexivity.
    rewrite Hst in Hupd. injection Hupd as <-.
    cbn [State.suggestions] in Hsug. injection Hsug as _ <-. split; reflexivity.
Defined.

(* ================================================================== *)
(** ** app/state.py: accepting a suggestion *)

Section Accept.
Import State.
Local Open Scope string_scope.

(** The buffer that [apply_suggestion] writes. *)
Lemma accepted_tokens (current word : string) :
  is_token word = true ->
  let new_text :=
    match current with
    | "" => word ++ " "
    | _ =>
        match rstrip current with
        | "" => word ++ " "
        | _ =>
            if str_isspace (last_char current)
            then current ++ word ++ " "
            else join " " (removelast (split (rstrip current)) ++ [word])%list ++ " "
        end
    end in
  str_isspace (last_char new_text) = true /\
  split new_text =
  ((if mid_word current then removelast (split current) else split current) ++ [word])%list.
Proof.
  intros Hword.
  assert (Hfresh : str_isspace (last_char (word ++ " ")) = true /\
                   split (word ++ " ") = [word]).
  { split; [now rewrite last_char_append|]. now rewrite split_token_space. }
  destruct current as [|c s] eqn:Hcur; [exact Hfresh|]. rewrite <- Hcur.
  assert (Hne : current <> "") by (rewrite Hcur; discriminate).
  clear Hcur c s. cbv zeta.
  destruct (rstrip current) as [|c s] eqn:Hr.
  - assert (mid_word current = false) as ->.
    { destruct (mid_word current) eqn:Hm; [|reflexivity].
      now apply mid_word_rstrip in Hm. }
    unfold split at 2. rewrite (rstrip_blank current Hr ""). exact Hfresh.
  - rewrite <- Hr. rewrite (mid_word_isspace current Hne).
    destruct (mid_word current) eqn:Hm; cbn [negb].
    + split.
      * now rewrite last_char_append.
      * unfold split at 2. rewrite split_rstrip. fold (split current).
        apply split_join_space. apply Forall_app. split.
        -- apply Forall_forall. intros w Hw. apply In_removelast in Hw.
           now apply split_tokens in Hw.
        -- now constructor.
    + split.
      * rewrite <- append_assoc. now rewrite last_char_append.
      * unfold split at 1. rewrite split_app_space.
        -- fold (split current). now rewrite (proj2 Hfresh).
        -- rewrite (mid_word_isspace current Hne). now rewrite Hm.
Qed.

(** [update_text] on a non-blank buffer that ends in whitespace. *)
Lemma update_text_space_ok corpus' (N : Z) (g : NGramLanguageModel.t)
  (wc : WordCompletor.t) (st : t) (value : string) :
  NGramLanguageModel.init corpus' N = Ok g ->
  lstrip value <> "" ->
  str_isspace (last_char value) = true ->
  exists suggestions,
    update_text {| _word_completor := wc; _ngram_model := g |} st value =
    Ok {| text := value;
          suggestions := suggestions;
          ghost_suffix := hd "" suggestions |}.
Proof.
  intros Hinit Hnb Hsp. rewrite update_text_space by assumption.
  destruct (next_words_NoDup corpus' N g wc (split (lstrip value)) Hinit)
    as [next_words [-> _]].
  cbn [bind].
  destruct (backfill_extends {| _word_completor := wc; _ngram_model := g |}
              (slice_to next_words 3)) as [rest ->].
  cbn [bind]. eexists. f_equal. f_equal.
  now destruct (firstn 3 (slice_to next_words 3) ++ rest)%list.
Qed.

Lemma init_keys_in_corpus corpus min_freq order (w : string) :
  In w (dict_keys (WordCompletor.counter (WordCompletor.init corpus min_freq order))) ->
  In w (List.concat corpus).
Proof.
  rewrite init_counter. intros Hw.
  assert (In w (dict_keys (tally (List.concat corpus)))) as Hw'.
  { destruct (1 <? min_freq)%Z; [|exact Hw].
    unfold dict_keys in *. apply in_map_iff in Hw as [[k v] [<- Hin]].
    apply filter_In in Hin as [Hin _]. apply in_map_iff. now exists (k, v). }
  rewrite dict_keys_tally in Hw'. apply (In_first_seen (List.concat corpus) w). exact Hw'.
Qed.

End Accept.

(** X11. With a built n-gram model, [apply_suggestion] with a word that is a
    token does not raise; the buffer it leaves ends in whitespace, and its
    tokens are those of the old buffer with the word appended, or, when the
    old buffer was in the middle of a word, with the word in place of the
    last token.  The ghost suffix is then the first suggestion. *)
Theorem apply_suggestion_tokens (corpus' : list (list string)) (N : Z)
  (g : NGramLanguageModel.t) (wc : WordCompletor.t) (st : State.t) (word : string) :
  NGramLanguageModel.init corpus' N = Ok g ->
  is_token word = true ->
  exists st',
    State.apply_suggestion {| State._word_completor := wc; State._ngram_model := g |}
      st word = Ok st' /\
    str_isspace (last_char (State.text st')) = true /\
    split (State.text st') =
      (if mid_word (State.text st)
       then removelast (split (State.text st))
       else split (State.text st)) ++ [word] /\
    State.ghost_suffix st' = hd "" (State.suggestions st').
Proof.
  intros Hinit Hword. unfold State.apply_suggestion.
  destruct (accepted_tokens (State.text st) word Hword) as [Hsp Hsplit].
  cbv zeta in Hsp, Hsplit.
  match type of Hsp with
  | str_isspace (last_char ?t) = true => set (new_text := t) in *
  end.
  cbv zeta.
  destruct (update_text_space_ok corpus' N g wc
              {| State.text := new_text;
                 State.suggestions := State.suggestions st;
                 State.ghost_suffix := State.ghost_suffix st |} new_text Hinit)
    as [suggestions Hupd].
  - apply lstrip_nonblank. rewrite Hsplit.
    destruct (if mid_word (State.text st) then _ else _); discriminate.
  - exact Hsp.
  - eexists. split; [exact Hupd|]. cbn [State.text State.suggestions State.ghost_suffix].
    auto.
Qed.

Lemma apply_suggestion_tokens_witness :
  exists g st',
    NGramLanguageModel.init [["how"; "are"; "you"]] 1 = Ok g /\
    State.apply_suggestion
      {| State._word_completor := WordCompletor.init [["how"; "are"; "you"]] 1 ["how"];
         State._ngram_model := g |}
      {| State.text := "  how   a"; State.suggestions := ["are"]; State.ghost_suffix := "re" |}
      "are" = Ok st' /\
    split (State.text st') = ["how"; "are"].
Proof.
  eexists.
  destruct (apply_suggestion_tokens [["how"; "are"; "you"]] 1
              {| NGramLanguageModel.n := 1;
                 NGramLanguageModel.next_counts :=
                   [(["how"], [("are", 1%Z)]); (["are"], [("you", 1%Z)])];
                 NGramLanguageModel.context_totals := [(["how"], 1%Z); (["are"], 1%Z)] |}
              (WordCompletor.init [["how"; "are"; "you"]] 1 ["how"])
              {| State.text := "  how   a"; State.suggestions := ["are"];
                 State.ghost_suffix := "re" |}
              "are" eq_refl eq_refl) as [st' [Hst [_ [Hsplit _]]]].
  exists st'. split; [reflexivity|]. split; [exact Hst | exact Hsplit].
Defined.

(** X12. [on_key_down] leaves the state as it is for every key other than
    ["Enter"] and when there is no suggestion; with a built n-gram model,
    ["Enter"] on a state whose first suggestion is a token accepts it: the
    new buffer ends in whitespace and its tokens are the old ones with the
    suggestion appended, or in place of the last token when the old buffer
    was in the middle of a word. *)
Theorem on_key_down_enter (corpus' : list (list string)) (N : Z)
  (g : NGramLanguageModel.t) (wc : WordCompletor.t) (st : State.t) :
  NGramLanguageModel.init corpus' N = Ok g ->
  let m := {| State._word_completor := wc; State._ngram_model := g |} in
  (forall key, key <> "Enter" -> State.on_key_down m st key = Ok st) /\
  (State.suggestions st = [] -> forall key, State.on_key_down m st key = Ok st) /\
  (forall top rest,
      State.suggestions st = top :: rest -> is_token top = true ->
      exists st',
        State.on_key_down m st "Enter" = Ok st' /\
        str_isspace (last_char (State.text st')) = true /\
        split (State.text st') =
          (if mid_word (State.text st)
           then removelast (split (State.text st))
           else split (State.text st)) ++ [top]).
Proof.
  intros Hinit m. unfold State.on_key_down. split; [|split].
  - intros key Hkey. apply String.eqb_neq in Hkey. now rewrite Hkey.
  - intros -> key. now rewrite andb_false_r.
  - intros top rest Hsug Htop. rewrite Hsug. cbn [String.eqb andb nth].
    change (("Enter" =? "Enter")%string) with true. cbn [andb].
    unfold State.apply_suggestion.
    destruct (accepted_tokens (State.text st) top Htop) as [Hsp Hsplit].
    cbv zeta in Hsp, Hsplit.
    match type of Hsp with
    | str_isspace (last_char ?t) = true => set (new_text := t) in *
    end.
    cbv zeta.
    destruct (update_text_space_ok corpus' N g wc
                {| State.text := new_text;
                   State.suggestions := State.suggestions st;
                   State.ghost_suffix := State.ghost_suffix st |} new_text Hinit)
      as [suggestions Hupd].
    + apply lstrip_nonblank. rewrite Hsplit.
      destruct (if mid_word (State.text st) then _ else _); discriminate.
    + exact Hsp.
    + subst m. rewrite Hsug in Hupd. eexists. split; [exact Hupd|].
      cbn [State.text]. auto.
Qed.

Lemma on_key_down_enter_witness :
  exists g st',
    NGramLanguageModel.init [["how"; "are"; "you"]] 1 = Ok g /\
    State.on_key_down
      {| State._word_completor := WordCompletor.init [["how"; "are"; "you"]] 1 ["how"];
         State._ngram_model := g |}
      {| State.text := "how "; State.suggestions := ["are"]; State.ghost_suffix := "are" |}
      "Enter" = Ok st' /\
    split (State.text st') = ["how"; "are"].
Proof.
  eexists.
  destruct (proj2 (proj2 (on_key_down_enter [["how"; "are"; "you"]] 1
              {| NGramLanguageModel.n := 1;
                 NGramLanguageModel.next_counts :=
                   [(["how"], [("are", 1%Z)]); (["are"], [("you", 1%Z)])];
                 NGramLanguageModel.context_totals := [(["how"], 1%Z); (["are"], 1%Z)] |}
              (WordCompletor.init [["how"; "are"; "you"]] 1 ["how"])
              {| State.text := "how "; State.suggestions := ["are"];
                 State.ghost_suffix := "are" |}
              eq_refl)) "are" [] eq_refl eq_refl) as [st' [Hst [_ Hsplit]]].
  exists st'. split; [reflexivity|]. split; [exact Hst | exact Hsplit].
Defined.

(** X13. Completing a word with Enter.  With a corpus of tokens, when the buffer
    is in the middle of a word whose last token is the prefix of a retained
    word, [update_text] followed by [on_key_down "Enter"] leaves a buffer
    that ends in whitespace and whose tokens are those of the old buffer
    with the last one replaced by a retained word that starts with it. *)
Theorem enter_completes_word (corpus : list (list string)) (min_freq : Z)
  (order : list string) (corpus' : list (list string)) (N : Z)
  (g : NGramLanguageModel.t) (st : State.t) (value : string) :
  let wc := WordCompletor.init corpus min_freq order in
  let m := {| State._word_completor := wc; State._ngram_model := g |} in
  let prefix := last (split value) "" in
  set_iteration (dict_keys (WordCompletor.counter wc)) order ->
  NGramLanguageModel.init corpus' N = Ok g ->
  Forall (Forall (fun w => is_token w = true)) corpus ->
  mid_word value = true ->
  (exists w, In w (dict_keys (WordCompletor.counter wc)) /\ startswith w prefix = true) ->
  exists st1 st2 best,
    State.update_text m st value = Ok st1 /\
    State.on_key_down m st1 "Enter" = Ok st2 /\
    In best (dict_keys (WordCompletor.counter wc)) /\
    startswith best prefix = true /\
    split (State.text st2) = removelast (split value) ++ [best] /\
    str_isspace (last_char (State.text st2)) = true.
Proof.
  intros wc m prefix Hset Hinit Hclean Hmid [w0 [Hw0 Hs0]].
  assert (Hin : forall w, In w (PrefixTree.search_prefix (PrefixTree.init order) prefix) <->
                          In w (dict_keys (WordCompletor.counter wc)) /\
                          startswith w prefix = true).
  { intros w. rewrite In_search_prefix. destruct Hset as [_ Hset']. now rewrite Hset'. }
  assert (Hwords : PrefixTree.search_prefix (PrefixTree.init order) prefix <> []).
  { intros Hnil. assert (In w0 []) as []. rewrite <- Hnil. apply Hin. now split. }
  destruct (midword_shape corpus min_freq order corpus' N g st value
              Hset Hinit Hmid Hwords)
    as [_ [_ [best [tail [rest [_ [Hbest Hupd]]]]]]].
  fold wc prefix in Hbest, Hupd. apply Hin in Hbest as [Hkey Hstarts].
  assert (Htoken : is_token best = true).
  { apply init_keys_in_corpus in Hkey. apply in_concat in Hkey as [doc [Hdoc Hbest]].
    rewrite Forall_forall in Hclean. specialize (Hclean doc Hdoc).
    rewrite Forall_forall in Hclean. now apply Hclean. }
  eexists. fold m in Hupd.
  unfold State.on_key_down. 
  destruct (accepted_tokens value best Htoken) as [Hsp Hsplit].
  cbv zeta in Hsp, Hsplit. rewrite Hmid in Hsplit.
  match type of Hsp with
  | str_isspace (last_char ?t) = true => set (new_text := t) in *
  end.
  destruct (update_text_space_ok corpus' N g wc
              {| State.text := new_text;
                 State.suggestions := best :: rest;
                 State.ghost_suffix :=
                   if startswith best prefix
                   then str_from best (String.length prefix) else best |}
              new_text Hinit) as [suggestions Hupd2].
  - apply lstrip_nonblank. rewrite Hsplit. destruct (removelast (split value)); discriminate.
  - exact Hsp.
  - eexists. exists best. split; [exact Hupd|].
    cbn [State.suggestions State.text State.ghost_suffix nth].
    change (("Enter" =? "Enter")%string) with true. cbn [andb].
    unfold State.apply_suggestion. cbn [State.text State.suggestions State.ghost_suffix].
    fold new_text. cbv zeta. fold m in Hupd2.
    split; [exact Hupd2|]. cbn [State.text]. auto.
Qed.

Lemma enter_completes_word_witness :
  exists g st1 st2,
    NGramLanguageModel.init [["hello"; "world"]; ["hello"; "help"]] 1 = Ok g /\
    let m := {| State._word_completor :=
                  WordCompletor.init [["hello"; "world"]; ["hello"; "help"]] 1
                    ["help"; "world"; "hello"];
                State._ngram_model := g |} in
    State.update_text m
      {| State.text := ""; State.suggestions := []; State.ghost_suffix := "" |}
      "say hel" = Ok st1 /\
    State.on_key_down m st1 "Enter" = Ok st2 /\
    str_isspace (last_char (State.text st2)) = true.
Proof.
  eexists.
  destruct (enter_completes_word
              [["hello"; "world"]; ["hello"; "help"]] 1 ["help"; "world"; "hello"]
              [["hello"; "world"]; ["hello"; "help"]] 1
              {| NGramLanguageModel.n := 1;
                 NGramLanguageModel.next_counts :=
                   [(["hello"], [("world", 1%Z); ("help", 1%Z)])];
                 NGramLanguageModel.context_totals := [(["hello"], 2%Z)] |}
              {| State.text := ""; State.suggestions := []; State.ghost_suffix := "" |}
              "say hel")
    as [st1 [st2 [best [Hupd [Hkey [_ [_ [_ Hsp]]]]]]]].
  - split.
    + repeat constructor; simpl; intuition discriminate.
    + intros x. simpl. tauto.
  - reflexivity.
  - repeat constructor.
  - reflexivity.
  - exists "hello". split; [now left | reflexivity].
  - exists st1, st2. split; [reflexivity|]. cbv zeta. auto.
Defined.

(* ================================================================== *)
(** ** core/text_suggestion.py: the choice of the completion *)

Section Argmax.

Lemma Qlt_bool_true (x y : Q) : Qlt_bool x y = true -> (x < y)%Q.
Proof.
  unfold Qlt_bool. rewrite negb_true_iff. intros H.
  apply Qnot_le_lt. intros Hle. apply Qle_bool_iff in Hle. congruence.
Qed.

Lemma Qlt_bool_false (x y : Q) : Qlt_bool x y = false -> (y <= x)%Q.
Proof.
  unfold Qlt_bool. rewrite negb_false_iff. apply Qle_bool_iff.
Qed.

Lemma argmax_from_spec (xs : list Q) :
  forall pre best bestv,
    best < List.length pre ->
    nth best pre 0%Q = bestv ->
    (forall k, k < List.length pre -> (nth k pre 0 <= bestv)%Q) ->
    (forall k, k < best -> (nth k pre 0 < bestv)%Q) ->
    let j := argmax_from best bestv (List.length pre) xs in
    j < List.length (pre ++ xs) /\
    (forall k, k < List.length (pre ++ xs) ->
               (nth k (pre ++ xs) 0 <= nth j (pre ++ xs) 0)%Q) /\
    (forall k, k < j -> (nth k (pre ++ xs) 0 < nth j (pre ++ xs) 0)%Q).
Proof.
  induction xs as [|x xs IH]; intros pre best bestv Hbest Hval Hmax Hfirst; simpl.
  - rewrite app_nil_r, Hval. auto.
  - assert (Hlen : S (List.length pre) = List.length (pre ++ [x]))
      by (rewrite length_app; simpl; lia).
    assert (Hold : forall k, k < List.length pre -> nth k (pre ++ [x]) 0%Q = nth k pre 0%Q)
      by (intros k Hk; now apply app_nth1).
    assert (Hnew : nth (List.length pre) (pre ++ [x]) 0%Q = x)
      by (rewrite app_nth2 by lia; now rewrite Nat.sub_diag).
    replace (pre ++ x :: xs) with ((pre ++ [x]) ++ xs) by (now rewrite <- app_assoc).
    rewrite Hlen.
    destruct (Qlt_bool bestv x) eqn:Hlt.
    + apply Qlt_bool_true in Hlt. apply IH.
      * rewrite <- Hlen. lia.
      * exact Hnew.
      * intros k Hk. rewrite <- Hlen in Hk.
        destruct (Nat.eq_dec k (List.length pre)) as [->|Hne].
        -- rewrite Hnew. apply Qle_refl.
        -- rewrite Hold by lia. apply Qlt_le_weak.
           eapply Qle_lt_trans; [apply Hmax; lia | exact Hlt].
      * intros k Hk. rewrite Hold by lia.
        eapply Qle_lt_trans; [apply Hmax; lia | exact Hlt].
    + apply Qlt_bool_false in Hlt. apply IH.
      * rewrite <- Hlen. lia.
      * rewrite Hold by lia. exact Hval.
      * intros k Hk. rewrite <- Hlen in Hk.
        destruct (Nat.eq_dec k (List.length pre)) as [->|Hne].
        -- now rewrite Hnew.
        -- rewrite Hold by lia. apply Hmax. lia.
      * intros k Hk. rewrite Hold by lia. now apply Hfirst.
Qed.

(** [argmax] is the first index that holds a largest element. *)
Lemma argmax_spec (xs : list Q) :
  xs <> [] ->
  argmax xs < List.length xs /\
  (forall k, k < List.length xs -> (nth k xs 0 <= nth (argmax xs) xs 0)%Q) /\
  (forall k, k < argmax xs -> (nth k xs 0 < nth (argmax xs) xs 0)%Q).
Proof.
  destruct xs as [|x xs]; [contradiction|]. intros _.
  apply (argmax_from_spec xs [x] 0 x).
  - simpl. lia.
  - reflexivity.
  - intros k Hk. simpl in Hk. replace k with 0 by lia. apply Qle_refl.
  - intros k Hk. lia.
Qed.

Lemma ratio_lt_counts (a b t : Z) :
  (0 < t)%Z -> (inject_Z a / inject_Z t < inject_Z b / inject_Z t)%Q -> (a < b)%Z.
Proof.
  intros Ht H. destruct t as [|p|p]; try lia.
  unfold Qlt, Qdiv, Qmult, Qinv, inject_Z in H. simpl in H. nia.
Qed.

Lemma nth_map_default {A : Type} (f : A -> Q) (l : list A) (d : A) (k : nat) :
  k < List.length l -> nth k (map f l) 0%Q = f (nth k l d).
Proof.
  intros Hk. rewrite (nth_indep _ 0%Q (f d)) by now rewrite length_map.
  apply map_nth.
Qed.

End Argmax.

(** X14. When the last token has completions, the continuation that
    [suggest_text] returns (for [n_texts = 1]) starts with a completion
    whose count no other completion exceeds, and which is the first of the
    completions with that count in the order the word completor returns
    them. *)
Theorem suggest_text_most_frequent (corpus : list (list string)) (min_freq : Z)
  (order : list string) (corpus' : list (list string)) (N : Z)
  (g : NGramLanguageModel.t) (text : TextSuggestion.text_arg) (n_words : Z) :
  let wc := WordCompletor.init corpus min_freq order in
  let self := {| TextSuggestion.word_completor := wc; TextSuggestion.n_gram_model := g |} in
  let tokens :=
    match text with
    | TextSuggestion.Str s => split (strip s)
    | TextSuggestion.Tokens ts => ts
    end in
  let count := counter_count (WordCompletor.counter wc) in
  NGramLanguageModel.init corpus' N = Ok g ->
  tokens <> [] ->
  exists words probs,
    WordCompletor.get_words_and_probs wc (last tokens "") = Ok (words, probs) /\
    (words <> [] ->
     exists j rest,
       j < List.length words /\
       TextSuggestion.suggest_text self text n_words 1 = Ok [nth j words "" :: rest] /\
       (forall k, k < List.length words ->
                  (count (nth k words "") <= count (nth j words ""))%Z) /\
       (forall k, k < j -> (count (nth k words "") < count (nth j words ""))%Z)).
Proof.
  intros wc self tokens count Hinit Htok.
  pose proof (get_words_and_probs_value wc (last tokens "")) as Hv. cbv zeta in Hv.
  destruct (_ || _) eqn:Hcond in Hv.
  { exists [], []. split; [exact Hv|]. intros Hne. contradiction. }
  apply orb_false_iff in Hcond as [Hwords Htot]. apply Z.eqb_neq in Htot.
  set (words := match last tokens "" with
                | "" => dict_keys (WordCompletor.counter wc)
                | String _ _ =>
                    PrefixTree.search_prefix (WordCompletor.prefix_tree wc) (last tokens "")
                end) in *.
  set (f := fun w => (inject_Z (counter_count (WordCompletor.counter wc) w)
                      / inject_Z (WordCompletor.total_count wc))%Q) in *.
  assert (Hpos : (0 < WordCompletor.total_count wc)%Z).
  { pose proof (init_total_count corpus min_freq order) as Hsum. fold wc in Hsum.
    assert (0 <= sum_Z (dict_values (WordCompletor.counter wc)))%Z.
    { rewrite <- values_count by apply init_NoDup_keys.
      apply sum_counts_nonneg; [apply init_NoDup_keys|].
      intros k v Hin. apply init_positive in Hin. lia. }
    lia. }
  exists words, (map f words). split; [exact Hv|]. intros Hne.
  assert (Hprobs : map f words <> []) by (destruct words; [contradiction | discriminate]).
  destruct (argmax_spec (map f words) Hprobs) as [Hj [Hmax Hfirst]].
  rewrite length_map in Hj, Hmax.
  destruct (extend_total corpus' N g wc (Z.to_nat n_words) Hinit
              [nth (argmax (map f words)) words ""]
              (removelast tokens ++ [nth (argmax (map f words)) words ""]))
    as [ext [rest [Hext [Heq _]]]].
  exists (argmax (map f words)), rest. split; [exact Hj|]. split; [|split].
  - unfold TextSuggestion.suggest_text. fold tokens.
    destruct tokens as [|t ts] eqn:Htokens; [contradiction|]. rewrite <- Htokens in *.
    cbn [TextSuggestion.word_completor self]. fold wc. rewrite Hv. cbn [bind].
    destruct words as [|w ws] eqn:Hw; [contradiction|]. rewrite <- Hw in *.
    fold self in Hext. rewrite Hext. cbn [bind]. rewrite Heq. reflexivity.
  - intros k Hk. apply (ratio_le_counts _ _ _ Hpos).
    specialize (Hmax k Hk).
    rewrite (nth_map_default f words "" k Hk) in Hmax.
    rewrite (nth_map_default f words "" _ Hj) in Hmax. exact Hmax.
  - intros k Hk. apply (ratio_lt_counts _ _ _ Hpos).
    specialize (Hfirst k Hk).
    rewrite (nth_map_default f words "" k) in Hfirst by lia.
    rewrite (nth_map_default f words "" _ Hj) in Hfirst. exact Hfirst.
Qed.

Lemma suggest_text_most_frequent_witness :
  exists g j rest,
    NGramLanguageModel.init [["hello"; "world"]; ["hello"; "help"]] 1 = Ok g /\
    TextSuggestion.suggest_text
      {| TextSuggestion.word_completor :=
           WordCompletor.init [["hello"; "world"]; ["hello"; "help"]] 1
             ["help"; "world"; "hello"];
         TextSuggestion.n_gram_model := g |}
      (TextSuggestion.Str " say hel ") 2 1 =
    Ok [nth j (PrefixTree.search_prefix
                 (PrefixTree.init ["help"; "world"; "hello"]) "hel") "" :: rest].
Proof.
  eexists.
  destruct (suggest_text_most_frequent
              [["hello"; "world"]; ["hello"; "help"]] 1 ["help"; "world"; "hello"]
              [["hello"; "world"]; ["hello"; "help"]] 1
              {| NGramLanguageModel.n := 1;
                 NGramLanguageModel.next_counts :=
                   [(["hello"], [("world", 1%Z); ("help", 1%Z)])];
                 NGramLanguageModel.context_totals := [(["hello"], 2%Z)] |}
              (TextSuggestion.Str " say hel ") 2 eq_refl)
    as [words [probs [Hget Hbest]]].
  - discriminate.
  - assert (Hw : words = PrefixTree.search_prefix
                           (PrefixTree.init ["help"; "world"; "hello"]) "hel").
    { vm_compute in Hget. injection Hget as <- _. reflexivity. }
    destruct Hbest as [j [rest [_ [Hres _]]]].
    + rewrite Hw. discriminate.
    + exists j, rest. split; [reflexivity|]. rewrite <- Hw. exact Hres.
Defined.

Lemma suggest_text_continuations_witness :
  exists g words probs,
    NGramLanguageModel.init [["hello"; "world"]; ["hello"; "help"]] 1 = Ok g /\
    WordCompletor.get_words_and_probs
      (WordCompletor.init [["hello"; "world"]; ["hello"; "help"]] 1
         ["help"; "world"; "hello"]) "hel" = Ok (words, probs) /\
    (words = [] ->
     TextSuggestion.suggest_text
       {| TextSuggestion.word_completor :=
            WordCompletor.init [["hello"; "world"]; ["hello"; "help"]] 1
              ["help"; "world"; "hello"];
          TextSuggestion.n_gram_model := g |}
       (TextSuggestion.Tokens ["say"; "hel"]) 2 5 = Ok []).
Proof.
  eexists.
  destruct (proj2 (suggest_text_continuations
              [["hello"; "world"]; ["hello"; "help"]] 1
              {| NGramLanguageModel.n := 1;
                 NGramLanguageModel.next_counts :=
                   [(["hello"], [("world", 1%Z); ("help", 1%Z)])];
                 NGramLanguageModel.context_totals := [(["hello"], 2%Z)] |}
              (WordCompletor.init [["hello"; "world"]; ["hello"; "help"]] 1
                 ["help"; "world"; "hello"])
              (TextSuggestion.Tokens ["say"; "hel"]) 2 5 eq_refl))
    as [words [probs [Hget [Hnone _]]]].
  - discriminate.
  - exists words, probs. split; [reflexivity|]. split; [exact Hget | exact Hnone].
Defined.

(* ================================================================== *)
(** ** core/text_suggestion.py: the predicted words *)

Section Grounded.

Lemma slice_to_singleton {A : Type} (x : A) (k : Z) :
  slice_to [x] k = [] \/ slice_to [x] k = [x].
Proof.
  unfold slice_to. destruct (k <? 0)%Z.
  - destruct (Z.to_nat (Z.of_nat (List.length [x]) + k)) as [|n]; [now left|].
    right. simpl. now rewrite firstn_nil.
  - destruct (Z.to_nat k) as [|n]; [now left|].
    right. simpl. now rewrite firstn_nil.
Qed.

(** Every word the loop of stage 2 appends was seen in the corpus right
    after the [N] tokens that precede it in the sequence being extended. *)
Lemma extend_grounded (corpus : list (list string)) (N : Z) (g : NGramLanguageModel.t)
  (wc : WordCompletor.t) (fuel : nat) :
  NGramLanguageModel.init corpus N = Ok g ->
  forall suggestion context_seq,
  exists rest,
    TextSuggestion.extend
      {| TextSuggestion.word_completor := wc; TextSuggestion.n_gram_model := g |}
      fuel suggestion context_seq = Ok (suggestion ++ rest) /\
    List.length rest <= fuel /\
    forall i, i < List.length rest ->
      let seq := context_seq ++ firstn i rest in
      (N <= Z.of_nat (List.length seq))%Z /\
      0 < Corpus.count_followed (Z.to_nat N) corpus
            (skipn (List.length seq - Z.to_nat N) seq) (nth i rest "").
Proof.
  intros Hinit. pose proof (init_inv _ _ _ Hinit) as [HN Hg].
  assert (Hstop : forall (suggestion context_seq : list string) k,
    exists rest : list string,
      @Ok (list string) suggestion = Ok (suggestion ++ rest) /\
      List.length rest <= k /\
      forall i, i < List.length rest ->
        let seq := context_seq ++ firstn i rest in
        (N <= Z.of_nat (List.length seq))%Z /\
        0 < Corpus.count_followed (Z.to_nat N) corpus
              (skipn (List.length seq - Z.to_nat N) seq) (nth i rest "")).
  { intros suggestion context_seq k. exists []. rewrite app_nil_r.
    split; [reflexivity|]. split; [simpl; lia|]. intros i Hi. simpl in Hi. lia. }
  induction fuel as [|fuel IH]; intros suggestion context_seq; simpl.
  - apply Hstop.
  - destruct (Z.lt_ge_cases (Z.of_nat (List.length context_seq)) N) as [Hlt|Hge].
    + rewrite get_next_short by (subst g; cbn [NGramLanguageModel.n]; lia).
      apply Hstop.
    + rewrite (built_query corpus N g context_seq Hinit Hge).
      rewrite slice_from_last by lia.
      set (ctx := skipn (List.length context_seq - Z.to_nat N) context_seq).
      destruct (0 <? Corpus.count_window (Z.to_nat N) corpus ctx)%nat; [|apply Hstop].
      set (counts := tally (Corpus.followers ctx (Corpus.pairs (Z.to_nat N) corpus))).
      set (probs := map (fun w : string =>
                           (inject_Z (counter_count counts w)
                            / inject_Z (Z.of_nat (Corpus.count_window (Z.to_nat N) corpus ctx)))%Q)
                      (dict_keys counts)).
      assert (Hcase : dict_keys counts = [] \/ dict_keys counts <> [])
        by (destruct (dict_keys counts); [left | right]; congruence).
      destruct Hcase as [Hnil|Hne].
      { subst probs. rewrite Hnil. apply Hstop. }
      assert (Hmatch : forall (A : Type) (a b : A),
                match dict_keys counts with [] => a | _ :: _ => b end = b)
        by (intros; destruct (dict_keys counts); congruence).
      rewrite Hmatch.
      assert (Hprobs : probs <> []).
      { subst probs. destruct (dict_keys counts); [contradiction | discriminate]. }
      destruct (argmax_spec probs Hprobs) as [Hj _].
      assert (Hjw : argmax probs < List.length (dict_keys counts))
        by (subst probs; now rewrite length_map in Hj).
      set (w := nth (argmax probs) (dict_keys counts) "").
      assert (Hw : 0 < Corpus.count_followed (Z.to_nat N) corpus ctx w).
      { rewrite <- followers_of_corpus. apply occurrences_pos.
        apply In_first_seen. rewrite <- dict_keys_tally. fold counts.
        subst w. now apply nth_In. }
      destruct (IH (suggestion ++ [w]) (context_seq ++ [w])) as [rest [Hext [Hlen Hall]]].
      exists (w :: rest). split; [|split].
      * rewrite Hext, <- app_assoc. reflexivity.
      * simpl. lia.
      * intros i Hi. destruct i as [|i].
        -- simpl firstn. rewrite app_nil_r. cbv zeta. split; [exact Hge|].
           fold ctx. exact Hw.
        -- simpl in Hi. specialize (Hall i (proj2 (Nat.succ_lt_mono _ _) Hi)).
           cbv zeta in Hall. simpl firstn. simpl nth.
           replace (context_seq ++ w :: firstn i rest)
             with ((context_seq ++ [w]) ++ firstn i rest)
             by (now rewrite <- app_assoc).
           exact Hall.
Qed.

End Grounded.

(** X16. Whenever [suggest_text] returns a continuation on a built n-gram model
    of order [N], the continuation is the completed word followed by at
    most [n_words] predicted words, and every predicted word was seen in
    the corpus right after the [N] tokens that precede it in the completed
    input followed by the earlier predictions. *)
Theorem suggest_text_grounded (corpus' : list (list string)) (N : Z)
  (g : NGramLanguageModel.t) (wc : WordCompletor.t) (text : TextSuggestion.text_arg)
  (n_words n_texts : Z) (continuation : list string) :
  let self := {| TextSuggestion.word_completor := wc; TextSuggestion.n_gram_model := g |} in
  let tokens :=
    match text with
    | TextSuggestion.Str s => split (strip s)
    | TextSuggestion.Tokens ts => ts
    end in
  NGramLanguageModel.init corpus' N = Ok g ->
  TextSuggestion.suggest_text self text n_words n_texts = Ok [continuation] ->
  exists completed rest,
    continuation = completed :: rest /\
    List.length rest <= Z.to_nat n_words /\
    forall i, i < List.length rest ->
      let seq := (removelast tokens ++ [completed]) ++ firstn i rest in
      (N <= Z.of_nat (List.length seq))%Z /\
      0 < Corpus.count_followed (Z.to_nat N) corpus'
            (skipn (List.length seq - Z.to_nat N) seq) (nth i rest "").
Proof.
  intros self tokens Hinit. unfold TextSuggestion.suggest_text. fold tokens.
  destruct tokens as [|t ts] eqn:Htokens; [discriminate|]. rewrite <- Htokens.
  cbn [TextSuggestion.word_completor self].
  destruct (get_words_shape wc (last tokens "")) as [words [f [Hget _]]].
  rewrite Hget. cbn [bind].
  destruct words as [|w ws] eqn:Hw; [discriminate|]. rewrite <- Hw.
  destruct (extend_grounded corpus' N g wc (Z.to_nat n_words) Hinit
              [nth (argmax (map f words)) words ""]
              (removelast tokens ++ [nth (argmax (map f words)) words ""]))
    as [rest [Hext [Hlen Hall]]].
  fold self in Hext. rewrite Hext. cbn [bind]. intros Hres.
  exists (nth (argmax (map f words)) words ""), rest.
  split; [|split; [exact Hlen | exact Hall]].
  destruct (slice_to_singleton
              ([nth (argmax (map f words)) words ""] ++ rest) n_texts) as [Hs|Hs];
    rewrite Hs in Hres; [discriminate|].
  injection Hres as <-. reflexivity.
Qed.

Lemma suggest_text_grounded_witness :
  exists g completed rest,
    NGramLanguageModel.init [["hello"; "world"]; ["hello"; "help"]] 1 = Ok g /\
    ["hello"; "world"] = completed :: rest /\
    List.length rest <= Z.to_nat 2.
Proof.
  eexists.
  destruct (suggest_text_grounded
              [["hello"; "world"]; ["hello"; "help"]] 1
              {| NGramLanguageModel.n := 1;
                 NGramLanguageModel.next_counts :=
                   [(["hello"], [("world", 1%Z); ("help", 1%Z)])];
                 NGramLanguageModel.context_totals := [(["hello"], 2%Z)] |}
              (WordCompletor.init [["hello"; "world"]; ["hello"; "help"]] 1
                 ["help"; "world"; "hello"])
              (TextSuggestion.Str "say hel") 2 1 ["hello"; "world"] eq_refl eq_refl)
    as [completed [rest [Heq [Hlen _]]]].
  exists completed, rest. split; [reflexivity|]. split; [exact Heq | exact Hlen].
Defined.

(* ================================================================== *)
(** ** core/word_completor.py: the order of the vocabulary *)

Lemma keys_filter_tally (xs : list string) (min_freq : Z) :
  dict_keys (filter (fun wc : string * Z => (min_freq <=? snd wc)%Z) (tally xs)) =
  filter (fun w => (min_freq <=? Z.of_nat (occurrences w xs))%Z) (first_seen xs).
Proof.
  rewrite <- dict_keys_tally.
  assert (Hval : forall k v, In (k, v) (tally xs) -> v = Z.of_nat (occurrences k xs)).
  { intros k v Hin. rewrite <- counter_count_tally.
    symmetry. apply counter_count_In; [apply NoDup_keys_tally | exact Hin]. }
  unfold dict_keys. induction (tally xs) as [|[k v] d IH]; [reflexivity|].
  simpl. rewrite <- (Hval k v (or_introl eq_refl)).
  destruct (min_freq <=? v)%Z; simpl; rewrite IH; try reflexivity;
    intros k' v' Hin; apply Hval; now right.
Qed.

(** X17. The retained vocabulary is kept in the order in which its words first
    occur in the corpus (a word is retained when [min_freq <= 1] or it occurs
    at least [min_freq] times), and [get_words_and_probs("")] returns the
    words in exactly this order whatever the trie was built from. *)
Theorem completor_vocabulary_order (corpus : list (list string)) (min_freq : Z)
  (order : list string) :
  let vocabulary :=
    filter (fun w => (min_freq <=? 1)%Z
                     || (min_freq <=? Z.of_nat (occurrences w (List.concat corpus)))%Z)
      (first_seen (List.concat corpus)) in
  dict_keys (WordCompletor.counter (WordCompletor.init corpus min_freq order)) = vocabulary /\
  exists probs,
    WordCompletor.get_words_and_probs (WordCompletor.init corpus min_freq order) "" =
    Ok (vocabulary, probs).
Proof.
  intros vocabulary.
  assert (Hkeys : dict_keys (WordCompletor.counter (WordCompletor.init corpus min_freq order))
                  = vocabulary).
  { subst vocabulary. rewrite init_counter. destruct (Z.ltb_spec 1 min_freq) as [Hthr|Hno].
    - rewrite keys_filter_tally. apply filter_ext. intros w.
      destruct (Z.leb_spec min_freq 1); [lia | reflexivity].
    - rewrite dict_keys_tally. symmetry. apply filter_all. intros w _.
      destruct (Z.leb_spec min_freq 1); [reflexivity | lia]. }
  split; [exact Hkeys|].
  pose proof (get_words_and_probs_value (WordCompletor.init corpus min_freq order) "") as Hv.
  cbv zeta in Hv. rewrite Hkeys in Hv. rewrite Hv.
  destruct vocabulary as [|w ws] eqn:Hvoc.
  - exists []. reflexivity.
  - destruct (Z.eqb_spec (WordCompletor.total_count (WordCompletor.init corpus min_freq order)) 0)
      as [Hz|Hnz].
    + apply init_total_zero in Hz. rewrite Hz in Hkeys. discriminate.
    + eexists. reflexivity.
Qed.

(* ================================================================== *)
(** ** app/state.py: what the backfill adds *)

Section Backfill.
Import State.

Lemma append_new_filter (ws acc : list string) :
  NoDup ws -> List.length acc < 3 ->
  append_new acc ws =
  (acc ++ firstn (3 - List.length acc) (filter (fun w => negb (list_in w acc)) ws))%list.
Proof.
  revert acc. induction ws as [|w ws IH]; intros acc Hnd Hlen.
  - simpl. rewrite firstn_nil. now rewrite app_nil_r.
  - inversion Hnd as [|? ? Hw Hnd']; subst. cbn [append_new filter].
    destruct (list_in w acc) eqn:Hin; cbn [negb]; [now apply IH|].
    destruct (Nat.eqb_spec (List.length (acc ++ [w])) 3) as [Heq|Hne].
    + rewrite length_app in Heq. cbn [List.length] in Heq.
      replace (3 - List.length acc) with 1 by lia. reflexivity.
    + assert (Hlen' : List.length (acc ++ [w]) < 3)
        by (rewrite length_app in *; simpl in *; lia).
      rewrite (IH (acc ++ [w])%list Hnd' Hlen').
      rewrite length_app in *. simpl List.length in *.
      replace (3 - List.length acc) with (S (3 - (List.length acc + 1))) by lia.
      simpl firstn. rewrite <- app_assoc. simpl app. f_equal. f_equal. f_equal.
      apply filter_ext_in. intros x Hx. f_equal.
      destruct (list_in x acc) eqn:Hxa.
      * apply list_in_In. apply in_or_app. left. now apply list_in_In.
      * destruct (list_in x (acc ++ [w])) eqn:Hxw; [|reflexivity].
        apply list_in_In in Hxw. apply in_app_or in Hxw as [Hxw|[<-|[]]].
        -- apply list_in_In in Hxw. congruence.
        -- contradiction.
Qed.

Lemma ranked_pairs (words : list string) (f : string -> Q) :
  ranked_by_prob words (map f words) =
  map (fun w => (w, f w)) (map fst (ranked_by_prob words (map f words))).
Proof.
  rewrite map_map. rewrite <- (map_id (ranked_by_prob words (map f words))) at 1.
  apply map_ext_in. intros [w q] Hin. simpl.
  assert (In (w, q) (combine words (map f words))) as Hc
      by (eapply Permutation_in;
          [apply (sorted_perm Qlt_bool (fun x : string * Q => (- snd x)%Q)) | exact Hin]).
  apply In_combine_map in Hc as [_ ->]. reflexivity.
Qed.

Lemma combine_pairs (words : list string) (f : string -> Q) :
  combine words (map f words) = map (fun w => (w, f w)) words.
Proof. induction words as [|w ws IH]; simpl; [reflexivity | now rewrite IH]. Qed.

Lemma filter_pairs (P : Q -> bool) (f : string -> Q) (ws : list string) :
  map fst (filter (fun y : string * Q => P (snd y)) (map (fun w => (w, f w)) ws)) =
  filter (fun w => P (f w)) ws.
Proof.
  induction ws as [|w ws IH]; simpl; [reflexivity|].
  destruct (P (f w)); simpl; now rewrite IH.
Qed.

Lemma ranked_stable_words (words : list string) (f : string -> Q) (q : Q) :
  filter (fun w => Qeq_bool (f w) q) (map fst (ranked_by_prob words (map f words))) =
  filter (fun w => Qeq_bool (f w) q) words.
Proof.
  rewrite <- (filter_pairs (fun p => Qeq_bool p q) f), <- ranked_pairs.
  rewrite <- (filter_pairs (fun p => Qeq_bool p q) f words), <- combine_pairs.
  f_equal. unfold ranked_by_prob, sorted.
  induction (combine words (map f words)) as [|x xs IH]; [reflexivity|].
  simpl fold_right. rewrite stable_insert. simpl. now rewrite IH.
Qed.

Lemma descending_counts (count : string -> Z) (t : Z) (ws : list string) :
  (0 < t)%Z ->
  descending (map (fun w => (inject_Z (count w) / inject_Z t)%Q) ws) ->
  descending (map (fun w => inject_Z (count w)) ws).
Proof.
  intros Ht. induction ws as [|w ws IH]; simpl; [auto|].
  intros [Hw Hd]. split; [|now apply IH].
  intros q Hq. apply in_map_iff in Hq as [x [<- Hx]].
  rewrite <- Zle_Qle. apply (ratio_le_counts _ _ t Ht).
  apply Hw. apply in_map_iff. now exists x.
Qed.

Lemma ratio_eq_counts (a b t : Z) :
  (0 < t)%Z ->
  Qeq_bool (inject_Z a / inject_Z t) (inject_Z b / inject_Z t) = (a =? b)%Z.
Proof.
  intros Ht. destruct (Z.eqb_spec a b) as [->|Hne].
  - apply Qeq_bool_iff. reflexivity.
  - destruct (Qeq_bool _ _) eqn:Heq; [|reflexivity].
    apply Qeq_bool_iff in Heq. exfalso. apply Hne.
    destruct t as [|p|p]; try lia.
    unfold Qeq, Qdiv, Qmult, Qinv, inject_Z in Heq. simpl in Heq. nia.
Qed.

End Backfill.

(** X18. [backfill_suggestions] keeps the first three of the suggestions it is
    given and, when they are fewer than three, fills the list up to three
    with the retained words that are not yet in it, taken from the
    vocabulary ranked by descending count, words of equal count in the
    order of the vocabulary. *)
Theorem backfill_most_frequent (corpus : list (list string)) (min_freq : Z)
  (order : list string) (g : NGramLanguageModel.t) (existing : list string) :
  let wc := WordCompletor.init corpus min_freq order in
  let count := counter_count (WordCompletor.counter wc) in
  let vocabulary := dict_keys (WordCompletor.counter wc) in
  exists ranked,
    Permutation ranked vocabulary /\
    descending (map (fun w => inject_Z (count w)) ranked) /\
    (forall c, filter (fun w => (count w =? c)%Z) ranked =
               filter (fun w => (count w =? c)%Z) vocabulary) /\
    State.backfill_suggestions
      {| State._word_completor := wc; State._ngram_model := g |} existing =
    Ok (firstn 3 existing ++
        firstn (3 - List.length existing)
          (filter (fun w => negb (list_in w existing)) ranked))%list.
Proof.
  intros wc count vocabulary.
  set (f := fun w => (inject_Z (count w) / inject_Z (WordCompletor.total_count wc))%Q).
  exists (map fst (State.ranked_by_prob vocabulary (map f vocabulary))).
  assert (Hperm : Permutation (map fst (State.ranked_by_prob vocabulary (map f vocabulary)))
                    vocabulary) by apply ranked_words.
  assert (Htot : vocabulary = [] \/ (0 < WordCompletor.total_count wc)%Z).
  { destruct (Z.eq_dec (WordCompletor.total_count wc) 0) as [Hz|Hnz].
    - left. apply init_total_zero in Hz. subst vocabulary. fold wc in Hz. now rewrite Hz.
    - right. pose proof (init_total_count corpus min_freq order) as Hsum. fold wc in Hsum.
      assert (0 <= sum_Z (dict_values (WordCompletor.counter wc)))%Z.
      { rewrite <- values_count by apply init_NoDup_keys.
        apply sum_counts_nonneg; [apply init_NoDup_keys|].
        intros k v Hin. apply init_positive in Hin. lia. }
      lia. }
  split; [exact Hperm|]. split; [|split].
  - destruct Htot as [Hnil|Hpos]; [rewrite Hnil; exact I|].
    apply (descending_counts count _ _ Hpos). fold f.
    pose proof (ranked_descending_probs vocabulary (map f vocabulary)) as Hd.
    rewrite ranked_pairs in Hd. rewrite map_map in Hd. simpl in Hd.
    exact Hd.
  - intros c. destruct Htot as [Hnil|Hpos]; [rewrite Hnil; reflexivity|].
    pose proof (ranked_stable_words vocabulary f
                  (inject_Z c / inject_Z (WordCompletor.total_count wc))) as Hs.
    assert (Hext : forall w,
              Qeq_bool (f w) (inject_Z c / inject_Z (WordCompletor.total_count wc)) =
              (count w =? c)%Z)
      by (intros w; unfold f; now apply ratio_eq_counts).
    rewrite !(filter_ext _ _ Hext) in Hs. exact Hs.
  - unfold State.backfill_suggestions. cbn [State._word_completor].
    destruct (Nat.leb_spec 3 (List.length existing)) as [Hge|Hlt].
    + replace (3 - List.length existing) with 0 by lia.
      rewrite slice_to_3. simpl firstn. now rewrite app_nil_r.
    + rewrite (firstn_all2 (n := 3) existing) by lia.
      pose proof (get_words_and_probs_value wc "") as Hv. cbv zeta in Hv.
      fold vocabulary in Hv. rewrite Hv. clear Hv.
      assert (Hcases : vocabulary = [] \/
                (match vocabulary with [] => true | _ :: _ => false end
                 || (WordCompletor.total_count wc =? 0)%Z) = false).
      { destruct Htot as [Hnil|Hpos]; [now left|].
        assert (Hl : forall l : list string,
                  l = [] \/ match l with [] => true | _ :: _ => false end = false)
          by (intros [|]; auto).
        destruct (Hl vocabulary) as [Hnil|Hm]; [now left | right].
        rewrite Hm. cbn [orb]. apply Z.eqb_neq. lia. }
      destruct Hcases as [Hnil|Hcond].
      * rewrite Hnil. simpl. rewrite firstn_nil. now rewrite app_nil_r.
      * rewrite Hcond. cbn [bind]. fold count. fold f.
        rewrite append_new_filter; [reflexivity| |exact Hlt].
        eapply Permutation_NoDup; [symmetry; exact Hperm|].
        subst vocabulary. apply init_NoDup_keys.
Qed.
